(** * Elastic travel orchestrator: the replan pipeline, shallowly embedded

    The development follows [backend/engine/elastic_replan.py],
    [backend/engine/routing_solver.py] and
    [backend/engine/friction_model.py].

    - Python [int] is [Z]; [str] is [string]; [Optional[T]] is [option T];
      a [Literal[...]] type is an inductive type with its spelling.  An
      integer handed to OR-Tools has to fit a C++ [int64_t].
    - Pydantic model instances are mutable objects that are shared by
      reference.  They live in a [Store]: one growing list per class, a
      reference being the index of the object.  [model_copy(deep=True)]
      allocates; attribute assignment updates in place.
    - What the process obtains from outside (HTTP directions, the clock,
      the CP-SAT search, the friction classifier, the environment) is
      gathered in a [World] record the pipeline is parameterised by.
    - A Python exception that the code does not catch is a value of
      [Res]; an endless [while True] is [Diverge]. *)

From Stdlib Require Import ZArith QArith Qminmax Qround Lia.
From stdpp Require Import base option list gmap strings.

Open Scope Z_scope.

(** ** Literal types (elastic_replan.py, lines 62-69) *)

Inductive TransportMode := WALKING | TRANSIT | EBIKE | RIDESHARE.
Inductive StopPriority := MUST_VISIT | NICE_TO_HAVE.
Inductive StopStatus := PENDING | COMPLETED | DROPPED.
Inductive ItineraryStatus := ACTIVE | REPLANNING | ITIN_COMPLETED.
Inductive DisruptionType := TRANSIT_DELAY | LINE_CANCELLATION | VENUE_CLOSED | WEATHER.
Inductive Severity := MINOR | MAJOR | CRITICAL.
Inductive FrictionLevel := LOW | MEDIUM | HIGH.
Inductive SourceType := LIVE_API | DEMO_INJECT.

#[global] Instance TransportMode_eq_dec : EqDecision TransportMode.
Proof. solve_decision. Defined.
#[global] Instance StopPriority_eq_dec : EqDecision StopPriority.
Proof. solve_decision. Defined.
#[global] Instance StopStatus_eq_dec : EqDecision StopStatus.
Proof. solve_decision. Defined.
#[global] Instance ItineraryStatus_eq_dec : EqDecision ItineraryStatus.
Proof. solve_decision. Defined.
#[global] Instance DisruptionType_eq_dec : EqDecision DisruptionType.
Proof. solve_decision. Defined.
#[global] Instance Severity_eq_dec : EqDecision Severity.
Proof. solve_decision. Defined.

(** The spelling of a mode, as compared with the strings of
    [affectedModes] and of the friction scorer. *)
Definition mode_str (m : TransportMode) : string :=
  match m with
  | WALKING => "WALKING"
  | TRANSIT => "TRANSIT"
  | EBIKE => "EBIKE"
  | RIDESHARE => "RIDESHARE"
  end.

(** [x in xs] on strings. *)
Definition str_in (x : string) (xs : list string) : bool :=
  existsb (String.eqb x) xs.

(** ** Pydantic models (elastic_replan.py, lines 72-133) *)

Record UserConstraints := mkUser {
  budgetCents : Z;
  returnDeadline : string;
  preferredModes : list TransportMode
}.

Record Stop := mkStop {
  stop_id : string;
  stop_name : string;
  lat : Q;
  lng : Q;
  priority : StopPriority;
  stop_status : StopStatus;
  dropReason : option string
}.

Record Leg := mkLeg {
  fromStopId : string;
  toStopId : string;
  mode : TransportMode;
  costCents : Z;
  durationSec : Z;
  available : bool;
  polyline : option string;
  frictionScore : option Q;
  frictionLevel : option FrictionLevel
}.

Record DisruptionEvent := mkEvent {
  event_id : string;
  event_type : DisruptionType;
  severity : Severity;
  affectedRoutes : option (list string);
  affectedModes : option (list string);
  affectedStopId : option string;
  delayMinutes : option Z;
  timestamp : string;
  source : SourceType
}.

(** References into the store. *)
Abbreviation ref := nat.

(** An [Itinerary] instance: its [stops] and [legs] lists hold references
    to [Stop] and [Leg] instances. *)
Record Itinerary := mkItin {
  itin_id : string;
  version : Z;
  user : UserConstraints;
  stops : list ref;
  legs : list ref;
  totalCost : Z;
  projectedETA : string;
  itin_status : ItineraryStatus
}.

Record ReplanRequest := mkReq {
  itinerary : ref;
  disruption : DisruptionEvent
}.

(** Attribute assignment. *)
Definition set_available (b : bool) (l : Leg) : Leg :=
  mkLeg (fromStopId l) (toStopId l) (mode l) (costCents l) (durationSec l) b
        (polyline l) (frictionScore l) (frictionLevel l).
Definition set_durationSec (d : Z) (l : Leg) : Leg :=
  mkLeg (fromStopId l) (toStopId l) (mode l) (costCents l) d (available l)
        (polyline l) (frictionScore l) (frictionLevel l).
Definition set_friction (s : Q) (lv : FrictionLevel) (l : Leg) : Leg :=
  mkLeg (fromStopId l) (toStopId l) (mode l) (costCents l) (durationSec l)
        (available l) (polyline l) (Some s) (Some lv).
Definition set_dropped (reason : option string) (s : Stop) : Stop :=
  mkStop (stop_id s) (stop_name s) (lat s) (lng s) (priority s) DROPPED reason.

(** ** The object store *)

(** External calls the pipeline makes, in the order it makes them. *)
Inductive Call :=
| CallFetchAlternatives (n : nat)
| CallSolveVrptw (n : nat)
| CallGreedyFallback (n : nat)
| CallPredictFriction (n : nat).

Record Store := mkStore {
  stop_heap : list Stop;
  leg_heap : list Leg;
  itin_heap : list Itinerary;
  call_log : list Call
}.

#[global] Instance Stop_inhabited : Inhabited Stop :=
  populate (mkStop "" "" 0%Q 0%Q MUST_VISIT PENDING None).
#[global] Instance Leg_inhabited : Inhabited Leg :=
  populate (mkLeg "" "" WALKING 0 0 true None None None).
#[global] Instance Itinerary_inhabited : Inhabited Itinerary :=
  populate (mkItin "" 0 (mkUser 0 "" []) [] [] 0 "" ACTIVE).

(** Dereferencing.  A Python reference always designates a live object;
    the default is returned only for an index outside the store, which a
    well-formed store ([wf_itin] below) rules out. *)
Definition get_stop (st : Store) (r : ref) : Stop := stop_heap st !!! r.
Definition get_leg (st : Store) (r : ref) : Leg := leg_heap st !!! r.
Definition get_itin (st : Store) (r : ref) : Itinerary := itin_heap st !!! r.

(** In-place update of the object a reference designates. *)
Definition upd_stop (f : Stop -> Stop) (r : ref) (st : Store) : Store :=
  mkStore (alter f r (stop_heap st)) (leg_heap st) (itin_heap st) (call_log st).
Definition upd_leg (f : Leg -> Leg) (r : ref) (st : Store) : Store :=
  mkStore (stop_heap st) (alter f r (leg_heap st)) (itin_heap st) (call_log st).

(** Allocation of new instances. *)
Definition alloc_stops (ss : list Stop) (st : Store) : Store * list ref :=
  (mkStore (stop_heap st ++ ss) (leg_heap st) (itin_heap st) (call_log st),
   seq (length (stop_heap st)) (length ss)).
Definition alloc_legs (ls : list Leg) (st : Store) : Store * list ref :=
  (mkStore (stop_heap st) (leg_heap st ++ ls) (itin_heap st) (call_log st),
   seq (length (leg_heap st)) (length ls)).
Definition alloc_itin (it : Itinerary) (st : Store) : Store * ref :=
  (mkStore (stop_heap st) (leg_heap st) (itin_heap st ++ [it]) (call_log st),
   length (itin_heap st)).

Definition log_call (c : Call) (st : Store) : Store :=
  mkStore (stop_heap st) (leg_heap st) (itin_heap st) (call_log st ++ [c]).

(** Every reference held by the itinerary designates an object. *)
Definition wf_itin (st : Store) (r : ref) : Prop :=
  (r < length (itin_heap st))%nat /\
  Forall (fun s => (s < length (stop_heap st))%nat) (stops (get_itin st r)) /\
  Forall (fun l => (l < length (leg_heap st))%nat) (legs (get_itin st r)).

(** [itin.model_copy(deep=True)]: a new [Itinerary] whose stops and legs
    are new instances with the same field values.  (Request models are
    built by validation of the JSON body, one instance per list entry.) *)
Definition model_copy_deep (st : Store) (r : ref) : Store * ref :=
  let it := get_itin st r in
  let '(st1, new_stops) := alloc_stops (map (get_stop st) (stops it)) st in
  let '(st2, new_legs) := alloc_legs (map (get_leg st) (legs it)) st1 in
  alloc_itin (mkItin (itin_id it) (version it) (user it) new_stops new_legs
                     (totalCost it) (projectedETA it) (itin_status it)) st2.

(** ** Step 1: apply_disruption (elastic_replan.py, lines 138-175) *)

(** Truthiness of [event.delayMinutes] and [event.affectedStopId]. *)
Definition truthy_int (o : option Z) : bool :=
  match o with Some n => negb (n =? 0) | None => false end.
Definition truthy_str (o : option string) : bool :=
  match o with Some s => negb (String.eqb s "") | None => false end.

(** [f"{leg.fromStopId}->{leg.toStopId}"] *)
Definition route_key (l : Leg) : string :=
  (fromStopId l ++ "->" ++ toStopId l)%string.

(** Body of the loop of lines 145-155 for one leg. *)
Definition disrupt_leg (event : DisruptionEvent) (leg : Leg) : Leg :=
  let affected_modes := default [] (affectedModes event) in
  let affected_routes := default [] (affectedRoutes event) in
  let leg :=
    if str_in (mode_str (mode leg)) affected_modes
    then set_available false leg else leg in
  let leg :=
    if negb (bool_decide (affected_routes = [])) && str_in (route_key leg) affected_routes
    then set_available false leg else leg in
  if bool_decide (event_type event = TRANSIT_DELAY) && truthy_int (delayMinutes event)
  then
    if str_in (mode_str (mode leg)) affected_modes && available leg
    then set_durationSec (durationSec leg + default 0 (delayMinutes event) * 60) leg
    else leg
  else leg.

(** Body of the loop of lines 160-163 for one stop. *)
Definition close_stop (event : DisruptionEvent) (sid : string) (stop : Stop) : Stop :=
  if String.eqb (stop_id stop) sid && bool_decide (stop_status stop = PENDING)
  then set_dropped (Some ("Venue closed (disruption " ++ event_id event ++ ")")%string) stop
  else stop.

(** Body of the loop of lines 165-167 for one leg. *)
Definition close_leg (sid : string) (leg : Leg) : Leg :=
  if String.eqb (fromStopId leg) sid || String.eqb (toStopId leg) sid
  then set_available false leg else leg.

(** Body of the loop of lines 173-175 for one leg. *)
Definition weather_leg (leg : Leg) : Leg :=
  if str_in (mode_str (mode leg)) ["WALKING"; "EBIKE"]%string
  then set_available false leg else leg.

(** [for leg in itin.legs: ...] and [for stop in itin.stops: ...], each
    iteration assigning to attributes of the object it visits. *)
Definition for_each_leg (f : Leg -> Leg) (rs : list ref) (st : Store) : Store :=
  foldl (fun st r => upd_leg f r st) st rs.
Definition for_each_stop (f : Stop -> Stop) (rs : list ref) (st : Store) : Store :=
  foldl (fun st r => upd_stop f r st) st rs.

Definition apply_disruption (st : Store) (itin : ref) (event : DisruptionEvent) : Store :=
  let it := get_itin st itin in
  match event_type event with
  | TRANSIT_DELAY | LINE_CANCELLATION =>
      for_each_leg (disrupt_leg event) (legs it) st
  | VENUE_CLOSED =>
      if truthy_str (affectedStopId event) then
        let sid := default ""%string (affectedStopId event) in
        let st := for_each_stop (close_stop event sid) (stops it) st in
        for_each_leg (close_leg sid) (legs it) st
      else st
  | WEATHER =>
      match severity event with
      | MAJOR | CRITICAL => for_each_leg weather_leg (legs it) st
      | MINOR => st
      end
  end.

(** ** Outcomes of Python code *)

(** Exceptions the engine can raise.  [HTTPException] is what FastAPI
    turns into a response with that status code; any other exception
    reaches the client as a 500. *)
Inductive PyExn :=
| IndexError
| UnboundLocalError
| TypeError
| OverflowError
| HTTPException (status_code : Z) (detail : string).

Inductive Res (A : Type) :=
| Ok (a : A)
| Raise (e : PyExn)
| Diverge.
Arguments Ok {A} a.
Arguments Raise {A} e.
Arguments Diverge {A}.

Definition res_bind {A B} (m : Res A) (k : A -> Res B) : Res B :=
  match m with
  | Ok a => k a
  | Raise e => Raise e
  | Diverge => Diverge
  end.

Notation "x <~ m ; k" := (res_bind m (fun x => k))
  (at level 100, m at next level, right associativity).

Fixpoint res_mapM {A B} (f : A -> Res B) (l : list A) : Res (list B) :=
  match l with
  | [] => Ok []
  | a :: l' => b <~ f a; bs <~ res_mapM f l'; Ok (b :: bs)
  end.

(** ** Matrices: [list[list[int]]] *)

Abbreviation Matrix := (list (list Z)) (only parsing).

(** [m[i][j]] with non-negative indices; out of range raises. *)
Definition mx_get (m : Matrix) (i j : nat) : Res Z :=
  match m !! i with
  | Some row => match row !! j with Some v => Ok v | None => Raise IndexError end
  | None => Raise IndexError
  end.

Definition square (n : nat) (m : Matrix) : Prop :=
  length m = n /\ Forall (fun row => length row = n) m.

(** ** Integers handed to OR-Tools

    The CP-SAT wrapper takes its integers as C++ [int64_t]: a call with
    a Python int outside that range raises [TypeError]. *)
Definition int64 (z : Z) : bool := (- 2 ^ 63 <=? z) && (z <? 2 ^ 63).

Definition as_int64 (z : Z) : Res Z := if int64 z then Ok z else Raise TypeError.

(** ** greedy_fallback (routing_solver.py, lines 100-145) *)

Section Greedy.
Variables (cost_matrix time_matrix : Matrix).
Variables (budget_cents deadline_seconds : Z).

(** [time_matrix[curr][j] < best_time] where [best_time] starts as
    [float('inf')]: [None] stands for [(best_j, best_time) = (-1, inf)]. *)
Definition improves (t : Z) (best : option (nat * Z)) : bool :=
  match best with
  | None => true
  | Some (_, best_time) => t <? best_time
  end.

(** The [for j in range(num_stops)] loop of lines 121-129. *)
Fixpoint scan_candidates (visited : gset nat) (curr : nat) (curr_cost curr_time : Z)
         (js : list nat) (best : option (nat * Z)) : Res (option (nat * Z)) :=
  match js with
  | [] => Ok best
  | j :: js' =>
      if bool_decide (j ∈ visited)
      then scan_candidates visited curr curr_cost curr_time js' best
      else
        c <~ mx_get cost_matrix curr j;
        if curr_cost + c <=? budget_cents then
          t <~ mx_get time_matrix curr j;
          if curr_time + t <=? deadline_seconds then
            if improves t best
            then scan_candidates visited curr curr_cost curr_time js' (Some (j, t))
            else scan_candidates visited curr curr_cost curr_time js' best
          else scan_candidates visited curr curr_cost curr_time js' best
        else scan_candidates visited curr curr_cost curr_time js' best
  end.

(** State at the head of the [while] loop. *)
Record GreedyState := mkGreedy {
  g_visited : gset nat;
  g_route : list nat;
  g_curr : nat;
  g_cost : Z;
  g_time : Z
}.

(** The [while len(visited) < num_stops] loop of lines 117-138.  The
    result is [None] when line 132 returns, and the state on leaving the
    loop otherwise. *)
Fixpoint greedy_loop (fuel : nat) (num_stops : nat) (s : GreedyState)
  : Res (option GreedyState) :=
  if (size (g_visited s) <? num_stops)%nat then
    match fuel with
    | O => Diverge
    | S fuel' =>
        best <~ scan_candidates (g_visited s) (g_curr s) (g_cost s) (g_time s)
                                (seq 0 num_stops) None;
        match best with
        | None => Ok None
        | Some (best_j, _) =>
            c <~ mx_get cost_matrix (g_curr s) best_j;
            t <~ mx_get time_matrix (g_curr s) best_j;
            greedy_loop fuel' num_stops
              (mkGreedy ({[best_j]} ∪ g_visited s) (g_route s ++ [best_j]) best_j
                        (g_cost s + c) (g_time s + t))
        end
    end
  else Ok (Some s).

(** The test of lines 141-142. *)
Definition closing_fits (s : GreedyState) (start_index : nat) : Res bool :=
  c <~ mx_get cost_matrix (g_curr s) start_index;
  if g_cost s + c <=? budget_cents then
    t <~ mx_get time_matrix (g_curr s) start_index;
    Ok (g_time s + t <=? deadline_seconds)
  else Ok false.

Definition greedy_fallback (stops : list Stop) (start_index : nat)
  : Res (option (list nat)) :=
  let num_stops := length stops in
  r <~ greedy_loop num_stops num_stops
         (mkGreedy {[start_index]} [start_index] start_index 0 0);
  match r with
  | None => Ok None
  | Some s =>
      b <~ closing_fits s start_index;
      if b then Ok (Some (g_route s)) else Ok None
  end.
End Greedy.

(** ** solve_vrptw (routing_solver.py, lines 11-97) *)

(** The CP-SAT model the function builds.  A Boolean variable [x[i, j]]
    is named by the pair [(i, j)]; the integer variable [t[i]] by [i]. *)
Inductive Constraint :=
| AddExactlyOne (lits : list (nat * nat))
| AddEq (i : nat) (v : Z)                        (* t[i] == v *)
| AddGeOnlyIf (j i : nat) (d : Z) (lit : nat * nat)
                                                 (* t[j] >= t[i] + d if lit *)
| AddLinearLe (terms : list (nat * nat * Z)) (bound : Z).
                                                 (* sum x[i,j] * c <= bound *)

Record CpModel := mkModel {
  bool_vars : list (nat * nat);
  int_vars : list (Z * Z);          (* bounds of t[0], t[1], ... *)
  constraints : list Constraint;
  minimize : list (nat * nat * Z)
}.

(** What [solver.Value] reports after a successful [Solve]. *)
Record Assignment := mkAssignment {
  x_value : nat -> nat -> bool;
  t_value : nat -> Z
}.

Definition lit_true (a : Assignment) (lit : nat * nat) : bool :=
  x_value a lit.1 lit.2.

Definition linear_value (a : Assignment) (terms : list (nat * nat * Z)) : Z :=
  foldr (fun term acc => (if lit_true a term.1 then term.2 else 0) + acc) 0 terms.

Definition holds (a : Assignment) (c : Constraint) : bool :=
  match c with
  | AddExactlyOne lits => (length (filter (fun lit => lit_true a lit = true) lits) =? 1)%nat
  | AddEq i v => t_value a i =? v
  | AddGeOnlyIf j i d lit => implb (lit_true a lit) (t_value a i + d <=? t_value a j)
  | AddLinearLe terms bound => linear_value a terms <=? bound
  end.

Definition in_bounds (a : Assignment) (m : CpModel) : bool :=
  forallb (fun ib => (ib.2.1 <=? t_value a ib.1) && (t_value a ib.1 <=? ib.2.2))
          (imap (fun i b => (i, b)) (int_vars m)).

(** [a] is a solution of [m]. *)
Definition feasible (a : Assignment) (m : CpModel) : bool :=
  in_bounds a m && forallb (holds a) (constraints m).

(** [j for j in range(n) if i != j] *)
Definition others (n i : nat) : list nat :=
  filter (fun j => i <> j) (seq 0 n).

(** [(i, j) for i in range(n) for j in range(n) if i != j] *)
Definition edges (n : nat) : list (nat * nat) :=
  i ← seq 0 n; (fun j => (i, j)) <$> others n i.

Section BuildModel.
Variables (num_stops : nat) (cost_matrix time_matrix : Matrix).
Variables (budget_cents deadline_seconds : Z) (start_index : nat).

(** Lines 40-44. *)
Definition flow_constraints : list Constraint :=
  i ← seq 0 num_stops;
  [AddExactlyOne ((fun j => (i, j)) <$> others num_stops i);
   AddExactlyOne ((fun j => (j, i)) <$> others num_stops i)].

(** Line 51; [t[start_index]] raises outside [range(num_stops)]. *)
Definition start_constraint : Res Constraint :=
  if (start_index <? num_stops)%nat then Ok (AddEq start_index 0)
  else Raise IndexError.

(** Lines 53-57: [t[i] + time_matrix[i][j]]. *)
Definition time_constraints : Res (list Constraint) :=
  res_mapM (fun e => d <~ mx_get time_matrix e.1 e.2;
                     d <~ as_int64 d;
                     Ok (AddGeOnlyIf e.2 e.1 d e))
           (edges num_stops).

(** Lines 60-64 and 70-74: [x[i, j] * m[i][j]]. *)
Definition weighted (m : Matrix) : Res (list (nat * nat * Z)) :=
  res_mapM (fun e => c <~ mx_get m e.1 e.2; c <~ as_int64 c; Ok (e, c))
           (edges num_stops).

(** Lines 31-74, in the order of the calls: the arrival times with
    their upper bound (line 48, at least one for two stops or more), the
    start (line 51), the precedences (lines 53-57), the budget sum and
    its bound (lines 60-65), the objective (lines 70-75). *)
Definition build_model : Res CpModel :=
  deadline <~ as_int64 deadline_seconds;
  start <~ start_constraint;
  times <~ time_constraints;
  total_cost <~ weighted cost_matrix;
  budget <~ as_int64 budget_cents;
  total_time <~ weighted time_matrix;
  Ok (mkModel (edges num_stops)
              (replicate num_stops (0, deadline))
              (flow_constraints ++ [start] ++ times
                 ++ [AddLinearLe total_cost budget])
              total_time).
End BuildModel.

(** The inner [for j in range(num_stops)] of lines 87-90. *)
Definition first_successor (x : nat -> nat -> bool) (num_stops curr : nat) : option nat :=
  find (fun j => bool_decide (curr <> j) && x curr j) (seq 0 num_stops).

(** The [while True] loop of lines 86-94.  [next_node] keeps its former
    value when the inner loop finds nothing and is unbound before the
    first assignment.  The walk is a function of [curr] alone, so it comes
    back to [start_index] within [num_stops] rounds or never: [fuel] is
    [num_stops] at the call. *)
Fixpoint reconstruct (fuel : nat) (x : nat -> nat -> bool) (num_stops start_index : nat)
         (curr : nat) (next_node : option nat) (route : list nat) : Res (list nat) :=
  match fuel with
  | O => Diverge
  | S fuel' =>
      let next_node :=
        match first_successor x num_stops curr with
        | Some j => Some j
        | None => next_node
        end in
      match next_node with
      | None => Raise UnboundLocalError
      | Some nxt =>
          if (nxt =? start_index)%nat then Ok route
          else reconstruct fuel' x num_stops start_index nxt (Some nxt) (route ++ [nxt])
      end
  end.

(** [cp_solve] stands for [CpSolver.Solve] under its one-second limit:
    [Some a] when the status is [OPTIMAL] or [FEASIBLE], with [a] the
    values the solver then reports; [None] for every other status. *)
Definition solve_vrptw (cp_solve : CpModel -> option Assignment)
           (stops : list Stop) (cost_matrix time_matrix : Matrix)
           (budget_cents deadline_seconds : Z) (start_index : nat)
  : Res (option (list nat)) :=
  let num_stops := length stops in
  if (num_stops <=? 1)%nat then Ok (Some [0%nat])
  else
    model <~ build_model num_stops cost_matrix time_matrix
                         budget_cents deadline_seconds start_index;
    match cp_solve model with
    | Some a =>
        route <~ reconstruct num_stops (x_value a) num_stops start_index
                             start_index None [start_index];
        Ok (Some route)
    | None => Ok None
    end.

(** CP-SAT reports only assignments that satisfy the model. *)
Definition cp_sound (cp_solve : CpModel -> option Assignment) : Prop :=
  forall m a, cp_solve m = Some a -> feasible a m = true.

(** ** fetch_alternatives (elastic_replan.py, lines 299-351) *)

(** The dict a directions fetcher returns. *)
Record LegData := mkLegData {
  ld_costCents : Z;
  ld_durationSec : Z;
  ld_polyline : string;
  ld_available : bool
}.

(** What lines 569-573 make of a [returnDeadline]. *)
Inductive DeadlineRead :=
| SecondsLeft (d : Z)   (* [int((deadline_dt - now).total_seconds())] *)
| NotIso                (* [fromisoformat] raises [ValueError], which is caught *)
| NoOffset.             (* an ISO date without UTC offset: [deadline_dt - now]
                           raises [TypeError], which is not caught *)

(** What the process obtains from outside of it. *)
Record World := mkWorld {
  (** [os.getenv("DEMO_SESSION_ID", "demo-maya-001")] *)
  DEMO_SESSION : string;
  (** Outcome of the directions task for the pair [(i, j)] in the
      [asyncio.gather] batch, after every fallback of the fetcher. *)
  fetch_directions : nat -> nat -> Stop -> Stop -> TransportMode -> LegData;
  (** [CpSolver.Solve] with [max_time_in_seconds = 1.0]. *)
  cp_solve : CpModel -> option Assignment;
  (** Lines 569-573 on [returnDeadline], with [now] aware of its offset. *)
  seconds_until : string -> DeadlineRead;
  (** [(now + timedelta(seconds=d)).isoformat()], lines 704-705 and 744;
      [None] is the [OverflowError] of a [timedelta] or a date out of
      range. *)
  eta_after : Z -> option string;
  (** [int((now + timedelta(seconds=d) - old_eta).total_seconds())],
      lines 699-706, where [old_eta] is the old [projectedETA], or [now]
      when that is no ISO date; [None] is the [TypeError] of subtracting
      a date without UTC offset from an aware one. *)
  eta_delta : Z -> string -> option Z;
  (** The score of one leg before rounding: the classifier's probability,
      or [_mock_friction_score] when there is no model artifact. *)
  friction_raw : Leg -> Q
}.

Definition LegDetails := gmap (nat * nat) (LegData * TransportMode).

Definition fetch_alternatives (W : World) (active_stops : list Stop)
           (preferred_modes : list TransportMode) : Matrix * Matrix * LegDetails :=
  let n := length active_stops in
  let mode := hd WALKING preferred_modes in
  let result i j :=
    fetch_directions W i j (active_stops !!! i) (active_stops !!! j) mode in
  let cell (f : LegData -> Z) i j := if (i =? j)%nat then 0 else f (result i j) in
  let matrix f := (fun i => cell f i <$> seq 0 n) <$> seq 0 n in
  (matrix ld_costCents, matrix ld_durationSec,
   list_to_map ((fun e => (e, (result e.1 e.2, mode))) <$> edges n)).

(** ** drop_lowest_priority (elastic_replan.py, lines 356-398) *)

(** Lines 365-377: [None] stands for [drop_idx == -1]. *)
Definition find_drop_idx (st : Store) (stops : list ref) : option nat :=
  let indices := reverse (seq 1 (length stops - 1)) in
  match find (fun i => bool_decide (priority (get_stop st (stops !!! i)) = NICE_TO_HAVE))
             indices with
  | Some i => Some i
  | None => head indices
  end.

(** Lines 387-396. *)
Definition shrink (drop_idx : nat) (m : Matrix) : Matrix :=
  delete drop_idx (delete drop_idx <$> m).

Definition DROP_REASON : string := "Removed to satisfy budget/time constraints".

Definition drop_lowest_priority (st : Store) (stops : list ref)
           (cost_matrix time_matrix : Matrix)
  : Store * (option ref * list ref * Matrix * Matrix) :=
  match find_drop_idx st stops with
  | None => (st, (None, stops, cost_matrix, time_matrix))
  | Some drop_idx =>
      let dropped := stops !!! drop_idx in
      (upd_stop (set_dropped (Some DROP_REASON)) dropped st,
       (Some dropped, delete drop_idx stops,
        shrink drop_idx cost_matrix, shrink drop_idx time_matrix))
  end.

(** Two stores with the same objects; the call log may differ. *)
Definition same_heaps (st st' : Store) : Prop :=
  stop_heap st' = stop_heap st
  /\ leg_heap st' = leg_heap st
  /\ itin_heap st' = itin_heap st.

(** The objects with a reference below the marks [(bs, bl, bi)] are the
    same in [st'] as in [st], and no heap has shrunk. *)
Definition unchanged_below (bs bl bi : nat) (st st' : Store) : Prop :=
  (take bs (stop_heap st') = take bs (stop_heap st)
   /\ take bl (leg_heap st') = take bl (leg_heap st)
   /\ take bi (itin_heap st') = take bi (itin_heap st))
  /\ (length (stop_heap st) <= length (stop_heap st')
      /\ length (leg_heap st) <= length (leg_heap st')
      /\ length (itin_heap st) <= length (itin_heap st'))%nat.

(** ** Stateful computations over the store *)

Definition M (A : Type) : Type := Store -> Store * Res A.

Definition ret {A} (a : A) : M A := fun st => (st, Ok a).
Definition raise {A} (e : PyExn) : M A := fun st => (st, Raise e).
Definition lift {A} (r : Res A) : M A := fun st => (st, r).
Definition bind {A B} (m : M A) (k : A -> M B) : M B :=
  fun st =>
    match m st with
    | (st', Ok a) => k a st'
    | (st', Raise e) => (st', Raise e)
    | (st', Diverge) => (st', Diverge)
    end.
Definition get_store : M Store := fun st => (st, Ok st).
Definition modify (f : Store -> Store) : M unit := fun st => (f st, Ok tt).
Definition run_alloc {A} (f : Store -> Store * A) : M A :=
  fun st => let '(st', a) := f st in (st', Ok a).

Notation "x <- m ;; k" := (bind m (fun x => k))
  (at level 100, m at next level, right associativity).
Notation "m ;;; k" := (bind m (fun _ => k))
  (at level 100, right associativity).

(** ** The solver loop (elastic_replan.py, lines 597-639) *)

(** [if route_indices:] *)
Definition truthy_route (r : option (list nat)) : bool :=
  match r with
  | Some (_ :: _) => true
  | _ => false
  end.

Record LoopState := mkLoop {
  stops_to_route : list ref;
  c_mx : Matrix;
  t_mx : Matrix;
  dropped_stops : list ref;
  route_indices : option (list nat)
}.

(** Lines 603-623 of one iteration: the exact solver, then the greedy
    fallback when it returned nothing. *)
Definition solve_step (W : World) (budget_cents deadline_sec : Z) (s : LoopState)
  : M (option (list nat)) :=
  st <- get_store;;
  let dumps := get_stop st <$> stops_to_route s in
  modify (log_call (CallSolveVrptw (length dumps)));;;
  route <- lift (solve_vrptw (cp_solve W) dumps (c_mx s) (t_mx s)
                             budget_cents deadline_sec 0);;
  if truthy_route route then ret route
  else
    modify (log_call (CallGreedyFallback (length dumps)));;;
    lift (greedy_fallback (c_mx s) (t_mx s) budget_cents deadline_sec dumps 0).

(** [for iteration in range(max_drop_iterations)] *)
Fixpoint drop_loop (W : World) (budget_cents deadline_sec : Z)
         (iterations : nat) (s : LoopState) : M LoopState :=
  match iterations with
  | O => ret s
  | S iterations' =>
      if (length (stops_to_route s) <? 2)%nat then ret s
      else
        route <- solve_step W budget_cents deadline_sec s;;
        let s := mkLoop (stops_to_route s) (c_mx s) (t_mx s) (dropped_stops s) route in
        if truthy_route route then ret s
        else
          res <- run_alloc (fun st => drop_lowest_priority st (stops_to_route s)
                                                          (c_mx s) (t_mx s));;
          let '(dropped, stops, c, t) := res in
          let s := mkLoop stops c t (dropped_stops s) route in
          match dropped with
          | None => ret s
          | Some d =>
              drop_loop W budget_cents deadline_sec iterations'
                        (mkLoop stops c t (dropped_stops s ++ [d]) route)
          end
  end.

(** ** Friction scoring (friction_model.py) *)

(** [classify_friction_level], lines 60-67. *)
Definition classify_friction_level (score : Q) : FrictionLevel :=
  if Qlt_le_dec score 0.3%Q then LOW
  else if Qle_bool score 0.7%Q then MEDIUM
  else HIGH.

(** [_mock_friction_score], lines 207-227, on exact rationals: the
    double the code computes differs from this value by the rounding of
    two literals, one product and one sum, less than [1e-15].  [hour] is
    [datetime.now().hour]; [py_hash] is the built-in [hash] on [str] of
    the running interpreter, which CPython keys with a secret drawn when
    the process starts (unless [PYTHONHASHSEED] fixes it).  Python's [%]
    with a positive modulus is [Z.modulo]. *)
Definition _mock_friction_score (py_hash : string -> Z) (hour : Z) (leg : Leg) : Q :=
  let mode := mode_str (mode leg) in
  let base :=
    if String.eqb mode "TRANSIT"
       && (((7 <=? hour) && (hour <=? 9)) || ((17 <=? hour) && (hour <=? 19)))
    then 0.55%Q
    else if String.eqb mode "EBIKE" then 0.25%Q
    else if String.eqb mode "RIDESHARE" then 0.35%Q
    else 0.15%Q in
  let hash_val := py_hash (fromStopId leg ++ toStopId leg)%string mod 100 in
  let variation := (inject_Z (hash_val - 50) * 0.004)%Q in
  Qmax 0 (Qmin 1 (base + variation))%Q.

(** [round(score, 3)], to the nearest thousandth, ties to even. *)
Definition round3 (score : Q) : Q :=
  let y := (score * 1000)%Q in
  let f := Qfloor y in
  let r := (y - inject_Z f)%Q in
  let n :=
    match (r ?= 1 # 2)%Q with
    | Lt => f
    | Gt => f + 1
    | Eq => if Z.even f then f else f + 1
    end in
  (n # 1000)%Q.

(** One entry of the list [predict_friction] returns, lines 84-97. *)
Definition predict_friction (W : World) (legs : list Leg) : list (Q * FrictionLevel) :=
  (fun leg => let score := friction_raw W leg in
              (round3 score, classify_friction_level score)) <$> legs.

(** ** What the endpoint returns *)

(** [Itinerary.model_dump()]: the nested plain data. *)
Record ItineraryDump := mkDump {
  d_id : string;
  d_version : Z;
  d_user : UserConstraints;
  d_stops : list Stop;
  d_legs : list Leg;
  d_totalCost : Z;
  d_projectedETA : string;
  d_status : ItineraryStatus
}.

Definition model_dump (st : Store) (r : ref) : ItineraryDump :=
  let it := get_itin st r in
  mkDump (itin_id it) (version it) (user it)
         (get_stop st <$> stops it) (get_leg st <$> legs it)
         (totalCost it) (projectedETA it) (itin_status it).

Record ItineraryDiff := mkDiff {
  droppedStops : list Stop;
  newLegs : list Leg;
  changedLegs : list Leg;
  costDelta : Z;
  etaDelta : Z
}.

(** The ["meta"] dict without its wall-clock timings. *)
Record Meta := mkMeta {
  solver : string;
  stopsDropped : Z;
  meta_version : Z
}.

Record ReplanResult := mkResult {
  res_itinerary : ItineraryDump;
  res_diff : ItineraryDiff;
  res_meta : Meta
}.

(** ** hardcoded_maya_replan (elastic_replan.py, lines 403-517) *)

Definition ROOFTOP_REASON : string :=
  "Rooftop Bar removed — insufficient budget after e-bike reroute".

Definition ebike_leg : Leg :=
  mkLeg "farmers-market" "art-museum" EBIKE 500 1200 true
        (Some "ier~F~achVcAeAkAy@oAs@qAi@sA_@uAOuA@sAP"%string)
        (Some 0.45%Q) (Some MEDIUM).

Definition rideshare_leg : Leg :=
  mkLeg "art-museum" "home" RIDESHARE 750 1500 true
        (Some "qmr~Ft_chVdBnCjBjCdBrB~@pA`@fBXrBJpBCnBQlB"%string)
        (Some 0.22%Q) (Some LOW).

(** Lines 423-429 for one stop: the copy [sc]. *)
Definition maya_stop (s : Stop) : Stop :=
  if String.eqb (stop_id s) "rooftop-bar"
  then set_dropped (Some ROOFTOP_REASON) s else s.

Definition sumZ (l : list Z) : Z := foldr Z.add 0 l.

(** Lines 455-466: the kept first leg, if any, then the two fixed legs. *)
Definition maya_legs (st : Store) (it : Itinerary) : list Leg :=
  match find (fun leg => String.eqb (fromStopId leg) "home"
                         && String.eqb (toStopId leg) "farmers-market")
             (get_leg st <$> legs it) with
  | Some leg => [leg; ebike_leg; rideshare_leg]
  | None => [ebike_leg; rideshare_leg]
  end.

Definition hardcoded_maya_replan (itin : ref) : M ReplanResult :=
  st <- get_store;;
  let it := get_itin st itin in
  new_stops <- run_alloc (alloc_stops (maya_stop <$> (get_stop st <$> stops it)));;
  st <- get_store;;
  let dropped_stops :=
    filter (fun r => String.eqb (stop_id (get_stop st r)) "rooftop-bar" = true) new_stops in
  let new_leg_values := maya_legs st it in
  new_legs <- run_alloc (alloc_legs new_leg_values);;
  let total_cost := sumZ (costCents <$> new_leg_values) in
  new_itin <- run_alloc (alloc_itin
                (mkItin (itin_id it) (version it + 1) (user it) new_stops new_legs
                        total_cost "19:50" ACTIVE));;
  st <- get_store;;
  ret (mkResult (model_dump st new_itin)
                (mkDiff (get_stop st <$> dropped_stops)
                        [ebike_leg; rideshare_leg] []
                        (total_cost - totalCost it) 5)
                (mkMeta "DEMO_HARDCODED" 1 (version (get_itin st new_itin)))).

(** ** replan_itinerary (elastic_replan.py, lines 522-790) *)

(** Lines 658-679: the legs of the solved route. *)
Definition build_leg (st : Store) (itin : Itinerary) (s : LoopState)
           (leg_details : LegDetails) (idx_from idx_to : nat) : Res Leg :=
  c <~ mx_get (c_mx s) idx_from idx_to;
  t <~ mx_get (t_mx s) idx_from idx_to;
  let detail := leg_details !! (idx_from, idx_to) in
  let mode :=
    match detail with
    | Some (_, m) => m
    | None => hd WALKING (preferredModes (user itin))
    end in
  let polyline :=
    match detail with
    | Some (d, _) => ld_polyline d
    | None => ""%string
    end in
  match stops_to_route s !! idx_from, stops_to_route s !! idx_to with
  | Some a, Some b =>
      Ok (mkLeg (stop_id (get_stop st a)) (stop_id (get_stop st b)) mode c t true
                (Some polyline) None None)
  | _, _ => Raise IndexError
  end.

Definition build_legs (st : Store) (itin : Itinerary) (s : LoopState)
           (leg_details : LegDetails) (route : list nat) : Res (list Leg) :=
  res_mapM (fun e => build_leg st itin s leg_details e.1 e.2)
           (zip route (tail route)).

(** Lines 709-722. *)
Definition old_leg_map (old_legs : list Leg) : gmap (string * string) Leg :=
  foldl (fun m l => <[(fromStopId l, toStopId l) := l]> m) ∅ old_legs.

Definition leg_changed (old_leg leg : Leg) : bool :=
  negb (costCents old_leg =? costCents leg)
  || negb (durationSec old_leg =? durationSec leg)
  || negb (bool_decide (mode old_leg = mode leg)).

Definition is_changed (old_legs : list Leg) (leg : Leg) : bool :=
  match old_leg_map old_legs !! (fromStopId leg, toStopId leg) with
  | Some old_leg => leg_changed old_leg leg
  | None => false
  end.

Definition is_new (old_legs : list Leg) (leg : Leg) : bool :=
  match old_leg_map old_legs !! (fromStopId leg, toStopId leg) with
  | Some _ => false
  | None => true
  end.

Definition changed_legs (old_legs new_legs : list Leg) : list Leg :=
  filter (fun leg => is_changed old_legs leg = true) new_legs.

Definition truly_new_legs (old_legs new_legs : list Leg) : list Leg :=
  filter (fun leg => is_new old_legs leg = true) new_legs.

(** Lines 748-754 for one stop of the new itinerary: [dropped] holds the
    values of [dropped_stops]. *)
Definition reflect_drop (dropped : list Stop) (stop : Stop) : Stop :=
  match find (fun d => String.eqb (stop_id d) (stop_id stop)) dropped with
  | Some matching => set_dropped (dropReason matching) stop
  | None => stop
  end.

Definition set_header (v : Z) (new_legs : list ref) (cost : Z) (eta : string)
           (s : ItineraryStatus) (it : Itinerary) : Itinerary :=
  mkItin (itin_id it) v (user it) (stops it) new_legs cost eta s.

Definition upd_itin (f : Itinerary -> Itinerary) (r : ref) (st : Store) : Store :=
  mkStore (stop_heap st) (leg_heap st) (alter f r (itin_heap st)) (call_log st).

Definition NEED_TWO_STOPS : string :=
  "Need at least 2 active stops to build an itinerary.".
Definition NO_FEASIBLE_ROUTE : string :=
  "Unable to find any feasible route even after dropping all droppable stops.".

(** Lines 549-556: the stops the router works on. *)
Definition pending_stops (st : Store) (itin : ref) : list ref :=
  filter (fun r => stop_status (get_stop st r) = PENDING) (stops (get_itin st itin)).

(** Lines 588-590. *)
Definition already_dropped (st : Store) (itin : ref) : list ref :=
  filter (fun r => stop_status (get_stop st r) = DROPPED
                   /\ truthy_str (dropReason (get_stop st r)) = true)
         (stops (get_itin st itin)).

(** Lines 568-575: only [ValueError] is caught. *)
Definition deadline_seconds_of (W : World) (return_deadline : string) : Res Z :=
  match seconds_until W return_deadline with
  | SecondsLeft d => Ok (Z.max 1 d)
  | NotIso => Ok 3600
  | NoOffset => Raise TypeError
  end.

(** Lines 540-651: steps 1 to 5 on the working copy [itin]. *)
Definition solve_stage (W : World) (itin : ref) (event : DisruptionEvent)
  : M (LegDetails * LoopState) :=
  modify (fun st => apply_disruption st itin event);;;
  st <- get_store;;
  let active_stops := pending_stops st itin in
  if (length active_stops <? 2)%nat then raise (HTTPException 422 NEED_TWO_STOPS)
  else
    modify (log_call (CallFetchAlternatives (length active_stops)));;;
    let '(cost_matrix, time_matrix, leg_details) :=
      fetch_alternatives W (get_stop st <$> active_stops)
                         (preferredModes (user (get_itin st itin))) in
    deadline_sec <- lift (deadline_seconds_of W
                            (returnDeadline (user (get_itin st itin))));;
    let budget_cents := budgetCents (user (get_itin st itin)) in
    s <- drop_loop W budget_cents deadline_sec (length active_stops)
           (mkLoop active_stops cost_matrix time_matrix (already_dropped st itin) None);;
    if truthy_route (route_indices s) then ret (leg_details, s)
    else raise (HTTPException 422 NO_FEASIBLE_ROUTE).

(** Lines 684-686: [for leg, fr in zip(new_legs, friction_results)]. *)
Definition apply_friction (st : Store) (rxs : list (ref * (Q * FrictionLevel))) : Store :=
  foldl (fun st rf => upd_leg (set_friction rf.2.1 rf.2.2) rf.1 st) st rxs.

(** The values of the new legs once their friction fields are filled. *)
Definition score_legs (vs : list Leg) (xs : list (Q * FrictionLevel)) : list Leg :=
  zip_with (fun v x => set_friction x.1 x.2 v) vs xs.

(** Lines 681-686, step 5.5: the new [Leg] instances, scored. *)
Definition score_new_legs (W : World) (leg_values : list Leg) : M (list ref) :=
  new_legs <- run_alloc (alloc_legs leg_values);;
  modify (log_call (CallPredictFriction (length leg_values)));;;
  modify (fun st => apply_friction st (zip new_legs (predict_friction W leg_values)));;;
  ret new_legs.

(** [x] or the exception [e]. *)
Definition or_raise {A} (e : PyExn) (x : option A) : Res A :=
  match x with
  | Some a => Ok a
  | None => Raise e
  end.

(** Lines 693-730, step 6: the diff against the itinerary of the request
    and the new ETA.  The new ETA is computed first (line 705), then its
    distance to the old one (line 706). *)
Definition compute_diff (W : World) (st : Store) (old_itin : ref) (s : LoopState)
           (new_legs : list ref) (total_new_cost total_new_duration : Z)
  : Res (ItineraryDiff * string) :=
  let old := get_itin st old_itin in
  let old_legs := get_leg st <$> legs old in
  let legs_now := get_leg st <$> new_legs in
  new_eta <~ or_raise OverflowError (eta_after W total_new_duration);
  eta_delta_sec <~ or_raise TypeError (eta_delta W total_new_duration (projectedETA old));
  Ok (mkDiff (get_stop st <$> dropped_stops s)
             (truly_new_legs old_legs legs_now)
             (changed_legs old_legs legs_now)
             (total_new_cost - totalCost old)
             eta_delta_sec,
      new_eta).

(** Lines 740-754, step 7: the new itinerary object. *)
Definition emit_itinerary (itin : ref) (s : LoopState) (new_legs : list ref)
           (total_new_cost : Z) (new_eta : string) : M ref :=
  new_itin <- run_alloc (fun st => model_copy_deep st itin);;
  modify (fun st =>
            upd_itin (set_header (version (get_itin st new_itin) + 1) new_legs
                                 total_new_cost new_eta
                                 REPLANNING) new_itin st);;;
  modify (fun st =>
            for_each_stop (reflect_drop (get_stop st <$> dropped_stops s))
                          (stops (get_itin st new_itin)) st);;;
  ret new_itin.

(** Lines 653-790: legs, friction, diff, the new itinerary, the answer. *)
Definition assemble (W : World) (old_itin itin : ref) (leg_details : LegDetails)
           (s : LoopState) : M ReplanResult :=
  st <- get_store;;
  let route := default [] (route_indices s) in
  leg_values <- lift (build_legs st (get_itin st itin) s leg_details route);;
  let total_new_cost := sumZ (costCents <$> leg_values) in
  let total_new_duration := sumZ (durationSec <$> leg_values) in
  new_legs <- score_new_legs W leg_values;;
  st <- get_store;;
  step6 <- lift (compute_diff W st old_itin s new_legs total_new_cost
                              total_new_duration);;
  let diff := step6.1 in
  new_itin <- emit_itinerary itin s new_legs total_new_cost step6.2;;
  st <- get_store;;
  ret (mkResult (model_dump st new_itin) diff
                (mkMeta (if truthy_route (route_indices s) then "OR_TOOLS" else "GREEDY")
                        (Z.of_nat (length (dropped_stops s)))
                        (version (get_itin st new_itin)))).

Definition is_demo_bypass (W : World) (it : Itinerary) (event : DisruptionEvent) : bool :=
  String.eqb (itin_id it) (DEMO_SESSION W)
  && bool_decide (event_type event = LINE_CANCELLATION).

Definition replan_itinerary (W : World) (req : ReplanRequest) : M ReplanResult :=
  itin <- run_alloc (fun st => model_copy_deep st (itinerary req));;
  let event := disruption req in
  let old_itin := itinerary req in
  st <- get_store;;
  if is_demo_bypass W (get_itin st itin) event
  then hardcoded_maya_replan itin
  else
    r <- solve_stage W itin event;;
    assemble W old_itin itin r.1 r.2.

(** ** The specification's reading of step 1 for [TRANSIT_DELAY]

    Follows the words of the specification, not the code: every leg of an
    affected mode gets the delay added, and exactly the legs of an
    affected route become unavailable. *)
Definition transit_delay_as_specified (st : Store) (itin : ref)
           (event : DisruptionEvent) : Prop :=
  forall r d,
    r ∈ legs (get_itin st itin) ->
    delayMinutes event = Some d ->
    let before := get_leg st r in
    let after := get_leg (apply_disruption st itin event) r in
    (str_in (mode_str (mode before)) (default [] (affectedModes event)) = true ->
     durationSec after = durationSec before + d * 60) /\
    (available after = false <->
     str_in (route_key before) (default [] (affectedRoutes event)) = true).

(** ** The specification's reading of the greedy fallback *)

(** [m[i][j]] where the indices are known to be in range. *)
Definition entry (m : Matrix) (i j : nat) : Z :=
  default 0 (m !! i ≫= fun row => row !! j).

(** Every integer that [solve_vrptw] hands to OR-Tools for [n] stops fits
    [int64]: the deadline, the entries of both matrices off the diagonal,
    the budget. *)
Definition ints_fit (n : nat) (cost_matrix time_matrix : Matrix)
           (budget_cents deadline_seconds : Z) : bool :=
  int64 deadline_seconds
  && forallb (fun e => int64 (entry time_matrix e.1 e.2)) (edges n)
  && forallb (fun e => int64 (entry cost_matrix e.1 e.2)) (edges n)
  && int64 budget_cents.

Section GreedySpec.
Variables (cost_matrix time_matrix : Matrix).
Variables (budget_cents deadline_seconds : Z) (num_stops : nat).

(** An unvisited index that keeps the running cost within the budget
    and the running time within the deadline. *)
Definition admissible (s : GreedyState) (j : nat) : Prop :=
  (j < num_stops)%nat
  /\ (j ∉ g_visited s)
  /\ g_cost s + entry cost_matrix (g_curr s) j <= budget_cents
  /\ g_time s + entry time_matrix (g_curr s) j <= deadline_seconds.

Definition extend (s : GreedyState) (j : nat) : GreedyState :=
  mkGreedy ({[j]} ∪ g_visited s) (g_route s ++ [j]) j
           (g_cost s + entry cost_matrix (g_curr s) j)
           (g_time s + entry time_matrix (g_curr s) j).

(** Repeated extension by an admissible index of minimum time. *)
Inductive greedy_path : GreedyState -> GreedyState -> Prop :=
| greedy_path_refl s : greedy_path s s
| greedy_path_step s j s' :
    admissible s j ->
    (forall j', admissible s j' ->
                entry time_matrix (g_curr s) j <= entry time_matrix (g_curr s) j') ->
    greedy_path (extend s j) s' ->
    greedy_path s s'.

(** Indices seen so far are indices of the matrices. *)
Definition greedy_inv (s : GreedyState) : Prop :=
  (g_curr s < num_stops)%nat /\ forall j, j ∈ g_visited s -> (j < num_stops)%nat.

(** The closing edge back to the start fits budget and deadline. *)
Definition closing_edge_fits (s : GreedyState) (start_index : nat) : bool :=
  (g_cost s + entry cost_matrix (g_curr s) start_index <=? budget_cents)
  && (g_time s + entry time_matrix (g_curr s) start_index <=? deadline_seconds).
End GreedySpec.

(** The fallback as the specification words it: the open path is
    returned as soon as every index has been visited. *)
Definition greedy_as_specified (cost_matrix time_matrix : Matrix)
           (budget_cents deadline_seconds : Z) (stops : list Stop) (start_index : nat)
  : Res (option (list nat)) :=
  let num_stops := length stops in
  r <~ greedy_loop cost_matrix time_matrix budget_cents deadline_seconds
         num_stops num_stops (mkGreedy {[start_index]} [start_index] start_index 0 0);
  Ok (g_route <$> r).

(** ** Auxiliary notions for the solver loop *)

(** The state with which the loop goes round again after dropping the
    stop at [idx]. *)
Definition after_drop (s : LoopState) (idx : nat) (route : option (list nat)) : LoopState :=
  mkLoop (delete idx (stops_to_route s)) (shrink idx (c_mx s)) (shrink idx (t_mx s))
         (dropped_stops s ++ [stops_to_route s !!! idx]) route.

(** The consecutive pairs of a route, and what they cost together. *)
Definition route_edges (route : list nat) : list (nat * nat) := zip route (tail route).

Definition path_cost (m : Matrix) (route : list nat) : Z :=
  sumZ ((fun e => entry m e.1 e.2) <$> route_edges route).

(** A walk along edges of [x] that starts at [start_index] and passes no
    node twice. *)
Definition walk_ok (x : nat -> nat -> bool) (n start_index : nat) (route : list nat)
  : Prop :=
  head route = Some start_index
  /\ NoDup route
  /\ Forall (fun i => (i < n)%nat) route
  /\ forall e, e ∈ route_edges route -> x e.1 e.2 = true /\ e.1 <> e.2.

(** The budget sum of the model: the costs of the chosen edges. *)
Definition chosen_cost (a : Assignment) (w : nat * nat -> Z) (es : list (nat * nat)) : Z :=
  sumZ ((fun e => if lit_true a e then w e else 0) <$> es).

(** Every entry of the matrix is non-negative. *)
Definition nonneg (m : Matrix) : Prop := Forall (Forall (fun v => 0 <= v)) m.



(** ** Which stops are routed, and which the loop drops *)

(** What step 1 does to one stop. *)
Definition step1_stop (event : DisruptionEvent) (s : Stop) : Stop :=
  match event_type event with
  | VENUE_CLOSED =>
      if truthy_str (affectedStopId event)
      then close_stop event (default ""%string (affectedStopId event)) s
      else s
  | _ => s
  end.

(** A stop of the request that step 2 selects for routing. *)
Definition routable (event : DisruptionEvent) (s : Stop) : bool :=
  bool_decide (stop_status (step1_stop event s) = PENDING).

(** The stops of the request, as values. *)
Definition request_stops (st : Store) (req : ReplanRequest) : list Stop :=
  get_stop st <$> stops (get_itin st (itinerary req)).



(** ** The specification's reading of the answer *)

(** Version and status of every successful answer, as specified. *)
Definition version_status_as_specified (W : World) (req : ReplanRequest) (st : Store)
  : Prop :=
  forall st' r,
    replan_itinerary W req st = (st', Ok r) ->
    d_version (res_itinerary r) = version (get_itin st (itinerary req)) + 1
    /\ d_status (res_itinerary r) = REPLANNING.



(** ** Concrete inputs used by the examples *)

Module Ex.
Definition user0 : UserConstraints := mkUser 5 "2030-01-01T00:00:00Z" [TRANSIT; WALKING].

Definition stop (i : string) (p : StopPriority) : Stop :=
  mkStop i i 0%Q 0%Q p PENDING None.

Definition transit_leg : Leg :=
  mkLeg "stop-0" "stop-1" TRANSIT 300 600 true None None None.

(** One itinerary [stop-0 -> stop-1] with a single transit leg. *)
(** Two stops five cents apart in each direction. *)
Definition cost2 : Matrix := [[0; 5]; [5; 0]].
Definition time2 : Matrix := [[0; 1]; [1; 0]].
Definition two_stops : list Stop := [stop "stop-0" MUST_VISIT; stop "stop-1" MUST_VISIT].

Definition st_delay : Store :=
  mkStore [stop "stop-0" MUST_VISIT; stop "stop-1" MUST_VISIT] [transit_leg]
          [mkItin "itin-test-001" 1 user0 [0; 1]%nat [0%nat] 300 "eta" ACTIVE] [].

Definition ev_delay : DisruptionEvent :=
  mkEvent "evt-001" TRANSIT_DELAY MAJOR None (Some ["TRANSIT"%string]) None (Some 15)
          "now" DEMO_INJECT.

(** A world in which CP-SAT never finds anything within its second,
    the deadline is 100 s away, and every directions call answers one
    cent and one second, except towards or from a stop at index 2 or
    beyond, which costs a hundred cents. *)
Definition far (i j : nat) : bool := (2 <=? i)%nat || (2 <=? j)%nat.

Definition world : World :=
  mkWorld "demo-maya-001"
          (fun i j _ _ _ => mkLegData (if far i j then 100 else 1) 1 "" true)
          (fun _ => None)
          (fun _ => SecondsLeft 100)
          (fun _ => Some "eta'"%string)
          (fun _ _ => Some 0)
          (fun _ => 0.1%Q).

(** A search over the round trips of two stops from stop 0: it tries
    the arrival times 0 to 100 at stop 1 and answers the first assignment
    that satisfies the model, if there is one. *)
Definition trip2 (t1 : Z) : Assignment :=
  mkAssignment (fun i j => negb (i =? j)%nat) (fun i => if (i =? 1)%nat then t1 else 0).
Definition search2 (m : CpModel) : option Assignment :=
  find (fun a => feasible a m) (trip2 <$> (Z.of_nat <$> seq 0 101)).

(** Two stops between which travel takes no time. *)
Definition time0 : Matrix := [[0; 0]; [0; 0]].

(** [world] with [search2] in place of the search that finds nothing. *)
Definition world_search : World :=
  mkWorld (DEMO_SESSION world) (fetch_directions world) search2 (seconds_until world)
          (eta_after world) (eta_delta world) (friction_raw world).

Definition ev_weather : DisruptionEvent :=
  mkEvent "evt-003" WEATHER MINOR None None None None "now" DEMO_INJECT.

(** Two pending stops, budget 5. *)
Definition st_two : Store :=
  mkStore two_stops [transit_leg]
          [mkItin "itin-test-001" 1 user0 [0; 1]%nat [0%nat] 300 "eta" ACTIVE] [].

(** Three pending stops, the first one [NICE_TO_HAVE], budget 5. *)
Definition st_three : Store :=
  mkStore [stop "stop-0" NICE_TO_HAVE; stop "stop-1" MUST_VISIT; stop "stop-2" MUST_VISIT]
          [transit_leg]
          [mkItin "itin-test-001" 1 user0 [0; 1; 2]%nat [0%nat] 300 "eta" ACTIVE] [].

(** Four pending stops, the third one [NICE_TO_HAVE], budget 5. *)
Definition st_four : Store :=
  mkStore [stop "stop-0" MUST_VISIT; stop "stop-1" MUST_VISIT;
           stop "stop-2" NICE_TO_HAVE; stop "stop-3" MUST_VISIT]
          [transit_leg]
          [mkItin "itin-test-001" 1 user0 [0; 1; 2; 3]%nat [0%nat] 300 "eta" ACTIVE] [].

(** The demo session with a budget of 100 cents. *)
Definition st_demo : Store :=
  mkStore [stop "home" MUST_VISIT; stop "farmers-market" MUST_VISIT;
           stop "art-museum" MUST_VISIT; stop "rooftop-bar" NICE_TO_HAVE]
          [mkLeg "home" "farmers-market" WALKING 0 900 true None None None]
          [mkItin "demo-maya-001" 1 (mkUser 100 "2030-01-01T00:00:00Z" [TRANSIT])
                  [0; 1; 2; 3]%nat [0%nat] 750 "19:45" ACTIVE] [].

Definition ev_cancel : DisruptionEvent :=
  mkEvent "evt-drop-001" LINE_CANCELLATION CRITICAL None (Some ["TRANSIT"%string]) None None
          "now" DEMO_INJECT.

(** One completed stop and one pending stop. *)
Definition st_one_pending : Store :=
  mkStore [mkStop "stop-0" "stop-0" 0%Q 0%Q MUST_VISIT COMPLETED None;
           stop "stop-1" MUST_VISIT]
          [transit_leg]
          [mkItin "itin-test-001" 1 user0 [0; 1]%nat [0%nat] 300 "eta" ACTIVE] [].

(** [hash] of two interpreter processes, on the string the scorer
    hashes for the leg [home -> farmers-market]. *)
Definition hash_run1 (s : string) : Z := 4650.
Definition hash_run2 (s : string) : Z := 9160.
Definition maya_leg : Leg :=
  mkLeg "home" "farmers-market" EBIKE 250 600 true None None None.
End Ex.

(** * Further notions used by the properties below *)

#[global] Instance FrictionLevel_eq_dec : EqDecision FrictionLevel.
Proof. solve_decision. Defined.

(** The index of the original list that index [i] of the list without
    its element [idx] comes from. *)
Definition skip (idx i : nat) : nat := if decide (i < idx)%nat then i else S i.

(** What step 1 does to one leg of the itinerary. *)
Definition step1_leg (event : DisruptionEvent) (l : Leg) : Leg :=
  match event_type event with
  | TRANSIT_DELAY | LINE_CANCELLATION => disrupt_leg event l
  | VENUE_CLOSED =>
      if truthy_str (affectedStopId event)
      then close_leg (default ""%string (affectedStopId event)) l
      else l
  | WEATHER =>
      match severity event with
      | MAJOR | CRITICAL => weather_leg l
      | MINOR => l
      end
  end.

(** A leg that differs from [before] at most in having lost its
    availability. *)
Definition leg_only_disabled (before after : Leg) : Prop :=
  after = set_available (available after) before
  /\ (available after = true -> available before = true).

(** A stop that is as [before], or was pending and is now dropped with
    a reason that is not empty. *)
Definition stop_only_dropped (before after : Stop) : Prop :=
  after = before
  \/ (stop_status before = PENDING
      /\ exists reason, reason <> ""%string /\ after = set_dropped (Some reason) before).

(** An event that names nothing to act on. *)
Definition no_target (event : DisruptionEvent) : Prop :=
  match event_type event with
  | TRANSIT_DELAY | LINE_CANCELLATION =>
      default [] (affectedModes event) = [] /\ default [] (affectedRoutes event) = []
  | VENUE_CLOSED => truthy_str (affectedStopId event) = false
  | WEATHER => severity event = MINOR
  end.

(** Directions always take some time. *)
Definition durations_positive (W : World) : Prop :=
  forall i j origin dest mode, 0 < ld_durationSec (fetch_directions W i j origin dest mode).


(** Going back to index 0 takes time from each of the first [n] other
    indices. *)
Definition returns_positive (n : nat) (m : Matrix) : Prop :=
  forall i, (0 < i < n)%nat -> 0 < entry m i 0.

(** What every round of the drop loop keeps true.  [sta] is the store,
    [active] the routing set, [already] the stops collected as dropped
    and [cm], [tm] the matrices when the loop starts. *)
Definition loop_inv (sta : Store) (active already : list ref) (cm tm : Matrix)
           (s : LoopState) (st : Store) : Prop :=
  square (length (stops_to_route s)) (c_mx s)
  /\ square (length (stops_to_route s)) (t_mx s)
  /\ Forall (fun r => r ∈ active /\ (r < length (stop_heap st))%nat) (stops_to_route s)
  /\ head (stops_to_route s) = head active
  /\ Forall (fun r => stop_status (get_stop st r) = DROPPED
                      /\ truthy_str (dropReason (get_stop st r)) = true)
            (dropped_stops s)
  /\ (forall r, stop_only_dropped (get_stop sta r) (get_stop st r))
  /\ length (stop_heap st) = length (stop_heap sta)
  /\ leg_heap st = leg_heap sta
  /\ itin_heap st = itin_heap sta
  /\ (forall r, r ∈ active ->
                r ∈ stops_to_route s \/ stop_status (get_stop st r) = DROPPED)
  /\ (nonneg cm -> nonneg (c_mx s))
  /\ (returns_positive (length active) tm ->
      returns_positive (length (stops_to_route s)) (t_mx s))
  /\ (exists dropped, dropped_stops s = already ++ dropped).

(** The leg lines 658-677 build for the consecutive pair [e] of the
    route, when the indices are in range. *)
Definition leg_of (st : Store) (itin : Itinerary) (s : LoopState)
           (leg_details : LegDetails) (e : nat * nat) : Leg :=
  mkLeg (stop_id (get_stop st (stops_to_route s !!! e.1)))
        (stop_id (get_stop st (stops_to_route s !!! e.2)))
        (match leg_details !! e with
         | Some (_, m) => m
         | None => hd WALKING (preferredModes (user itin))
         end)
        (entry (c_mx s) e.1 e.2) (entry (t_mx s) e.1 e.2) true
        (Some (match leg_details !! e with
               | Some (d, _) => ld_polyline d
               | None => ""%string
               end))
        None None.

(** The answer of the pipeline in terms of what steps 1 to 6 arrive at:
    [old] is the itinerary of the request and [old_legs] its legs,
    [working_stops] the stops of the working copy, [ds] the dropped
    stops collected, [vs] the legs built from the route, [eta] the new
    ETA and [delta] its distance to the old one. *)
Definition pipeline_answer (W : World) (old : Itinerary) (old_legs : list Leg)
           (working_stops ds : list Stop) (vs : list Leg) (eta : string) (delta : Z)
  : ReplanResult :=
  let scored := score_legs vs (predict_friction W vs) in
  let total_cost := sumZ (costCents <$> vs) in
  mkResult
    (mkDump (itin_id old) (version old + 1) (user old)
            (reflect_drop ds <$> working_stops) scored total_cost eta REPLANNING)
    (mkDiff ds (truly_new_legs old_legs scored) (changed_legs old_legs scored)
            (total_cost - totalCost old) delta)
    (mkMeta "OR_TOOLS" (Z.of_nat (length ds)) (version old + 1)).

(** The answer of the demo bypass in terms of the request: [old] is its
    itinerary, [stop_values] its stops and [legs] what [maya_legs]
    arrives at. *)
Definition demo_answer (old : Itinerary) (stop_values : list Stop) (legs : list Leg)
  : ReplanResult :=
  let total_cost := sumZ (costCents <$> legs) in
  mkResult
    (mkDump (itin_id old) (version old + 1) (user old) (maya_stop <$> stop_values)
            legs total_cost "19:50" ACTIVE)
    (mkDiff (filter (fun s => String.eqb (stop_id s) "rooftop-bar" = true)
                    (maya_stop <$> stop_values))
            [ebike_leg; rideshare_leg] [] (total_cost - totalCost old) 5)
    (mkMeta "DEMO_HARDCODED" 1 (version old + 1)).

(** A stop that keeps its identity, place and priority, and either is
    as [before] or is dropped with a reason. *)
Definition stop_kept (before after : Stop) : Prop :=
  stop_id after = stop_id before
  /\ stop_name after = stop_name before
  /\ lat after = lat before
  /\ lng after = lng before
  /\ priority after = priority before
  /\ (after = before
      \/ (stop_status after = DROPPED /\ truthy_str (dropReason after) = true)).

(** The route of the greedy fallback lists what has been visited, once
    each, and ends at the current index. *)
Definition route_tracks (s : GreedyState) : Prop :=
  g_visited s = list_to_set (g_route s)
  /\ NoDup (g_route s)
  /\ last (g_route s) = Some (g_curr s).

(** The model [build_model] arrives at when every matrix entry it reads
    exists. *)
Definition vrptw_model (n : nat) (cost_matrix time_matrix : Matrix)
           (budget_cents deadline_seconds : Z) (start_index : nat) : CpModel :=
  mkModel (edges n) (replicate n (0, deadline_seconds))
          (flow_constraints n
             ++ [AddEq start_index 0]
             ++ ((fun e => AddGeOnlyIf e.2 e.1 (entry time_matrix e.1 e.2) e) <$> edges n)
             ++ [AddLinearLe ((fun e => (e, entry cost_matrix e.1 e.2)) <$> edges n)
                             budget_cents])
          ((fun e => (e, entry time_matrix e.1 e.2)) <$> edges n).

(** ** Further concrete inputs *)

Module Ex2.
(** Three stops; going on from stop 0 is free and takes no time. *)
Definition cost3 : Matrix := [[0; 1; 2]; [1; 0; 1]; [2; 1; 0]].
Definition time3 : Matrix := [[0; 1; 2]; [1; 0; 1]; [2; 1; 0]].
Definition three_stops : list Stop :=
  [Ex.stop "stop-0" MUST_VISIT; Ex.stop "stop-1" MUST_VISIT; Ex.stop "stop-2" NICE_TO_HAVE].

(** Two stops between which travel is free and takes no time, and a
    search that answers the round trip [0 -> 1 -> 0]. *)
Definition zero2 : Matrix := [[0; 0]; [0; 0]].
Definition round_trip : Assignment :=
  mkAssignment (fun i j => negb (i =? j)%nat) (fun _ => 0).
Definition cp_round_trip (m : CpModel) : option Assignment :=
  if feasible round_trip m then Some round_trip else None.

(** An itinerary [home -> cafe -> park] with a walking and a transit leg. *)
Definition st_trip : Store :=
  mkStore [Ex.stop "home" MUST_VISIT; Ex.stop "cafe" NICE_TO_HAVE; Ex.stop "park" MUST_VISIT]
          [mkLeg "home" "cafe" WALKING 0 600 true None None None;
           mkLeg "cafe" "park" TRANSIT 250 300 true None None None]
          [mkItin "trip-1" 1 (mkUser 1000 "2030-01-01T00:00:00Z" [WALKING])
                  [0; 1; 2]%nat [0; 1]%nat 250 "eta" ACTIVE] [].

Definition ev_line : DisruptionEvent :=
  mkEvent "evt-010" LINE_CANCELLATION MAJOR None (Some ["TRANSIT"%string]) None (Some 10)
          "now" LIVE_API.
Definition ev_venue : DisruptionEvent :=
  mkEvent "evt-011" VENUE_CLOSED MAJOR None None (Some "cafe"%string) None "now" LIVE_API.
Definition ev_storm : DisruptionEvent :=
  mkEvent "evt-012" WEATHER CRITICAL None None None None "now" LIVE_API.
Definition ev_empty : DisruptionEvent :=
  mkEvent "evt-013" LINE_CANCELLATION MAJOR None None None None "now" LIVE_API.






End Ex2.

(** * Properties *)

(** ** The store *)

Section StoreLemmas.
Implicit Types (st : Store) (r : ref).

Lemma get_leg_upd_eq f r st :
  (r < length (leg_heap st))%nat ->
  get_leg (upd_leg f r st) r = f (get_leg st r).
Proof.
  intros Hr. unfold get_leg, upd_leg; simpl.
  destruct (lookup_lt_is_Some_2 _ _ Hr) as [x Hx].
  rewrite (list_lookup_total_correct _ _ _ Hx).
  apply list_lookup_total_correct.
  by rewrite list_lookup_alter_eq, Hx.
Qed.

Lemma get_leg_upd_ne f r r' st :
  r <> r' -> get_leg (upd_leg f r st) r' = get_leg st r'.
Proof.
  intros Hne. unfold get_leg, upd_leg; simpl.
  rewrite !list_lookup_total_alt. by rewrite list_lookup_alter_ne.
Qed.

Lemma leg_heap_length_upd f r st :
  length (leg_heap (upd_leg f r st)) = length (leg_heap st).
Proof. unfold upd_leg; simpl. apply length_alter. Qed.

Lemma for_each_leg_length f rs st :
  length (leg_heap (for_each_leg f rs st)) = length (leg_heap st).
Proof.
  revert st. induction rs as [|r rs IH]; intros st; simpl; [done|].
  unfold for_each_leg in *; simpl. rewrite IH. apply leg_heap_length_upd.
Qed.

Lemma for_each_leg_other f rs st r :
  r ∉ rs -> get_leg (for_each_leg f rs st) r = get_leg st r.
Proof.
  revert st. induction rs as [|r0 rs IH]; intros st Hnot; [done|].
  apply not_elem_of_cons in Hnot as [Hne Hnot].
  unfold for_each_leg in *; simpl. rewrite IH by done.
  by apply get_leg_upd_ne.
Qed.

(** A loop whose body is idempotent leaves [f leg] in every leg it
    visits, however often the list mentions it. *)
Lemma for_each_leg_idem f rs st r :
  (forall l, f (f l) = f l) ->
  r ∈ rs -> (r < length (leg_heap st))%nat ->
  get_leg (for_each_leg f rs st) r = f (get_leg st r).
Proof.
  intros Hidem. revert st.
  induction rs as [|r0 rs IH]; intros st Hin Hr; [by apply elem_of_nil in Hin|].
  unfold for_each_leg in *; simpl.
  destruct (decide (r ∈ rs)) as [Hrs|Hrs].
  - rewrite IH; [|done|by rewrite leg_heap_length_upd].
    destruct (decide (r0 = r)) as [->|Hne].
    + by rewrite get_leg_upd_eq, Hidem.
    + by rewrite get_leg_upd_ne.
  - apply elem_of_cons in Hin as [->|Hin]; [|done].
    fold (for_each_leg f rs (upd_leg f r0 st)).
    rewrite for_each_leg_other by done. by apply get_leg_upd_eq.
Qed.
End StoreLemmas.

(** ** Step 1 on a transit delay *)

Lemma str_in_nil x : str_in x [] = false.
Proof. done. Qed.

(** What the loop body does to one leg: the availability flag is cleared
    for an affected mode or an affected route, and nothing else moves.
    The delay of lines 153-155 is guarded by [leg.available], which line
    147 has just cleared for every leg of an affected mode. *)
Lemma disrupt_leg_spec event l :
  disrupt_leg event l =
  set_available (available l
                 && negb (str_in (mode_str (mode l)) (default [] (affectedModes event)))
                 && negb (str_in (route_key l) (default [] (affectedRoutes event)))) l.
Proof.
  unfold disrupt_leg.
  set (ms := default [] (affectedModes event)).
  set (rs := default [] (affectedRoutes event)).
  destruct l as [f t m c d a p fs fl]; simpl.
  destruct (str_in (mode_str m) ms) eqn:Hm; simpl.
  - unfold route_key; simpl.
    destruct (negb (bool_decide (rs = [])) && str_in (f ++ "->" ++ t) rs) eqn:Hr;
      simpl; rewrite ?Hm; simpl;
      destruct (bool_decide (event_type event = TRANSIT_DELAY) && truthy_int (delayMinutes event));
      unfold set_available; simpl; by rewrite andb_false_r.
  - unfold route_key; simpl.
    destruct (bool_decide (rs = [])) eqn:Hnil; simpl.
    + apply bool_decide_eq_true in Hnil. rewrite Hnil, str_in_nil. simpl.
      rewrite Hm; simpl. rewrite !andb_true_r.
      by destruct (bool_decide (event_type event = TRANSIT_DELAY) && truthy_int (delayMinutes event)).
    + destruct (str_in (f ++ "->" ++ t) rs) eqn:Hr; simpl; rewrite ?Hm; simpl;
        rewrite ?andb_true_r, ?andb_false_r;
        by destruct (bool_decide (event_type event = TRANSIT_DELAY) && truthy_int (delayMinutes event)).
Qed.

Lemma disrupt_leg_idem event l :
  disrupt_leg event (disrupt_leg event l) = disrupt_leg event l.
Proof.
  rewrite !disrupt_leg_spec. destruct l as [f t m c d a p fs fl].
  unfold set_available, route_key; simpl. f_equal.
  by destruct a, (str_in (mode_str m) _), (str_in (f ++ "->" ++ t) _).
Qed.

(** C1 (amended).  On a [TRANSIT_DELAY] event, step 1 leaves a leg of the
    itinerary unavailable exactly when it was unavailable already, or its
    mode is in [affectedModes], or its route key is in [affectedRoutes];
    endpoints, mode and cost are untouched, and a leg whose mode is not
    in [affectedModes] keeps its duration. *)
Theorem transit_delay_marks_modes_and_routes st itin event r :
  wf_itin st itin ->
  event_type event = TRANSIT_DELAY ->
  r ∈ legs (get_itin st itin) ->
  let before := get_leg st r in
  let after := get_leg (apply_disruption st itin event) r in
  (available after = false <->
     available before = false
     \/ str_in (mode_str (mode before)) (default [] (affectedModes event)) = true
     \/ str_in (route_key before) (default [] (affectedRoutes event)) = true)
  /\ (str_in (mode_str (mode before)) (default [] (affectedModes event)) = false ->
      durationSec after = durationSec before)
  /\ fromStopId after = fromStopId before
  /\ toStopId after = toStopId before
  /\ mode after = mode before
  /\ costCents after = costCents before.
Proof.
  intros (_ & _ & Hlegs) Hty Hin. simpl.
  unfold apply_disruption. rewrite Hty.
  rewrite for_each_leg_idem; [|apply disrupt_leg_idem|done|].
  2:{ rewrite Forall_forall in Hlegs. by apply Hlegs. }
  rewrite disrupt_leg_spec. simpl.
  repeat split; try done.
  - intros H. apply andb_false_iff in H as [H|H].
    + apply andb_false_iff in H as [H|H]; [by left|].
      right; left. by apply negb_false_iff.
    + right; right. by apply negb_false_iff.
  - intros [H|[H|H]]; rewrite H; simpl; by rewrite ?andb_false_r.
Qed.

Lemma transit_delay_marks_modes_and_routes_witness :
  available (get_leg (apply_disruption Ex.st_delay 0%nat Ex.ev_delay) 0%nat) = false
  <-> (available (get_leg Ex.st_delay 0%nat) = false
       \/ str_in "TRANSIT" ["TRANSIT"%string] = true
       \/ str_in "stop-0->stop-1" [] = true).
Proof.
  refine (proj1 (transit_delay_marks_modes_and_routes
                   Ex.st_delay 0%nat Ex.ev_delay 0%nat _ _ _)).
  - repeat split; simpl; repeat constructor.
  - reflexivity.
  - simpl. apply list_elem_of_here.
Defined.

(** C1 (as stated) fails: with [affectedModes = ["TRANSIT"]] and
    [delayMinutes = 15], the transit leg of 600 s is made unavailable
    and is still 600 s long afterwards. *)
Lemma transit_delay_as_specified_fails :
  ~ transit_delay_as_specified Ex.st_delay 0%nat Ex.ev_delay.
Proof.
  intros H.
  destruct (H 0%nat 15) as [Hdur _]; [apply list_elem_of_here|reflexivity|].
  specialize (Hdur eq_refl). vm_compute in Hdur. discriminate Hdur.
Qed.

(** ** Matrices *)

Lemma mx_get_entry n m i j :
  square n m -> (i < n)%nat -> (j < n)%nat -> mx_get m i j = Ok (entry m i j).
Proof.
  intros [Hlen Hrows] Hi Hj. unfold mx_get, entry.
  destruct (lookup_lt_is_Some_2 m i) as [row Hrow]; [lia|].
  rewrite Hrow; simpl.
  assert (length row = n) as Hr.
  { rewrite Forall_forall in Hrows. apply Hrows. by eapply list_elem_of_lookup_2. }
  destruct (lookup_lt_is_Some_2 row j) as [v Hv]; [lia|].
  by rewrite Hv.
Qed.

(** ** The greedy fallback *)

Section GreedyLemmas.
Variables (cost_matrix time_matrix : Matrix).
Variables (budget_cents deadline_seconds : Z) (n : nat).
Hypothesis Hcost : square n cost_matrix.
Hypothesis Htime : square n time_matrix.

Local Abbreviation adm := (admissible cost_matrix time_matrix budget_cents deadline_seconds n).
Local Abbreviation scan := (scan_candidates cost_matrix time_matrix budget_cents deadline_seconds).
Local Abbreviation tm := (entry time_matrix).

(** The inner loop keeps in [best] an admissible index of least time
    among those scanned, the earliest one on ties. *)
Lemma scan_candidates_spec s js best :
  (g_curr s < n)%nat ->
  Forall (fun j => (j < n)%nat) js ->
  exists r,
    scan (g_visited s) (g_curr s) (g_cost s) (g_time s) js best = Ok r /\
    match r with
    | None => best = None /\ forall j, j ∈ js -> ~ adm s j
    | Some (j, t) =>
        (Some (j, t) = best \/ (j ∈ js /\ adm s j /\ t = tm (g_curr s) j))
        /\ (forall j', j' ∈ js -> adm s j' -> t <= tm (g_curr s) j')
        /\ (forall bj bt, best = Some (bj, bt) -> t <= bt)
    end.
Proof.
  intros Hcurr Hjs. revert best.
  induction Hjs as [|j js Hj Hjs IH]; intros best.
  - exists best. split; [done|]. destruct best as [[bj bt]|].
    + split; [by left|]. split; [by intros ? ?%elem_of_nil|].
      intros ?? [= _ <-]. lia.
    + split; [done|]. by intros ? ?%elem_of_nil.
  - assert (forall b, (exists r,
        scan (g_visited s) (g_curr s) (g_cost s) (g_time s) js b = Ok r /\
        match r with
        | None => b = None /\ forall j, j ∈ js -> ~ adm s j
        | Some (j, t) =>
            (Some (j, t) = b \/ (j ∈ js /\ adm s j /\ t = tm (g_curr s) j))
            /\ (forall j', j' ∈ js -> adm s j' -> t <= tm (g_curr s) j')
            /\ (forall bj bt, b = Some (bj, bt) -> t <= bt)
        end)) as IH' by (intros b; apply IH).
    clear IH. simpl.
    (* the cases in which [j] is passed over *)
    assert (~ adm s j -> exists r,
        scan (g_visited s) (g_curr s) (g_cost s) (g_time s) js best = Ok r /\
        match r with
        | None => best = None /\ forall j0, j0 ∈ j :: js -> ~ adm s j0
        | Some (j0, t) =>
            (Some (j0, t) = best \/ (j0 ∈ j :: js /\ adm s j0 /\ t = tm (g_curr s) j0))
            /\ (forall j', j' ∈ j :: js -> adm s j' -> t <= tm (g_curr s) j')
            /\ (forall bj bt, best = Some (bj, bt) -> t <= bt)
        end) as Hskip.
    { intros Hnadm. destruct (IH' best) as (r & Hr & Hspec). exists r. split; [done|].
      destruct r as [[j0 t]|].
      - destruct Hspec as (Hsrc & Hmin & Hbest). repeat split.
        + destruct Hsrc as [?|(? & ? & ?)]; [by left|right].
          split; [by apply list_elem_of_further|done].
        + intros j' [->|Hin]%elem_of_cons Hadm; [done|by apply Hmin].
        + done.
      - destruct Hspec as [Hb Hnone]. split; [done|].
        intros j0 [->|Hin]%elem_of_cons; [done|by apply Hnone]. }
    destruct (bool_decide (j ∈ g_visited s)) eqn:Hvis.
    { apply Hskip. intros (_ & Hnin & _). by apply bool_decide_eq_true in Hvis. }
    apply bool_decide_eq_false in Hvis.
    rewrite (mx_get_entry n) by done. simpl.
    destruct (g_cost s + entry cost_matrix (g_curr s) j <=? budget_cents) eqn:Hc;
      [|apply Hskip; intros (_ & _ & ? & _); apply Z.leb_gt in Hc; lia].
    rewrite (mx_get_entry n) by done. simpl.
    destruct (g_time s + tm (g_curr s) j <=? deadline_seconds) eqn:Ht;
      [|apply Hskip; intros (_ & _ & _ & ?); apply Z.leb_gt in Ht; lia].
    apply Z.leb_le in Hc, Ht.
    assert (adm s j) as Hadm by done.
    destruct (improves (tm (g_curr s) j) best) eqn:Himp.
    + destruct (IH' (Some (j, tm (g_curr s) j))) as (r & Hr & Hspec).
      exists r. split; [done|].
      destruct r as [[j0 t]|]; [|by destruct Hspec].
      destruct Hspec as (Hsrc & Hmin & Hbest).
      specialize (Hbest _ _ eq_refl). repeat split.
      * right. destruct Hsrc as [[= -> ->]|(? & ? & ?)].
        -- split; [apply list_elem_of_here|done].
        -- split; [by apply list_elem_of_further|done].
      * intros j' [->|Hin]%elem_of_cons Hadm'; [done|by apply Hmin].
      * intros bj bt ->. simpl in Himp. apply Z.ltb_lt in Himp. lia.
    + destruct best as [[bj bt]|]; [|done]. simpl in Himp. apply Z.ltb_ge in Himp.
      destruct (IH' (Some (bj, bt))) as (r & Hr & Hspec).
      exists r. split; [done|].
      destruct r as [[j0 t]|]; [|by destruct Hspec].
      destruct Hspec as (Hsrc & Hmin & Hbest).
      specialize (Hbest _ _ eq_refl). repeat split.
      * destruct Hsrc as [?|(? & ? & ?)]; [by left|right].
        split; [by apply list_elem_of_further|done].
      * intros j' [->|Hin]%elem_of_cons Hadm'; [lia|by apply Hmin].
      * intros ?? [= _ <-]. done.
Qed.
Local Abbreviation loop :=
  (greedy_loop cost_matrix time_matrix budget_cents deadline_seconds).
Local Abbreviation path :=
  (greedy_path cost_matrix time_matrix budget_cents deadline_seconds n).

Lemma greedy_loop_unfold fuel s :
  loop fuel n s =
  if (size (g_visited s) <? n)%nat then
    match fuel with
    | O => Diverge
    | S fuel' =>
        best <~ scan (g_visited s) (g_curr s) (g_cost s) (g_time s) (seq 0 n) None;
        match best with
        | None => Ok None
        | Some (best_j, _) =>
            c <~ mx_get cost_matrix (g_curr s) best_j;
            t <~ mx_get time_matrix (g_curr s) best_j;
            loop fuel' n
              (mkGreedy ({[best_j]} ∪ g_visited s) (g_route s ++ [best_j]) best_j
                        (g_cost s + c) (g_time s + t))
        end
    end
  else Ok (Some s).
Proof. by destruct fuel. Qed.

Lemma greedy_inv_size s : greedy_inv n s -> (size (g_visited s) <= n)%nat.
Proof.
  intros [_ Hvis].
  rewrite <- (size_set_seq (C:=gset nat) 0 n).
  apply subseteq_size. intros j Hj. apply elem_of_set_seq.
  specialize (Hvis j Hj). lia.
Qed.

Lemma greedy_inv_full s :
  greedy_inv n s -> (n <= size (g_visited s))%nat ->
  forall j, (j < n)%nat -> j ∈ g_visited s.
Proof.
  intros [_ Hvis] Hsz j Hj.
  assert (g_visited s = set_seq 0 n) as ->.
  { apply set_subseteq_size_eq.
    - intros i Hi. apply elem_of_set_seq. specialize (Hvis i Hi). lia.
    - by rewrite size_set_seq. }
  apply elem_of_set_seq. lia.
Qed.

(** The [while] loop never runs out of its [num_stops] rounds, never
    raises, and follows a path of minimum-time admissible extensions:
    it stops either stuck, or with every index visited. *)
Lemma greedy_loop_spec fuel s :
  greedy_inv n s ->
  (n <= size (g_visited s) + fuel)%nat ->
  exists s',
    path s s' /\ greedy_inv n s' /\
    ((loop fuel n s = Ok None
      /\ (size (g_visited s') < n)%nat /\ forall j, ~ adm s' j)
     \/ (loop fuel n s = Ok (Some s') /\ (n <= size (g_visited s'))%nat)).
Proof.
  revert s. induction fuel as [|fuel IH]; intros s Hinv Hfuel;
    rewrite greedy_loop_unfold;
    destruct (size (g_visited s) <? n)%nat eqn:Hsz;
    try (apply Nat.ltb_ge in Hsz; exists s;
         split; [constructor|]; split; [done|]; by right).
  - apply Nat.ltb_lt in Hsz. lia.
  - apply Nat.ltb_lt in Hsz.
    assert (Forall (fun j => (j < n)%nat) (seq 0 n)) as Hseq.
    { apply Forall_forall. intros j Hj%elem_of_seq. lia. }
    destruct (scan_candidates_spec s (seq 0 n) None (proj1 Hinv) Hseq)
      as (r & -> & Hspec).
    simpl. destruct r as [[j t]|].
    + destruct Hspec as ([[=]|(Hj & Hadm & ->)] & Hmin & _).
      pose proof Hadm as (Hjn & Hnin & _).
      pose proof (proj1 Hinv) as Hcurr.
      rewrite (mx_get_entry n) by done. simpl.
      rewrite (mx_get_entry n) by done. simpl.
      assert (greedy_inv n (extend cost_matrix time_matrix s j)) as Hinv1.
      { split; [done|]. simpl. intros i [->%elem_of_singleton|Hi]%elem_of_union; [done|].
        by apply Hinv. }
      assert (n <= size (g_visited (extend cost_matrix time_matrix s j)) + fuel)%nat
        as Hfuel1.
      { simpl. rewrite size_union by (by apply disjoint_singleton_l).
        rewrite size_singleton. lia. }
      destruct (IH _ Hinv1 Hfuel1) as (s' & Hp & Hinv' & Hres).
      exists s'. split; [|done].
      eapply greedy_path_step; [exact Hadm| |exact Hp].
      intros j' Hadm'. apply Hmin; [|done].
      apply elem_of_seq. destruct Hadm'. lia.
    + exists s. split; [constructor|]. split; [done|]. left.
      split; [done|]. split; [done|].
      intros j Hadm. destruct Hspec as [_ Hnone]. apply (Hnone j); [|done].
      apply elem_of_seq. destruct Hadm. lia.
Qed.

Lemma closing_fits_entry s start_index :
  greedy_inv n s -> (start_index < n)%nat ->
  closing_fits cost_matrix time_matrix budget_cents deadline_seconds s start_index
  = Ok (closing_edge_fits cost_matrix time_matrix budget_cents deadline_seconds
                          s start_index).
Proof.
  intros [Hcurr _] Hstart. unfold closing_fits, closing_edge_fits.
  rewrite (mx_get_entry n) by done. simpl.
  destruct (_ <=? budget_cents); [|done].
  by rewrite (mx_get_entry n) by done.
Qed.
End GreedyLemmas.

(** C2 (amended).  With [n >= 2] stops and square matrices, the greedy
    fallback follows minimum-time admissible extensions from the start
    index.  It returns infeasible when it reaches a state with an
    unvisited index left and no admissible one, and also when it has
    visited every index but the closing edge back to the start exceeds
    the budget or the deadline; it returns the open path when every
    index has been visited and the closing edge fits. *)
Theorem greedy_fallback_needs_closing_edge
        cost_matrix time_matrix budget_cents deadline_seconds stops start_index :
  let n := length stops in
  let run := greedy_fallback cost_matrix time_matrix budget_cents deadline_seconds
                             stops start_index in
  (2 <= n)%nat ->
  square n cost_matrix ->
  square n time_matrix ->
  (start_index < n)%nat ->
  exists s,
    greedy_path cost_matrix time_matrix budget_cents deadline_seconds n
                (mkGreedy {[start_index]} [start_index] start_index 0 0) s
    /\ (((size (g_visited s) < n)%nat
         /\ (forall j, ~ admissible cost_matrix time_matrix budget_cents
                                   deadline_seconds n s j)
         /\ run = Ok None)
        \/ ((forall j, (j < n)%nat -> j ∈ g_visited s)
            /\ run = Ok (if closing_edge_fits cost_matrix time_matrix budget_cents
                                              deadline_seconds s start_index
                         then Some (g_route s) else None))).
Proof.
  intros n run Hn Hc Ht Hstart.
  set (s0 := mkGreedy {[start_index]} [start_index] start_index 0 0).
  assert (greedy_inv n s0) as Hinv0.
  { split; [done|]. simpl. by intros j ->%elem_of_singleton. }
  assert (n <= size (g_visited s0) + n)%nat as Hfuel0 by lia.
  destruct (greedy_loop_spec cost_matrix time_matrix budget_cents deadline_seconds
              n Hc Ht n s0 Hinv0 Hfuel0) as (s & Hpath & Hinv & Hres).
  subst s0.
  exists s. split; [done|].
  destruct Hres as [(Hrun & Hsz & Hstuck)|(Hrun & Hsz)].
  - left. split; [done|]. split; [done|].
    unfold run, greedy_fallback. fold n. by rewrite Hrun.
  - right. split; [by eapply greedy_inv_full|].
    unfold run, greedy_fallback. fold n. rewrite Hrun. simpl.
    rewrite (closing_fits_entry _ _ _ _ n) by done. simpl.
    by destruct (closing_edge_fits _ _ _ _ _ _).
Qed.

Lemma greedy_fallback_needs_closing_edge_witness :
  exists s,
    greedy_path Ex.cost2 Ex.time2 7 100 2
                (mkGreedy {[0%nat]} [0%nat] 0%nat 0 0) s
    /\ (((size (g_visited s) < 2)%nat
         /\ (forall j, ~ admissible Ex.cost2 Ex.time2 7 100 2 s j)
         /\ greedy_fallback Ex.cost2 Ex.time2 7 100 Ex.two_stops 0 = Ok None)
        \/ ((forall j, (j < 2)%nat -> j ∈ g_visited s)
            /\ greedy_fallback Ex.cost2 Ex.time2 7 100 Ex.two_stops 0
               = Ok (if closing_edge_fits Ex.cost2 Ex.time2 7 100 s 0
                     then Some (g_route s) else None))).
Proof.
  apply (greedy_fallback_needs_closing_edge Ex.cost2 Ex.time2 7 100 Ex.two_stops 0%nat).
  - simpl. lia.
  - split; [reflexivity|]. repeat constructor.
  - split; [reflexivity|]. repeat constructor.
  - simpl. lia.
Defined.

(** C2 (as stated) fails: with a budget of 7 the walk [0 -> 1] costs 5
    and visits every index, so the open path is [[0; 1]]; the code
    still answers infeasible, because the edge back to 0 would bring
    the cost to 10. *)
Lemma greedy_rejects_open_path :
  greedy_as_specified Ex.cost2 Ex.time2 7 100 Ex.two_stops 0 = Ok (Some [0; 1]%nat)
  /\ greedy_fallback Ex.cost2 Ex.time2 7 100 Ex.two_stops 0 = Ok None.
Proof. split; vm_compute; reflexivity. Qed.

(** ** The CP-SAT model of solve_vrptw *)

Lemma forallb_elem {A} (f : A -> bool) (l : list A) x :
  forallb f l = true -> x ∈ l -> f x = true.
Proof.
  intros H Hin. rewrite forallb_forall in H. apply H. by apply list_elem_of_In.
Qed.

Lemma res_mapM_ok {A B} (f : A -> Res B) (g : A -> B) (l : list A) :
  (forall a, a ∈ l -> f a = Ok (g a)) -> res_mapM f l = Ok (g <$> l).
Proof.
  induction l as [|a l IH]; intros Hf; [done|]. simpl.
  rewrite Hf by apply list_elem_of_here. simpl.
  rewrite IH; [done|]. intros b Hb. apply Hf. by apply list_elem_of_further.
Qed.

(** A list of matrix entries, each checked for [int64] as it is read. *)
Lemma res_mapM_int64 {B} (v : nat -> nat -> Z)
      (g : nat * nat -> Z -> B) (l : list (nat * nat)) (m : Matrix) :
  (forall e, e ∈ l -> mx_get m e.1 e.2 = Ok (v e.1 e.2)) ->
  res_mapM (fun e => d <~ mx_get m e.1 e.2; d <~ as_int64 d; Ok (g e d)) l
  = if forallb (fun e => int64 (v e.1 e.2)) l
    then Ok ((fun e => g e (v e.1 e.2)) <$> l)
    else Raise TypeError.
Proof.
  induction l as [|e l IH]; intros Hget; [done|]. simpl.
  rewrite Hget by apply list_elem_of_here. cbn [res_bind]. unfold as_int64 at 1.
  destruct (int64 (v e.1 e.2)); [|done]. cbn [res_bind andb].
  rewrite IH by (intros e' He'; apply Hget; by apply list_elem_of_further).
  by destruct (forallb _ l).
Qed.

Lemma elem_of_others n i j : j ∈ others n i <-> (j < n)%nat /\ i <> j.
Proof.
  unfold others. rewrite list_elem_of_filter, elem_of_seq. split; intros []; split; (done || lia).
Qed.

Lemma elem_of_edges n i j : (i, j) ∈ edges n <-> (i < n)%nat /\ (j < n)%nat /\ i <> j.
Proof.
  unfold edges. rewrite list_elem_of_bind. split.
  - intros (i' & Hin & Hi'). apply list_elem_of_fmap in Hin as (j' & [= -> ->] & Hj').
    apply elem_of_others in Hj' as []. apply elem_of_seq in Hi'. repeat split; (done || lia).
  - intros (Hi & Hj & Hne). exists i. split.
    + apply list_elem_of_fmap. exists j. split; [done|]. by apply elem_of_others.
    + apply elem_of_seq. lia.
Qed.

Section Model.
Variables (n : nat) (cost_matrix time_matrix : Matrix).
Variables (budget_cents deadline_seconds : Z) (start_index : nat).
Hypothesis Hcost : square n cost_matrix.
Hypothesis Htime : square n time_matrix.
Hypothesis Hstart : (start_index < n)%nat.

(** On square matrices no lookup of the model construction raises; the
    construction fails only on an integer that does not fit [int64]. *)
Lemma build_model_run :
  build_model n cost_matrix time_matrix budget_cents deadline_seconds start_index
  = if ints_fit n cost_matrix time_matrix budget_cents deadline_seconds
    then Ok (mkModel (edges n) (replicate n (0, deadline_seconds))
          (flow_constraints n
             ++ [AddEq start_index 0]
             ++ ((fun e => AddGeOnlyIf e.2 e.1 (entry time_matrix e.1 e.2) e) <$> edges n)
             ++ [AddLinearLe ((fun e => (e, entry cost_matrix e.1 e.2)) <$> edges n)
                             budget_cents])
          ((fun e => (e, entry time_matrix e.1 e.2)) <$> edges n))
    else Raise TypeError.
Proof.
  unfold build_model, ints_fit, start_constraint, time_constraints, weighted, as_int64 at 1.
  destruct (int64 deadline_seconds); [|done]. cbn [res_bind andb].
  apply Nat.ltb_lt in Hstart as ->. cbn [res_bind].
  rewrite (res_mapM_int64 (entry time_matrix) (fun e d => AddGeOnlyIf e.2 e.1 d e)).
  2:{ intros [i j] (Hi & Hj & _)%elem_of_edges. simpl.
      by rewrite (mx_get_entry n). }
  destruct (forallb (fun e => int64 (entry time_matrix e.1 e.2)) (edges n)) eqn:Htimes;
    [|done].
  cbn [res_bind andb].
  rewrite (res_mapM_int64 (entry cost_matrix) (fun e c => (e, c))).
  2:{ intros [i j] (Hi & Hj & _)%elem_of_edges. simpl.
      by rewrite (mx_get_entry n). }
  destruct (forallb (fun e => int64 (entry cost_matrix e.1 e.2)) (edges n)); [|done].
  cbn [res_bind andb]. unfold as_int64.
  destruct (int64 budget_cents); [|done]. cbn [res_bind].
  rewrite (res_mapM_int64 (entry time_matrix) (fun e c => (e, c))).
  2:{ intros [i j] (Hi & Hj & _)%elem_of_edges. simpl.
      by rewrite (mx_get_entry n). }
  by rewrite Htimes.
Qed.

Lemma build_model_ok :
  ints_fit n cost_matrix time_matrix budget_cents deadline_seconds = true ->
  build_model n cost_matrix time_matrix budget_cents deadline_seconds start_index
  = Ok (mkModel (edges n) (replicate n (0, deadline_seconds))
          (flow_constraints n
             ++ [AddEq start_index 0]
             ++ ((fun e => AddGeOnlyIf e.2 e.1 (entry time_matrix e.1 e.2) e) <$> edges n)
             ++ [AddLinearLe ((fun e => (e, entry cost_matrix e.1 e.2)) <$> edges n)
                             budget_cents])
          ((fun e => (e, entry time_matrix e.1 e.2)) <$> edges n)).
Proof. intros Hfit. by rewrite build_model_run, Hfit. Qed.

Variable a : Assignment.
Hypothesis Hfeasible :
  feasible a (mkModel (edges n) (replicate n (0, deadline_seconds))
          (flow_constraints n
             ++ [AddEq start_index 0]
             ++ ((fun e => AddGeOnlyIf e.2 e.1 (entry time_matrix e.1 e.2) e) <$> edges n)
             ++ [AddLinearLe ((fun e => (e, entry cost_matrix e.1 e.2)) <$> edges n)
                             budget_cents])
          ((fun e => (e, entry time_matrix e.1 e.2)) <$> edges n)) = true.

Lemma feasible_holds c :
  c ∈ flow_constraints n
        ++ [AddEq start_index 0]
        ++ ((fun e => AddGeOnlyIf e.2 e.1 (entry time_matrix e.1 e.2) e) <$> edges n)
        ++ [AddLinearLe ((fun e => (e, entry cost_matrix e.1 e.2)) <$> edges n)
                        budget_cents] ->
  holds a c = true.
Proof.
  intros Hc. unfold feasible in Hfeasible. apply andb_true_iff in Hfeasible as [_ H].
  by eapply forallb_elem.
Qed.

Lemma feasible_t_bounds i :
  (i < n)%nat -> 0 <= t_value a i <= deadline_seconds.
Proof.
  intros Hi. unfold feasible in Hfeasible. apply andb_true_iff in Hfeasible as [H _].
  unfold in_bounds in H; simpl in H.
  pose proof (forallb_elem _ _ (i, (0, deadline_seconds)) H) as Hb.
  simpl in Hb. 
  assert ((i, (0, deadline_seconds))
            ∈ imap (fun i b => (i, b)) (replicate n (0, deadline_seconds))) as Hin.
  { apply (elem_of_lookup_imap_2 (fun i b => (i, b))). by apply lookup_replicate_2. }
  specialize (Hb Hin). apply andb_true_iff in Hb as [?%Z.leb_le ?%Z.leb_le]. lia.
Qed.

Lemma feasible_t_start : t_value a start_index = 0.
Proof.
  assert (holds a (AddEq start_index 0) = true) as H.
  { apply feasible_holds. rewrite !elem_of_app. right; left. apply list_elem_of_here. }
  simpl in H. by apply Z.eqb_eq.
Qed.

Lemma feasible_precedence i j :
  (i < n)%nat -> (j < n)%nat -> i <> j -> x_value a i j = true ->
  t_value a i + entry time_matrix i j <= t_value a j.
Proof.
  intros Hi Hj Hne Hx.
  assert (holds a (AddGeOnlyIf j i (entry time_matrix i j) (i, j)) = true) as H.
  { apply feasible_holds. rewrite !elem_of_app. right; right; left.
    apply (list_elem_of_fmap_2 (fun e => AddGeOnlyIf e.2 e.1 (entry time_matrix e.1 e.2) e)
                               _ (i, j)).
    by apply elem_of_edges. }
  simpl in H. unfold lit_true in H; simpl in H. rewrite Hx in H. simpl in H.
  by apply Z.leb_le.
Qed.

Lemma exactly_one_exists (lits : list (nat * nat)) :
  holds a (AddExactlyOne lits) = true ->
  exists lit, lit ∈ lits /\ lit_true a lit = true.
Proof.
  simpl. intros H%Nat.eqb_eq.
  destruct (filter (fun lit => lit_true a lit = true) lits) as [|lit ?] eqn:Hf;
    [done|].
  assert (lit ∈ filter (fun lit => lit_true a lit = true) lits) as Hin
      by (rewrite Hf; apply list_elem_of_here).
  apply list_elem_of_filter in Hin as [? ?]. by exists lit.
Qed.

Lemma feasible_incoming i :
  (i < n)%nat -> exists j, (j < n)%nat /\ i <> j /\ x_value a j i = true.
Proof.
  intros Hi.
  assert (holds a (AddExactlyOne ((fun j => (j, i)) <$> others n i)) = true) as H.
  { apply feasible_holds. rewrite !elem_of_app. left.
    unfold flow_constraints. apply list_elem_of_bind. exists i. split.
    - apply list_elem_of_further, list_elem_of_here.
    - apply elem_of_seq. lia. }
  apply exactly_one_exists in H as (lit & Hin & Hx).
  apply list_elem_of_fmap in Hin as (j & -> & Hj). apply elem_of_others in Hj as [].
  by exists j.
Qed.

(** The edge entering the start node forces [t[start] >= t[j] + time],
    with [t[start] = 0] and [t[j] >= 0]. *)
Lemma feasible_return_time_nonpositive :
  exists j, (j < n)%nat /\ j <> start_index /\ entry time_matrix j start_index <= 0.
Proof.
  destruct (feasible_incoming start_index Hstart) as (j & Hj & Hne & Hx).
  exists j. split; [done|]. split; [done|].
  pose proof (feasible_precedence j start_index Hj Hstart (not_eq_sym Hne) Hx).
  pose proof (feasible_t_bounds j Hj). rewrite feasible_t_start in *. lia.
Qed.
End Model.

(** C10 (amended).  With [n >= 2] stops, square matrices, a start index
    in range, integers that fit [int64] and a strictly positive travel
    time from every other node to the start, no assignment satisfies the
    model of [solve_vrptw], so the function returns [None]; one step of
    the solver loop, which starts at index 0, then hands back exactly
    what the greedy fallback returns. *)
Theorem solve_vrptw_infeasible_on_positive_return_times
        (W : World) stops cost_matrix time_matrix budget_cents deadline_seconds
        start_index :
  let n := length stops in
  cp_sound (cp_solve W) ->
  (2 <= n)%nat ->
  square n cost_matrix ->
  square n time_matrix ->
  (start_index < n)%nat ->
  ints_fit n cost_matrix time_matrix budget_cents deadline_seconds = true ->
  (forall i, (i < n)%nat -> i <> start_index -> 0 < entry time_matrix i start_index) ->
  solve_vrptw (cp_solve W) stops cost_matrix time_matrix budget_cents deadline_seconds
              start_index = Ok None
  /\ (start_index = 0%nat ->
      forall st s,
        get_stop st <$> stops_to_route s = stops ->
        c_mx s = cost_matrix -> t_mx s = time_matrix ->
        (solve_step W budget_cents deadline_seconds s st).2
        = greedy_fallback cost_matrix time_matrix budget_cents deadline_seconds stops 0).
Proof.
  intros n Hsound Hn Hc Ht Hstart Hfit Hpos.
  assert (solve_vrptw (cp_solve W) stops cost_matrix time_matrix budget_cents
                      deadline_seconds start_index = Ok None) as Hnone.
  { unfold solve_vrptw. fold n.
    destruct (n <=? 1)%nat eqn:Hle; [apply Nat.leb_le in Hle; lia|].
    rewrite build_model_ok by done. simpl.
    destruct (cp_solve W _) as [a|] eqn:Hsolve; [|done].
    apply Hsound in Hsolve.
    destruct (feasible_return_time_nonpositive n cost_matrix time_matrix budget_cents
                deadline_seconds start_index Hstart a Hsolve) as (j & Hj & Hne & Hle0).
    specialize (Hpos j Hj Hne). lia. }
  split; [done|].
  intros -> st s Hstops Hcm Htm.
  unfold solve_step, bind, get_store, modify, lift, ret. simpl.
  rewrite Hstops, Hcm, Htm, Hnone. done.
Qed.

Lemma search2_sound : cp_sound Ex.search2.
Proof.
  intros m a Hm. unfold Ex.search2 in Hm. by apply find_some in Hm as [_ ?].
Qed.

(** The search of the example answers the round trip when going back
    takes no time, and finds nothing when it takes a second. *)
Lemma solve_vrptw_infeasible_on_positive_return_times_witness :
  solve_vrptw (cp_solve Ex.world_search) Ex.two_stops Ex.cost2 Ex.time0 10 100 0
  = Ok (Some [0; 1]%nat)
  /\ solve_vrptw (cp_solve Ex.world_search) Ex.two_stops Ex.cost2 Ex.time2 10 100 0
     = Ok None.
Proof.
  split; [vm_compute; reflexivity|].
  refine (proj1 (solve_vrptw_infeasible_on_positive_return_times
                   Ex.world_search Ex.two_stops Ex.cost2 Ex.time2 10 100 0%nat
                   _ _ _ _ _ _ _)).
  - exact search2_sound.
  - simpl. lia.
  - split; [reflexivity|]. repeat constructor.
  - split; [reflexivity|]. repeat constructor.
  - simpl. lia.
  - reflexivity.
  - simpl. intros [|[|i]] Hi Hne; (done || lia).
Defined.

(** C10 (as stated) fails: two stops a second apart, so with a positive
    travel time back to the start, and a budget of [2 ^ 63] cents; the
    model is never built, because the call that adds the budget
    constraint raises [TypeError] before any search. *)
Lemma solve_vrptw_raises_beyond_int64 :
  (2 <= length Ex.two_stops)%nat
  /\ (forall i, (i < length Ex.two_stops)%nat -> i <> 0%nat -> 0 < entry Ex.time2 i 0)
  /\ solve_vrptw (cp_solve Ex.world_search) Ex.two_stops Ex.cost2 Ex.time2 (2 ^ 63) 100 0
     = Raise TypeError.
Proof.
  split; [simpl; lia|]. split; [|reflexivity].
  simpl. intros [|[|i]] Hi Hne; (done || lia).
Qed.

(** ** The mock friction scorer *)

(** C7.  The mock score is a function of the interpreter's string hash:
    two processes whose hash secrets differ score the same e-bike leg
    [home -> farmers-market] at the same hour differently, here 0.25
    against 0.29. *)
Theorem mock_friction_score_varies_across_processes :
  (_mock_friction_score Ex.hash_run1 12 Ex.maya_leg == 0.25)%Q
  /\ (_mock_friction_score Ex.hash_run2 12 Ex.maya_leg == 0.29)%Q
  /\ ~ (_mock_friction_score Ex.hash_run1 12 Ex.maya_leg
        == _mock_friction_score Ex.hash_run2 12 Ex.maya_leg)%Q.
Proof.
  split; [reflexivity|]. split; [reflexivity|].
  intros H. vm_compute in H. discriminate H.
Qed.

(** ** Computations over the store *)

Lemma bind_ok {A B} (m : M A) (k : A -> M B) st st' b :
  bind m k st = (st', Ok b) ->
  exists st1 a, m st = (st1, Ok a) /\ k a st1 = (st', Ok b).
Proof.
  unfold bind. destruct (m st) as [st1 [a|e|]]; intros H; try discriminate H.
  by exists st1, a.
Qed.

Lemma same_heaps_refl st : same_heaps st st.
Proof. done. Qed.

Lemma same_heaps_trans st1 st2 st3 :
  same_heaps st1 st2 -> same_heaps st2 st3 -> same_heaps st1 st3.
Proof. intros (? & ? & ?) (? & ? & ?). repeat split; congruence. Qed.

Lemma same_heaps_log c st : same_heaps st (log_call c st).
Proof. done. Qed.

Lemma for_each_leg_frame f rs st :
  stop_heap (for_each_leg f rs st) = stop_heap st
  /\ itin_heap (for_each_leg f rs st) = itin_heap st
  /\ call_log (for_each_leg f rs st) = call_log st.
Proof.
  revert st. induction rs as [|r rs IH]; intros st; [done|].
  unfold for_each_leg in *; simpl. destruct (IH (upd_leg f r st)) as (-> & -> & ->). done.
Qed.

Lemma for_each_stop_frame f rs st :
  leg_heap (for_each_stop f rs st) = leg_heap st
  /\ itin_heap (for_each_stop f rs st) = itin_heap st
  /\ call_log (for_each_stop f rs st) = call_log st.
Proof.
  revert st. induction rs as [|r rs IH]; intros st; [done|].
  unfold for_each_stop in *; simpl. destruct (IH (upd_stop f r st)) as (-> & -> & ->). done.
Qed.

(** Step 1 touches neither the itinerary objects nor the call log. *)
Lemma apply_disruption_frame st itin event :
  itin_heap (apply_disruption st itin event) = itin_heap st
  /\ call_log (apply_disruption st itin event) = call_log st.
Proof.
  unfold apply_disruption.
  destruct (event_type event).
  - by destruct (for_each_leg_frame (disrupt_leg event) (legs (get_itin st itin)) st) as (_ & -> & ->).
  - by destruct (for_each_leg_frame (disrupt_leg event) (legs (get_itin st itin)) st) as (_ & -> & ->).
  - destruct (truthy_str (affectedStopId event)); [|done].
    match goal with |- context [for_each_leg ?f ?rs ?s] =>
      destruct (for_each_leg_frame f rs s) as (_ & -> & ->) end.
    match goal with |- context [for_each_stop ?f ?rs ?s] =>
      destruct (for_each_stop_frame f rs s) as (_ & -> & ->) end.
    done.
  - destruct (severity event); try done;
      by destruct (for_each_leg_frame weather_leg (legs (get_itin st itin)) st) as (_ & -> & ->).
Qed.

Lemma model_copy_deep_eq st r :
  model_copy_deep st r =
  (mkStore (stop_heap st ++ (get_stop st <$> stops (get_itin st r)))
           (leg_heap st ++ (get_leg st <$> legs (get_itin st r)))
           (itin_heap st ++
              [mkItin (itin_id (get_itin st r)) (version (get_itin st r))
                      (user (get_itin st r))
                      (seq (length (stop_heap st)) (length (stops (get_itin st r))))
                      (seq (length (leg_heap st)) (length (legs (get_itin st r))))
                      (totalCost (get_itin st r)) (projectedETA (get_itin st r))
                      (itin_status (get_itin st r))])
           (call_log st),
   length (itin_heap st)).
Proof.
  unfold model_copy_deep, alloc_stops, alloc_legs, alloc_itin. simpl.
  by rewrite !length_fmap.
Qed.

Lemma get_itin_copy st r :
  get_itin (model_copy_deep st r).1 (model_copy_deep st r).2
  = mkItin (itin_id (get_itin st r)) (version (get_itin st r)) (user (get_itin st r))
           (seq (length (stop_heap st)) (length (stops (get_itin st r))))
           (seq (length (leg_heap st)) (length (legs (get_itin st r))))
           (totalCost (get_itin st r)) (projectedETA (get_itin st r))
           (itin_status (get_itin st r)).
Proof.
  rewrite model_copy_deep_eq. unfold get_itin; simpl.
  apply list_lookup_total_correct.
  rewrite lookup_app_r by done. by rewrite Nat.sub_diag.
Qed.

(** ** Too few active stops *)

(** C8.  Outside the demo bypass, when fewer than two stops of the
    working copy are [PENDING] once step 1 has been applied, the
    endpoint raises [HTTPException(422)] with the "at least 2 active
    stops" message, and the call log is as it was: neither the
    directions fan-out nor a solver has been invoked. *)
Theorem too_few_active_stops_is_422 (W : World) (req : ReplanRequest) (st : Store) :
  let working := model_copy_deep st (itinerary req) in
  is_demo_bypass W (get_itin working.1 working.2) (disruption req) = false ->
  (length (pending_stops (apply_disruption working.1 working.2 (disruption req))
                         working.2) < 2)%nat ->
  (replan_itinerary W req st).2
  = Raise (HTTPException 422 "Need at least 2 active stops to build an itinerary.")
  /\ call_log (replan_itinerary W req st).1 = call_log st.
Proof.
  intros working Hdemo Hfew. subst working.
  unfold replan_itinerary, bind, run_alloc, get_store. cbv beta.
  destruct (model_copy_deep st (itinerary req)) as [st1 itin] eqn:Hw. simpl in *.
  rewrite Hdemo.
  unfold solve_stage, bind, modify, get_store, raise. simpl.
  apply Nat.ltb_lt in Hfew. rewrite Hfew. simpl.
  split; [done|].
  destruct (apply_disruption_frame st1 itin (disruption req)) as [_ ->].
  assert (st1 = (model_copy_deep st (itinerary req)).1) as -> by (by rewrite Hw).
  by rewrite model_copy_deep_eq.
Qed.

Lemma too_few_active_stops_is_422_witness :
  (replan_itinerary Ex.world (mkReq 0%nat Ex.ev_weather) Ex.st_one_pending).2
  = Raise (HTTPException 422 "Need at least 2 active stops to build an itinerary.")
  /\ call_log (replan_itinerary Ex.world (mkReq 0%nat Ex.ev_weather) Ex.st_one_pending).1
     = call_log Ex.st_one_pending.
Proof.
  apply (too_few_active_stops_is_422 Ex.world (mkReq 0%nat Ex.ev_weather) Ex.st_one_pending).
  - reflexivity.
  - vm_compute. lia.
Defined.

(** ** Frame properties of the store operations *)

Section Frame.
Variables (bs bl bi : nat).

Local Abbreviation ub := (unchanged_below bs bl bi).

Lemma ub_refl st : ub st st.
Proof. by repeat split. Qed.

Lemma ub_trans st1 st2 st3 : ub st1 st2 -> ub st2 st3 -> ub st1 st3.
Proof.
  intros [(? & ? & ?) (? & ? & ?)] [(? & ? & ?) (? & ? & ?)].
  split; repeat split; (congruence || lia).
Qed.

Lemma ub_same_heaps st st' : same_heaps st st' -> ub st st'.
Proof. intros (H1 & H2 & H3). unfold unchanged_below. rewrite H1, H2, H3. by repeat split. Qed.

Lemma ub_log_call c st : ub st (log_call c st).
Proof. apply ub_same_heaps, same_heaps_log. Qed.

Lemma ub_upd_stop f r st : (bs <= r)%nat -> ub st (upd_stop f r st).
Proof.
  intros Hr. unfold unchanged_below, upd_stop; simpl.
  rewrite take_alter_ge by done. rewrite length_alter. by repeat split.
Qed.

Lemma ub_upd_leg f r st : (bl <= r)%nat -> ub st (upd_leg f r st).
Proof.
  intros Hr. unfold unchanged_below, upd_leg; simpl.
  rewrite take_alter_ge by done. rewrite length_alter. by repeat split.
Qed.

Lemma ub_upd_itin f r st : (bi <= r)%nat -> ub st (upd_itin f r st).
Proof.
  intros Hr. unfold unchanged_below, upd_itin; simpl.
  rewrite take_alter_ge by done. rewrite length_alter. by repeat split.
Qed.

Lemma ub_for_each_stop f rs st :
  Forall (fun r => (bs <= r)%nat) rs -> ub st (for_each_stop f rs st).
Proof.
  intros Hrs. revert st. induction Hrs as [|r rs Hr Hrs IH]; intros st; [apply ub_refl|].
  unfold for_each_stop in *; simpl.
  eapply ub_trans; [by apply ub_upd_stop|apply IH].
Qed.

Lemma ub_for_each_leg f rs st :
  Forall (fun r => (bl <= r)%nat) rs -> ub st (for_each_leg f rs st).
Proof.
  intros Hrs. revert st. induction Hrs as [|r rs Hr Hrs IH]; intros st; [apply ub_refl|].
  unfold for_each_leg in *; simpl.
  eapply ub_trans; [by apply ub_upd_leg|apply IH].
Qed.

Lemma ub_alloc_stops vs st :
  (bs <= length (stop_heap st))%nat -> ub st (alloc_stops vs st).1.
Proof.
  intros H. unfold unchanged_below, alloc_stops; simpl.
  rewrite take_app_le by done. rewrite length_app. repeat split; (done || lia).
Qed.

Lemma ub_alloc_legs vs st :
  (bl <= length (leg_heap st))%nat -> ub st (alloc_legs vs st).1.
Proof.
  intros H. unfold unchanged_below, alloc_legs; simpl.
  rewrite take_app_le by done. rewrite length_app. repeat split; (done || lia).
Qed.

Lemma ub_alloc_itin v st :
  (bi <= length (itin_heap st))%nat -> ub st (alloc_itin v st).1.
Proof.
  intros H. unfold unchanged_below, alloc_itin; simpl.
  rewrite take_app_le by done. rewrite length_app. repeat split; (done || lia).
Qed.

Lemma ub_model_copy_deep st r :
  (bs <= length (stop_heap st))%nat ->
  (bl <= length (leg_heap st))%nat ->
  (bi <= length (itin_heap st))%nat ->
  ub st (model_copy_deep st r).1.
Proof.
  intros Hs Hl Hi. rewrite model_copy_deep_eq. unfold unchanged_below; simpl.
  rewrite !take_app_le by done. rewrite !length_app. repeat split; (done || lia).
Qed.

Lemma ub_apply_disruption st itin event :
  Forall (fun r => (bs <= r)%nat) (stops (get_itin st itin)) ->
  Forall (fun r => (bl <= r)%nat) (legs (get_itin st itin)) ->
  ub st (apply_disruption st itin event).
Proof.
  intros Hs Hl. unfold apply_disruption.
  destruct (event_type event).
  - by apply ub_for_each_leg.
  - by apply ub_for_each_leg.
  - destruct (truthy_str (affectedStopId event)); [|apply ub_refl].
    eapply ub_trans; [by apply ub_for_each_stop|by apply ub_for_each_leg].
  - destruct (severity event); try apply ub_refl; by apply ub_for_each_leg.
Qed.

(** The marks stay below the heap sizes. *)
Lemma ub_marks st st' :
  ub st st' ->
  (bs <= length (stop_heap st))%nat /\ (bl <= length (leg_heap st))%nat
  /\ (bi <= length (itin_heap st))%nat ->
  (bs <= length (stop_heap st'))%nat /\ (bl <= length (leg_heap st'))%nat
  /\ (bi <= length (itin_heap st'))%nat.
Proof. intros [_ (? & ? & ?)] (? & ? & ?). repeat split; lia. Qed.

(** Sequencing. *)
Lemma ub_bind {A B} (m : M A) (k : A -> M B) st :
  ub st (m st).1 ->
  (forall a, (m st).2 = Ok a -> ub (m st).1 (k a (m st).1).1) ->
  ub st (bind m k st).1.
Proof.
  intros Hm Hk. unfold bind. destruct (m st) as [st1 [a|e|]]; simpl in *; try done.
  eapply ub_trans; [done|]. by apply Hk.
Qed.
End Frame.

(** ** The solver loop and the store *)

Lemma find_drop_idx_range st stops d :
  find_drop_idx st stops = Some d -> (1 <= d < length stops)%nat.
Proof.
  unfold find_drop_idx.
  set (indices := reverse (seq 1 (length stops - 1))).
  assert (forall i, i ∈ indices -> (1 <= i < length stops)%nat) as Hrange.
  { intros i Hi%elem_of_reverse%elem_of_seq. lia. }
  destruct (find _ indices) as [i|] eqn:Hfind.
  - intros [= <-]. apply find_some in Hfind as [Hin _].
    by apply Hrange, list_elem_of_In.
  - intros Hhead%head_Some_elem_of. by apply Hrange.
Qed.

Lemma solve_step_same_heaps W b d s st :
  same_heaps st (solve_step W b d s st).1.
Proof.
  unfold solve_step, bind, get_store, modify, lift, ret. cbn [fst snd].
  destruct (solve_vrptw _ _ _ _ _ _ _) as [route|e|]; cbn [fst snd]; try done.
  by destruct (truthy_route route).
Qed.

Section FrameLoop.
Variables (bs bl bi : nat) (W : World) (budget_cents deadline_sec : Z).

Lemma ub_drop_lowest_priority st stops c t :
  Forall (fun r => (bs <= r)%nat) stops ->
  unchanged_below bs bl bi st (drop_lowest_priority st stops c t).1
  /\ Forall (fun r => (bs <= r)%nat) (drop_lowest_priority st stops c t).2.1.1.2.
Proof.
  intros Hstops. unfold drop_lowest_priority.
  destruct (find_drop_idx st stops) as [d|] eqn:Hd; simpl.
  - apply find_drop_idx_range in Hd. split.
    + apply ub_upd_stop. rewrite Forall_forall in Hstops. apply Hstops.
      apply list_elem_of_lookup_total_2. lia.
    + apply Forall_forall. intros r Hr%list_elem_of_delete_inv.
      rewrite Forall_forall in Hstops. by apply Hstops.
  - split; [apply ub_refl|done].
Qed.

Lemma ub_drop_loop iterations s st :
  Forall (fun r => (bs <= r)%nat) (stops_to_route s) ->
  unchanged_below bs bl bi st (drop_loop W budget_cents deadline_sec iterations s st).1.
Proof.
  revert s st. induction iterations as [|k IH]; intros s st Hstops; simpl; [apply ub_refl|].
  destruct (length (stops_to_route s) <? 2)%nat; [apply ub_refl|].
  apply ub_bind; [apply ub_same_heaps, solve_step_same_heaps|].
  intros route _. simpl.
  destruct (truthy_route route); [apply ub_refl|].
  unfold bind, run_alloc.
  pose proof (ub_drop_lowest_priority (solve_step W budget_cents deadline_sec s st).1
                (stops_to_route s) (c_mx s) (t_mx s) Hstops) as [Hub Hrest].
  destruct (drop_lowest_priority _ _ _ _) as [st' [[[dropped stops] c] t]]; simpl in *.
  destruct dropped as [d|]; [|done].
  eapply ub_trans; [done|]. by apply IH.
Qed.
End FrameLoop.

Lemma get_itin_apply_disruption st itin event r :
  get_itin (apply_disruption st itin event) r = get_itin st r.
Proof.
  unfold get_itin. by destruct (apply_disruption_frame st itin event) as [-> _].
Qed.

Lemma pending_stops_sublist st itin :
  pending_stops st itin ⊆ stops (get_itin st itin).
Proof. intros r Hr. unfold pending_stops in Hr. by apply list_elem_of_filter in Hr as []. Qed.

Section FramePipeline.
Variables (bs bl bi : nat) (W : World).

Local Abbreviation ub := (unchanged_below bs bl bi).

Lemma ub_solve_stage st itin event :
  Forall (fun r => (bs <= r)%nat) (stops (get_itin st itin)) ->
  Forall (fun r => (bl <= r)%nat) (legs (get_itin st itin)) ->
  ub st (solve_stage W itin event st).1.
Proof.
  intros Hs Hl. unfold solve_stage, bind, modify, get_store, raise. cbn [fst snd].
  set (st1 := apply_disruption st itin event).
  assert (ub st st1) as H1 by (by apply ub_apply_disruption).
  destruct (length (pending_stops st1 itin) <? 2)%nat; [done|].
  destruct (fetch_alternatives _ _ _) as [[cm tm] details].
  unfold lift.
  destruct (deadline_seconds_of W _) as [dl|e|]; cbn [fst snd];
    [|eapply ub_trans; [exact H1|apply ub_log_call]..].
  match goal with |- context [drop_loop ?W ?b ?d ?k ?s ?st0] =>
    pose proof (ub_drop_loop bs bl bi W b d k s st0) as Hloop;
    destruct (drop_loop W b d k s st0) as [st2 [s2|e|]] end;
    cbn [fst snd stops_to_route] in *.
  all: assert (ub (log_call (CallFetchAlternatives (length (pending_stops st1 itin))) st1) st2)
    as H2;
    [apply Hloop; apply Forall_forall; intros r Hr%pending_stops_sublist;
     subst st1; rewrite get_itin_apply_disruption in Hr;
     rewrite Forall_forall in Hs; by apply Hs|].
  all: assert (ub st st2) as H3
      by (eapply ub_trans; [exact H1|]; eapply ub_trans; [apply ub_log_call|exact H2]).
  all: try done.
  by destruct (truthy_route (route_indices s2)).
Qed.
End FramePipeline.

(** ** Blocks of freshly allocated objects *)

Lemma lookup_total_block {A} `{Inhabited A} (h vs rest : list A) :
  (fun r => (h ++ vs ++ rest) !!! r) <$> seq (length h) (length vs) = vs.
Proof.
  revert h. induction vs as [|v vs IH]; intros h; [done|]. simpl. f_equal.
  - apply list_lookup_total_correct. by rewrite list_lookup_middle.
  - specialize (IH (h ++ [v])). rewrite length_app in IH. simpl in IH.
    rewrite Nat.add_1_r in IH. rewrite <- IH at 2.
    apply list_fmap_ext. intros _ r _. by rewrite <- app_assoc.
Qed.

Lemma for_each_stop_block f st h vs rest :
  stop_heap st = h ++ vs ++ rest ->
  stop_heap (for_each_stop f (seq (length h) (length vs)) st) = h ++ (f <$> vs) ++ rest.
Proof.
  revert h st. induction vs as [|v vs IH]; intros h st Hst; [done|].
  unfold for_each_stop in *. simpl.
  specialize (IH (h ++ [f v]) (upd_stop f (length h) st)).
  rewrite length_app in IH. simpl in IH. rewrite Nat.add_1_r in IH.
  rewrite IH; [by rewrite <- app_assoc|].
  unfold upd_stop; simpl. rewrite Hst.
  rewrite <- (Nat.add_0_r (length h)) at 1. rewrite alter_app_r. simpl.
  by rewrite <- app_assoc.
Qed.

Lemma apply_friction_frame st rxs :
  stop_heap (apply_friction st rxs) = stop_heap st
  /\ itin_heap (apply_friction st rxs) = itin_heap st
  /\ call_log (apply_friction st rxs) = call_log st.
Proof.
  revert st. induction rxs as [|rx rxs IH]; intros st; [done|].
  unfold apply_friction in *; simpl.
  destruct (IH (upd_leg (set_friction rx.2.1 rx.2.2) rx.1 st)) as (-> & -> & ->). done.
Qed.

Lemma apply_friction_block st h vs rest xs :
  leg_heap st = h ++ vs ++ rest ->
  length xs = length vs ->
  leg_heap (apply_friction st (zip (seq (length h) (length vs)) xs))
  = h ++ score_legs vs xs ++ rest.
Proof.
  revert h st xs. induction vs as [|v vs IH]; intros h st xs Hst Hlen.
  { by destruct xs. }
  destruct xs as [|x xs]; [done|]. simpl in Hlen.
  unfold apply_friction in *. simpl.
  specialize (IH (h ++ [set_friction x.1 x.2 v])
                 (upd_leg (set_friction x.1 x.2) (length h) st) xs).
  rewrite length_app in IH. simpl in IH. rewrite Nat.add_1_r in IH.
  rewrite IH; [by rewrite <- app_assoc| |lia].
  unfold upd_leg; simpl. rewrite Hst.
  rewrite <- (Nat.add_0_r (length h)) at 1. rewrite alter_app_r. simpl.
  by rewrite <- app_assoc.
Qed.

(** ** Steps 5.5 to 7 *)

Lemma store_eq st st' :
  stop_heap st = stop_heap st' -> leg_heap st = leg_heap st' ->
  itin_heap st = itin_heap st' -> call_log st = call_log st' -> st = st'.
Proof. destruct st, st'; simpl. by intros -> -> -> ->. Qed.

Lemma lookup_total_app_length {A} `{Inhabited A} (l : list A) x :
  (l ++ [x]) !!! length l = x.
Proof. apply list_lookup_total_correct. by rewrite list_lookup_middle. Qed.

Lemma alter_app_length {A} (f : A -> A) (l : list A) x :
  alter f (length l) (l ++ [x]) = l ++ [f x].
Proof. rewrite <- (Nat.add_0_r (length l)). by rewrite alter_app_r. Qed.

(** Scoring allocates the new legs after the existing ones and fills in
    their friction fields. *)
Lemma score_new_legs_run W vs st :
  score_new_legs W vs st
  = (mkStore (stop_heap st) (leg_heap st ++ score_legs vs (predict_friction W vs))
             (itin_heap st) (call_log st ++ [CallPredictFriction (length vs)]),
     Ok (seq (length (leg_heap st)) (length vs))).
Proof.
  unfold score_new_legs, bind, run_alloc, modify, ret, alloc_legs. cbn [fst snd].
  f_equal.
  match goal with |- apply_friction ?st0 ?rxs = _ =>
    destruct (apply_friction_frame st0 rxs) as (Hs & Hi & Hc);
    pose proof (apply_friction_block st0 (leg_heap st) vs [] (predict_friction W vs)) as Hl
  end.
  simpl in Hl. rewrite !app_nil_r in Hl.
  apply store_eq; simpl; try done.
  apply Hl; [done|]. unfold predict_friction. by rewrite length_fmap.
Qed.

(** Step 7 allocates a copy of the working itinerary, gives it the new
    header, and marks dropped stops on the copied stops. *)
Lemma get_itin_mk S L I C x : get_itin (mkStore S L (I ++ [x]) C) (length I) = x.
Proof. unfold get_itin; simpl. apply lookup_total_app_length. Qed.

Lemma upd_itin_mk f S L I C x :
  upd_itin f (length I) (mkStore S L (I ++ [x]) C) = mkStore S L (I ++ [f x]) C.
Proof. unfold upd_itin; simpl. by rewrite alter_app_length. Qed.

(** Step 7 allocates a copy of the working itinerary, gives it the new
    header, and marks dropped stops on the copied stops. *)
Lemma emit_itinerary_run itin s new_legs tc eta st :
  let it := get_itin st itin in
  exists ds,
    emit_itinerary itin s new_legs tc eta st
    = (mkStore (stop_heap st ++ (reflect_drop ds <$> (get_stop st <$> stops it)))
               (leg_heap st ++ (get_leg st <$> legs it))
               (itin_heap st ++
                  [mkItin (itin_id it) (version it + 1) (user it)
                          (seq (length (stop_heap st)) (length (stops it)))
                          new_legs tc eta REPLANNING])
               (call_log st),
       Ok (length (itin_heap st))).
Proof.
  intros it. unfold emit_itinerary, bind, run_alloc, modify, ret.
  rewrite model_copy_deep_eq. fold it. cbn [fst snd].
  rewrite get_itin_mk, upd_itin_mk, get_itin_mk.
  cbn [set_header version stops itin_id user].
  match goal with |- context [reflect_drop ?d] => exists d; set (ds := d) end.
  f_equal.
  match goal with |- for_each_stop ?f ?rs ?st0 = _ =>
    destruct (for_each_stop_frame f rs st0) as (Hl & Hi & Hc);
    pose proof (for_each_stop_block f st0 (stop_heap st) (get_stop st <$> stops it) [])
      as Hblock
  end.
  rewrite length_fmap in Hblock. simpl in Hblock. rewrite !app_nil_r in Hblock.
  specialize (Hblock eq_refl).
  apply store_eq; simpl; done.
Qed.

Lemma length_score_legs W vs : length (score_legs vs (predict_friction W vs)) = length vs.
Proof.
  unfold score_legs, predict_friction. rewrite length_zip_with, length_fmap. lia.
Qed.


(** The whole of steps 5.5 to 7: either the leg construction raises and
    the store is as before, or the store grows and, unless the clock
    arithmetic of step 6 raises, the answer is as follows. *)
Lemma assemble_run W old_itin itin details s st :
  let it := get_itin st itin in
  match build_legs st it s details (default [] (route_indices s)) with
  | Ok vs =>
      exists st',
        (exists x, stop_heap st' = stop_heap st ++ x)
        /\ (exists x, leg_heap st' = leg_heap st ++ x)
        /\ (exists x, itin_heap st' = itin_heap st ++ x)
        /\ match eta_after W (sumZ (durationSec <$> vs)),
                 eta_delta W (sumZ (durationSec <$> vs))
                           (projectedETA (get_itin st old_itin)) with
           | Some eta, Some delta =>
               exists ds diff,
                 assemble W old_itin itin details s st
                 = (st',
                    Ok (mkResult
                          (mkDump (itin_id it) (version it + 1) (user it)
                                  (reflect_drop ds <$> (get_stop st <$> stops it))
                                  (score_legs vs (predict_friction W vs))
                                  (sumZ (costCents <$> vs))
                                  eta
                                  REPLANNING)
                          diff
                          (mkMeta (if truthy_route (route_indices s)
                                   then "OR_TOOLS" else "GREEDY")
                                  (Z.of_nat (length (dropped_stops s)))
                                  (version it + 1))))
           | Some _, None => assemble W old_itin itin details s st = (st', Raise TypeError)
           | None, _ => assemble W old_itin itin details s st = (st', Raise OverflowError)
           end
  | Raise e => assemble W old_itin itin details s st = (st, Raise e)
  | Diverge => assemble W old_itin itin details s st = (st, Diverge)
  end.
Proof.
  intros it. unfold assemble, bind, get_store, lift, ret. cbn [fst snd]. fold it.
  destruct (build_legs st it s details (default [] (route_indices s))) as [vs|e|];
    [|done|done].
  rewrite score_new_legs_run.
  set (st_b := mkStore (stop_heap st) (leg_heap st ++ score_legs vs (predict_friction W vs))
                       (itin_heap st) (call_log st ++ [CallPredictFriction (length vs)])).
  unfold compute_diff.
  assert (get_itin st_b old_itin = get_itin st old_itin) as -> by done.
  destruct (eta_after W (sumZ (durationSec <$> vs))) as [eta|]; cbn [or_raise res_bind].
  2:{ exists st_b. subst st_b. cbn [stop_heap leg_heap itin_heap].
      split; [exists []; by rewrite app_nil_r|]. split; [by eexists|].
      split; [exists []; by rewrite app_nil_r|done]. }
  destruct (eta_delta W (sumZ (durationSec <$> vs)) _) as [delta|]; cbn [or_raise res_bind].
  2:{ exists st_b. subst st_b. cbn [stop_heap leg_heap itin_heap].
      split; [exists []; by rewrite app_nil_r|]. split; [by eexists|].
      split; [exists []; by rewrite app_nil_r|done]. }
  cbn [fst snd].
  match goal with |- context [emit_itinerary ?i ?s ?nl ?tc ?e ?st0] =>
    destruct (emit_itinerary_run i s nl tc e st0) as [ds ->] end.
  cbn [stop_heap leg_heap itin_heap call_log].
  assert (get_itin st_b itin = it) as -> by done.
  assert (get_stop st_b = get_stop st) as -> by done.
  eexists. split; [|split; [|split]]; cycle 3.
  - exists ds. eexists. f_equal. f_equal. f_equal.
    + unfold model_dump. rewrite get_itin_mk.
      cbn [itin_id version user stops legs totalCost projectedETA itin_status].
      f_equal.
      * unfold get_stop. cbn [stop_heap].
        pose proof (lookup_total_block (stop_heap st)
                      (reflect_drop ds <$> (get_stop st <$> stops it)) []) as Hb.
        rewrite !length_fmap in Hb. rewrite app_nil_r in Hb. exact Hb.
      * unfold get_leg. subst st_b. cbn [leg_heap].
        pose proof (lookup_total_block (leg_heap st)
                      (score_legs vs (predict_friction W vs))) as Hb.
        rewrite length_score_legs in Hb. rewrite <- app_assoc. apply Hb.
    + f_equal. by rewrite get_itin_mk.
  - cbn [stop_heap]. by eexists.
  - subst st_b. cbn [leg_heap]. rewrite <- app_assoc. by eexists.
  - cbn [itin_heap]. by eexists.
Qed.

(** ** The demo bypass *)

Lemma hardcoded_maya_replan_run itin st :
  let it := get_itin st itin in
  exists diff st',
    hardcoded_maya_replan itin st
    = (st',
       Ok (mkResult
             (mkDump (itin_id it) (version it + 1) (user it)
                     (maya_stop <$> (get_stop st <$> stops it))
                     (maya_legs st it)
                     (sumZ (costCents <$> maya_legs st it))
                     "19:50" ACTIVE)
             diff
             (mkMeta "DEMO_HARDCODED" 1 (version it + 1))))
    /\ (exists x, stop_heap st' = stop_heap st ++ x)
    /\ (exists x, leg_heap st' = leg_heap st ++ x)
    /\ (exists x, itin_heap st' = itin_heap st ++ x).
Proof.
  intros it. unfold hardcoded_maya_replan, bind, get_store, run_alloc, ret.
  unfold alloc_stops, alloc_legs, alloc_itin. cbn [fst snd stop_heap leg_heap itin_heap call_log].
  fold it.
  set (st1 := mkStore (stop_heap st ++ (maya_stop <$> (get_stop st <$> stops it)))
                      (leg_heap st) (itin_heap st) (call_log st)).
  change (maya_legs st1 it) with (maya_legs st it).
  eexists _, _. split; [|cbn [stop_heap leg_heap itin_heap]; split; [|split]].
  - f_equal. f_equal. f_equal.
    + unfold model_dump. rewrite get_itin_mk.
      cbn [itin_id version user stops legs totalCost projectedETA itin_status].
      f_equal.
      * unfold get_stop. cbn [stop_heap].
        pose proof (lookup_total_block (stop_heap st)
                      (maya_stop <$> (get_stop st <$> stops it)) []) as Hb.
        rewrite app_nil_r in Hb. exact Hb.
      * unfold get_leg. cbn [leg_heap].
        pose proof (lookup_total_block (leg_heap st) (maya_legs st it) []) as Hb.
        rewrite app_nil_r in Hb. exact Hb.
    + f_equal. by rewrite get_itin_mk.
  - by eexists.
  - by eexists.
  - by eexists.
Qed.

(** ** The input itinerary is never written *)

Lemma ub_extension bs bl bi st st' :
  (bs <= length (stop_heap st))%nat ->
  (bl <= length (leg_heap st))%nat ->
  (bi <= length (itin_heap st))%nat ->
  (exists x, stop_heap st' = stop_heap st ++ x) ->
  (exists x, leg_heap st' = leg_heap st ++ x) ->
  (exists x, itin_heap st' = itin_heap st ++ x) ->
  unchanged_below bs bl bi st st'.
Proof.
  intros Hs Hl Hi [x Hx] [y Hy] [z Hz]. unfold unchanged_below.
  rewrite Hx, Hy, Hz. rewrite !take_app_le by done. rewrite !length_app. repeat split; (done || lia).
Qed.

Lemma ub_assemble bs bl bi W old_itin itin details s st :
  (bs <= length (stop_heap st))%nat ->
  (bl <= length (leg_heap st))%nat ->
  (bi <= length (itin_heap st))%nat ->
  unchanged_below bs bl bi st (assemble W old_itin itin details s st).1.
Proof.
  intros Hs Hl Hi. pose proof (assemble_run W old_itin itin details s st) as Hrun.
  simpl in Hrun. destruct (build_legs _ _ _ _ _) as [vs|e|].
  - destruct Hrun as (st' & Hx & Hy & Hz & Hrun).
    assert ((assemble W old_itin itin details s st).1 = st') as ->; [|by apply ub_extension].
    destruct (eta_after W _) as [eta|]; [|by rewrite Hrun].
    destruct (eta_delta W _ _) as [delta|]; [|by rewrite Hrun].
    by destruct Hrun as (ds & diff & ->).
  - rewrite Hrun. apply ub_refl.
  - rewrite Hrun. apply ub_refl.
Qed.

(** Every object that existed before the call is the same afterwards,
    whatever the outcome. *)
Lemma replan_itinerary_frame W req st :
  unchanged_below (length (stop_heap st)) (length (leg_heap st)) (length (itin_heap st))
                  st (replan_itinerary W req st).1.
Proof.
  set (bs := length (stop_heap st)). set (bl := length (leg_heap st)).
  set (bi := length (itin_heap st)).
  unfold replan_itinerary, bind, run_alloc, get_store. cbv beta.
  pose proof (get_itin_copy st (itinerary req)) as Hcopy.
  pose proof (ub_model_copy_deep bs bl bi st (itinerary req)
                (Nat.le_refl _) (Nat.le_refl _) (Nat.le_refl _)) as Hub1.
  destruct (model_copy_deep st (itinerary req)) as [st1 itin]. cbn [fst snd] in *.
  pose proof (ub_marks bs bl bi st st1 Hub1
                (conj (Nat.le_refl _) (conj (Nat.le_refl _) (Nat.le_refl _))))
    as (Hs1 & Hl1 & Hi1).
  destruct (is_demo_bypass W (get_itin st1 itin) (disruption req)).
  - destruct (hardcoded_maya_replan_run itin st1) as (diff & st' & -> & Hx & Hy & Hz).
    eapply ub_trans; [exact Hub1|]. by apply ub_extension.
  - assert (unchanged_below bs bl bi st1
              (solve_stage W itin (disruption req) st1).1) as Hub2.
    { apply ub_solve_stage; rewrite Hcopy; simpl;
        apply Forall_forall; intros r Hr%elem_of_seq; lia. }
    pose proof (ub_marks bs bl bi _ _ Hub2 (conj Hs1 (conj Hl1 Hi1))) as (Hs2 & Hl2 & Hi2).
    destruct (solve_stage W itin (disruption req) st1) as [st2 [[details s]|e|]];
      cbn [fst snd] in *.
    + eapply ub_trans; [exact Hub1|]. eapply ub_trans; [exact Hub2|].
      by apply ub_assemble.
    + by eapply ub_trans.
    + by eapply ub_trans.
Qed.

(** C9.  Whatever the outcome of the call, every stop, leg and
    itinerary object that existed before it is unchanged (the heaps of
    the final store start with the heaps of the initial one), and in
    particular the dump of the request's itinerary, with every field of
    its stops and legs, is the same before and after. *)
Theorem replan_leaves_input_unchanged (W : World) (req : ReplanRequest) (st : Store) :
  wf_itin st (itinerary req) ->
  let st' := (replan_itinerary W req st).1 in
  model_dump st' (itinerary req) = model_dump st (itinerary req)
  /\ stop_heap st `prefix_of` stop_heap st'
  /\ leg_heap st `prefix_of` leg_heap st'
  /\ itin_heap st `prefix_of` itin_heap st'.
Proof.
  intros (Hi & Hs & Hl) st'.
  destruct (replan_itinerary_frame W req st) as [(Hts & Htl & Hti) _]. fold st' in Hts, Htl, Hti.
  rewrite firstn_all in Hts, Htl, Hti.
  assert (stop_heap st `prefix_of` stop_heap st') as Hps.
  { exists (drop (length (stop_heap st)) (stop_heap st')).
    rewrite <- Hts at 1. by rewrite take_drop. }
  assert (leg_heap st `prefix_of` leg_heap st') as Hpl.
  { exists (drop (length (leg_heap st)) (leg_heap st')).
    rewrite <- Htl at 1. by rewrite take_drop. }
  assert (itin_heap st `prefix_of` itin_heap st') as Hpi.
  { exists (drop (length (itin_heap st)) (itin_heap st')).
    rewrite <- Hti at 1. by rewrite take_drop. }
  split; [|done].
  destruct Hps as [xs Hxs], Hpl as [xl Hxl], Hpi as [xi Hxi].
  assert (get_itin st' (itinerary req) = get_itin st (itinerary req)) as Hit.
  { unfold get_itin. rewrite Hxi. by apply lookup_total_app_l. }
  unfold model_dump. rewrite Hit. f_equal.
  - apply Forall_fmap_ext_1. eapply Forall_impl; [exact Hs|].
    intros r Hr. unfold get_stop. rewrite Hxs. by apply lookup_total_app_l.
  - apply Forall_fmap_ext_1. eapply Forall_impl; [exact Hl|].
    intros r Hr. unfold get_leg. rewrite Hxl. by apply lookup_total_app_l.
Qed.

Lemma replan_leaves_input_unchanged_witness :
  model_dump (replan_itinerary Ex.world (mkReq 0%nat Ex.ev_weather) Ex.st_three).1 0%nat
  = model_dump Ex.st_three 0%nat.
Proof.
  refine (proj1 (replan_leaves_input_unchanged
                   Ex.world (mkReq 0%nat Ex.ev_weather) Ex.st_three _)).
  repeat split; simpl; repeat constructor.
Defined.

(** ** Successful calls, taken apart *)

Lemma get_stop_copy st r :
  get_stop (model_copy_deep st r).1
    <$> seq (length (stop_heap st)) (length (stops (get_itin st r)))
  = get_stop st <$> stops (get_itin st r).
Proof.
  rewrite model_copy_deep_eq. unfold get_stop at 1. cbn [fst stop_heap].
  pose proof (lookup_total_block (stop_heap st) (get_stop st <$> stops (get_itin st r)) [])
    as Hb.
  rewrite length_fmap, app_nil_r in Hb. exact Hb.
Qed.

Lemma get_leg_copy st r :
  get_leg (model_copy_deep st r).1
    <$> seq (length (leg_heap st)) (length (legs (get_itin st r)))
  = get_leg st <$> legs (get_itin st r).
Proof.
  rewrite model_copy_deep_eq. unfold get_leg at 1. cbn [fst leg_heap].
  pose proof (lookup_total_block (leg_heap st) (get_leg st <$> legs (get_itin st r)) [])
    as Hb.
  rewrite length_fmap, app_nil_r in Hb. exact Hb.
Qed.

Lemma is_demo_bypass_copy W st r event :
  is_demo_bypass W (get_itin (model_copy_deep st r).1 (model_copy_deep st r).2) event
  = is_demo_bypass W (get_itin st r) event.
Proof. by rewrite get_itin_copy. Qed.

(** The working itinerary object is not written by steps 1 to 5. *)
Lemma solve_stage_keeps_itin W st r event :
  let st1 := (model_copy_deep st r).1 in
  let itin := (model_copy_deep st r).2 in
  get_itin (solve_stage W itin event st1).1 itin = get_itin st1 itin.
Proof.
  intros st1 itin.
  pose proof (get_itin_copy st r) as Hcopy. fold st1 itin in Hcopy.
  assert (unchanged_below (length (stop_heap st)) (length (leg_heap st))
            (length (itin_heap st1)) st1 (solve_stage W itin event st1).1)
    as [(_ & _ & Hti) (_ & _ & Hlen)].
  { apply ub_solve_stage; rewrite Hcopy; simpl;
      apply Forall_forall; intros x Hx%elem_of_seq; lia. }
  rewrite firstn_all in Hti.
  assert (itin < length (itin_heap st1))%nat as Hlt.
  { subst st1 itin. rewrite model_copy_deep_eq. simpl. rewrite length_app. simpl. lia. }
  unfold get_itin. rewrite <- Hti. rewrite !list_lookup_total_alt.
  by rewrite lookup_take_lt.
Qed.

(** What a successful call has done: either the demo bypass answered
    with its fixed result, or steps 1 to 5 ended with a route and steps
    5.5 to 7 built the answer from it. *)
Lemma replan_ok_inv W req st st' r :
  replan_itinerary W req st = (st', Ok r) ->
  let it := get_itin st (itinerary req) in
  let st1 := (model_copy_deep st (itinerary req)).1 in
  let itin := (model_copy_deep st (itinerary req)).2 in
  (is_demo_bypass W it (disruption req) = true
   /\ res_itinerary r
      = mkDump (itin_id it) (version it + 1) (user it)
               (maya_stop <$> (get_stop st <$> stops it))
               (maya_legs st it) (sumZ (costCents <$> maya_legs st it))
               "19:50" ACTIVE
   /\ solver (res_meta r) = "DEMO_HARDCODED"%string)
  \/ (is_demo_bypass W it (disruption req) = false
      /\ exists st2 details s vs ds eta,
          solve_stage W itin (disruption req) st1 = (st2, Ok (details, s))
          /\ build_legs st2 (get_itin st1 itin) s details (default [] (route_indices s))
             = Ok vs
          /\ res_itinerary r
             = mkDump (itin_id it) (version it + 1) (user it)
                      (reflect_drop ds
                         <$> (get_stop st2
                                <$> seq (length (stop_heap st)) (length (stops it))))
                      (score_legs vs (predict_friction W vs))
                      (sumZ (costCents <$> vs))
                      eta
                      REPLANNING
          /\ solver (res_meta r)
             = (if truthy_route (route_indices s) then "OR_TOOLS" else "GREEDY")%string
          /\ eta_after W (sumZ (durationSec <$> vs)) = Some eta).
Proof.
  intros Hrun it st1 itin.
  pose proof (is_demo_bypass_copy W st (itinerary req) (disruption req)) as Hdemo.
  pose proof (get_itin_copy st (itinerary req)) as Hcopy.
  pose proof (solve_stage_keeps_itin W st (itinerary req) (disruption req)) as Hkeep.
  pose proof (get_stop_copy st (itinerary req)) as Hstops.
  pose proof (get_leg_copy st (itinerary req)) as Hlegs.
  fold st1 itin it in Hdemo, Hcopy, Hkeep, Hstops, Hlegs. cbv zeta in Hkeep.
  unfold replan_itinerary, bind, run_alloc, get_store in Hrun. cbv beta in Hrun.
  change (model_copy_deep st (itinerary req)) with (st1, itin) in Hrun.
  cbn [fst snd] in Hrun. rewrite Hdemo in Hrun.
  destruct (is_demo_bypass W it (disruption req)); [left|right]; (split; [done|]).
  - destruct (hardcoded_maya_replan_run itin st1) as (diff & st'' & Hh & _).
    rewrite Hh in Hrun. injection Hrun as _ <-. cbn [res_itinerary res_meta solver].
    split; [|done]. rewrite Hcopy.
    cbn [itin_id version user stops legs].
    unfold maya_legs. cbn [legs]. by rewrite Hstops, Hlegs.
  - destruct (solve_stage W itin (disruption req) st1) as [st2 [[details s]|e|]] eqn:Hsolve;
      try discriminate Hrun.
    cbn [fst snd] in Hrun, Hkeep.
    pose proof (assemble_run W (itinerary req) itin details s st2) as Hasm.
    cbv zeta in Hasm. rewrite Hkeep in Hasm.
    destruct (build_legs st2 (get_itin st1 itin) s details _) as [vs|e|] eqn:Hbuild.
    + destruct Hasm as (st'' & _ & _ & _ & Hasm).
      destruct (eta_after W _) as [eta|] eqn:Heta;
        [|rewrite Hasm in Hrun; discriminate Hrun].
      destruct (eta_delta W _ _) as [delta|];
        [|rewrite Hasm in Hrun; discriminate Hrun].
      destruct Hasm as (ds & diff & Hasm). rewrite Hasm in Hrun.
      injection Hrun as _ <-. exists st2, details, s, vs, ds, eta.
      split; [done|]. split; [done|].
      cbn [res_itinerary res_meta solver]. rewrite Hcopy.
      cbn [itin_id version user stops]. done.
    + rewrite Hasm in Hrun. discriminate Hrun.
    + rewrite Hasm in Hrun. discriminate Hrun.
Qed.

Lemma solve_stage_ok_inv W itin event st1 st2 details s :
  solve_stage W itin event st1 = (st2, Ok (details, s)) ->
  let sta := apply_disruption st1 itin event in
  let active := pending_stops sta itin in
  (2 <= length active)%nat
  /\ truthy_route (route_indices s) = true
  /\ exists cm tm deadline_sec,
      fetch_alternatives W (get_stop sta <$> active)
                         (preferredModes (user (get_itin sta itin))) = (cm, tm, details)
      /\ deadline_seconds_of W (returnDeadline (user (get_itin sta itin)))
         = Ok deadline_sec
      /\ drop_loop W (budgetCents (user (get_itin sta itin))) deadline_sec
                   (length active)
                   (mkLoop active cm tm (already_dropped sta itin) None)
                   (log_call (CallFetchAlternatives (length active)) sta)
         = (st2, Ok s).
Proof.
  intros Hrun sta active.
  unfold solve_stage, bind, modify, get_store, raise, ret in Hrun. cbn [fst snd] in Hrun.
  fold sta in Hrun. fold active in Hrun.
  destruct (length active <? 2)%nat eqn:Hlen; [discriminate Hrun|].
  apply Nat.ltb_ge in Hlen. split; [done|].
  destruct (fetch_alternatives W (get_stop sta <$> active) _) as [[cm tm] details'] eqn:Hf.
  unfold lift in Hrun.
  destruct (deadline_seconds_of W _) as [dl|e|] eqn:Hdl; try discriminate Hrun.
  destruct (drop_loop _ _ _ _ _ _) as [st2' [s'|e|]] eqn:Hloop; try discriminate Hrun.
  destruct (truthy_route (route_indices s')) eqn:Htruthy; [|discriminate Hrun].
  injection Hrun as <- <- <-. split; [done|]. by exists cm, tm, dl.
Qed.

(** ** Version, status and solver tag of the answer *)

(** C4 (amended).  A successful answer carries the version of the
    request's itinerary plus one; its status is [REPLANNING] when the
    pipeline ran and [ACTIVE] when the demo bypass answered. *)
Theorem replan_version_and_status (W : World) (req : ReplanRequest) (st st' : Store)
        (r : ReplanResult) :
  replan_itinerary W req st = (st', Ok r) ->
  d_version (res_itinerary r) = version (get_itin st (itinerary req)) + 1
  /\ d_status (res_itinerary r)
     = (if is_demo_bypass W (get_itin st (itinerary req)) (disruption req)
        then ACTIVE else REPLANNING).
Proof.
  intros Hrun. apply replan_ok_inv in Hrun. cbv zeta in Hrun.
  destruct Hrun as [(-> & -> & _)|(-> & st2 & details & s & vs & ds & eta & _ & _ & -> & _)];
    done.
Qed.

Lemma replan_version_and_status_witness :
  exists st' r,
    replan_itinerary Ex.world (mkReq 0%nat Ex.ev_weather) Ex.st_two = (st', Ok r)
    /\ d_version (res_itinerary r) = 2
    /\ d_status (res_itinerary r) = REPLANNING.
Proof.
  destruct (replan_itinerary Ex.world (mkReq 0%nat Ex.ev_weather) Ex.st_two)
    as [st' res] eqn:E.
  assert (exists r, res = Ok r) as [r ->].
  { replace res with (replan_itinerary Ex.world (mkReq 0%nat Ex.ev_weather) Ex.st_two).2
      by (by rewrite E).
    vm_compute. eauto. }
  exists st', r. split; [reflexivity|].
  exact (replan_version_and_status Ex.world (mkReq 0%nat Ex.ev_weather) Ex.st_two st' r E).
Defined.

(** C4 (as stated) fails: the demo bypass answers with status
    [ACTIVE]. *)
Lemma demo_bypass_status_is_active :
  ~ version_status_as_specified Ex.world (mkReq 0%nat Ex.ev_cancel) Ex.st_demo.
Proof.
  intros H.
  destruct (replan_itinerary Ex.world (mkReq 0%nat Ex.ev_cancel) Ex.st_demo)
    as [st' res] eqn:E.
  assert (match res with
          | Ok r => d_status (res_itinerary r) = ACTIVE
          | _ => False
          end) as Hres.
  { replace res with (replan_itinerary Ex.world (mkReq 0%nat Ex.ev_cancel) Ex.st_demo).2
      by (by rewrite E).
    vm_compute. reflexivity. }
  destruct res as [r|e|]; [|exact (False_ind _ Hres)..].
  destruct (H st' r E) as [_ Hs]. congruence.
Qed.

(** Every answer of the pipeline proper carries the tag ["OR_TOOLS"]:
    the test of line 777 reads [route_indices], which holds a route
    whichever solver produced it. *)
Lemma solver_tag_is_or_tools W req st st' r :
  replan_itinerary W req st = (st', Ok r) ->
  is_demo_bypass W (get_itin st (itinerary req)) (disruption req) = false ->
  solver (res_meta r) = "OR_TOOLS"%string.
Proof.
  intros Hrun Hdemo. apply replan_ok_inv in Hrun. cbv zeta in Hrun.
  destruct Hrun as [(Hd & _)|(_ & st2 & details & s & vs & ds & eta & Hsolve & _ & _ & -> & _)];
    [congruence|].
  apply solve_stage_ok_inv in Hsolve as (_ & -> & _). done.
Qed.

(** C5.  On two pending stops, with a CP-SAT search that finds nothing,
    the exact solver returns [None], the greedy fallback is called and
    produces the route, and the answer is still tagged ["OR_TOOLS"], the
    tag of the exact solver. *)
Theorem greedy_route_is_tagged_or_tools :
  let out := replan_itinerary Ex.world (mkReq 0%nat Ex.ev_weather) Ex.st_two in
  call_log out.1 = [CallFetchAlternatives 2; CallSolveVrptw 2;
                    CallGreedyFallback 2; CallPredictFriction 1]
  /\ solve_vrptw (cp_solve Ex.world) Ex.two_stops [[0; 1]; [1; 0]] [[0; 1]; [1; 0]]
                 5 100 0 = Ok None
  /\ greedy_fallback [[0; 1]; [1; 0]] [[0; 1]; [1; 0]] 5 100 Ex.two_stops 0
     = Ok (Some [0; 1]%nat)
  /\ match out.2 with
     | Ok r => solver (res_meta r) = "OR_TOOLS"%string
     | _ => False
     end.
Proof. vm_compute. repeat split; reflexivity. Qed.

(** ** The drop loop *)


(** ** Costs of the legs built from a route *)





(** ** Shape of the matrices *)

Lemma fetch_alternatives_square W active modes :
  square (length active) (fetch_alternatives W active modes).1.1
  /\ square (length active) (fetch_alternatives W active modes).1.2.
Proof.
  unfold fetch_alternatives, square. cbn [fst snd].
  rewrite !length_fmap, !length_seq. repeat split; try done.
  all: apply Forall_fmap, Forall_forall; intros i _; simpl;
    by rewrite length_fmap, length_seq.
Qed.


Lemma shrink_square n idx m :
  (idx < n)%nat -> square n m -> square (n - 1) (shrink idx m).
Proof.
  intros Hidx [Hlen Hrows]. unfold shrink, square.
  rewrite length_delete by (apply lookup_lt_is_Some_2; rewrite length_fmap; lia).
  rewrite length_fmap. split; [lia|].
  apply Forall_forall. intros r Hr%list_elem_of_delete_inv.
  apply list_elem_of_fmap in Hr as (r0 & -> & Hr0).
  rewrite Forall_forall in Hrows. specialize (Hrows r0 Hr0).
  rewrite length_delete by (apply lookup_lt_is_Some_2; lia). lia.
Qed.

Lemma shrink_nonneg idx m : nonneg m -> nonneg (shrink idx m).
Proof.
  intros H. unfold shrink, nonneg in *. apply Forall_forall.
  intros r Hr%list_elem_of_delete_inv.
  apply list_elem_of_fmap in Hr as (r0 & -> & Hr0).
  rewrite Forall_forall in H. specialize (H r0 Hr0).
  apply Forall_forall. intros v Hv%list_elem_of_delete_inv.
  rewrite Forall_forall in H. by apply H.
Qed.

Lemma nonneg_entry m i j : nonneg m -> 0 <= entry m i j.
Proof.
  intros H. unfold entry, nonneg in *.
  destruct (m !! i) as [row|] eqn:Hrow; [|done]. simpl.
  destruct (row !! j) as [v|] eqn:Hv; [|done]. simpl.
  rewrite Forall_forall in H. specialize (H row (list_elem_of_lookup_2 _ _ _ Hrow)).
  rewrite Forall_forall in H. apply H. by eapply list_elem_of_lookup_2.
Qed.

(** ** Cost of a greedy route *)

Lemma sumZ_app l k : sumZ (l ++ k) = sumZ l + sumZ k.
Proof. unfold sumZ. induction l as [|x l IH]; simpl; [done|]. rewrite IH. lia. Qed.

Lemma route_edges_snoc route c j :
  last route = Some c -> route_edges (route ++ [j]) = route_edges route ++ [(c, j)].
Proof.
  unfold route_edges. induction route as [|a [|b rest] IH]; intros Hlast; try done.
  - by injection Hlast as ->.
  - specialize (IH Hlast). simpl in *. by rewrite IH.
Qed.

Lemma path_cost_snoc m route c j :
  last route = Some c -> path_cost m (route ++ [j]) = path_cost m route + entry m c j.
Proof.
  intros Hlast. unfold path_cost. rewrite (route_edges_snoc _ c) by done.
  rewrite fmap_app, sumZ_app. unfold sumZ at 2. simpl. lia.
Qed.

Section GreedyCost.
Variables (cost_matrix time_matrix : Matrix).
Variables (budget_cents deadline_seconds : Z) (n : nat).

(** The running cost is the cost of the route so far. *)
Lemma greedy_path_cost s s' :
  greedy_path cost_matrix time_matrix budget_cents deadline_seconds n s s' ->
  last (g_route s) = Some (g_curr s) ->
  g_cost s = path_cost cost_matrix (g_route s) ->
  g_cost s' = path_cost cost_matrix (g_route s')
  /\ (s' = s \/ g_cost s' <= budget_cents).
Proof.
  induction 1 as [s|s j s' Hadm Hmin Hpath IH]; intros Hlast Hcost; [by split; [|left]|].
  destruct IH as [Hc Hb].
  - simpl. by rewrite last_snoc.
  - simpl. rewrite (path_cost_snoc _ _ (g_curr s)) by done. by rewrite Hcost.
  - split; [done|]. right. destruct Hb as [->|Hb]; [|done].
    simpl. by destruct Hadm as (_ & _ & ? & _).
Qed.

Hypothesis Hcost : square n cost_matrix.
Hypothesis Htime : square n time_matrix.

End GreedyCost.

(** ** Cost of a route read off a CP-SAT assignment *)

Lemma route_edges_cons a b rest :
  route_edges (a :: b :: rest) = (a, b) :: route_edges (b :: rest).
Proof. done. Qed.

Lemma edge_source_not_last route c e :
  NoDup route -> last route = Some c -> e ∈ route_edges route -> e.1 <> c.
Proof.
  induction route as [|a [|b rest] IH]; intros Hnd Hlast He.
  - by apply elem_of_nil in He.
  - by apply elem_of_nil in He.
  - rewrite route_edges_cons in He. apply NoDup_cons in Hnd as [Hna Hnd].
    apply elem_of_cons in He as [->|He].
    + simpl. intros ->. apply Hna. by apply last_Some_elem_of.
    + by apply IH.
Qed.

Lemma edge_into route j :
  j ∈ route -> head route <> Some j -> exists p, (p, j) ∈ route_edges route.
Proof.
  induction route as [|a [|b rest] IH]; intros Hin Hhead.
  - by apply elem_of_nil in Hin.
  - apply list_elem_of_singleton in Hin as ->. by simpl in Hhead.
  - apply elem_of_cons in Hin as [->|Hin]; [by simpl in Hhead|].
    rewrite route_edges_cons. destruct (decide (j = b)) as [->|Hne].
    + exists a. apply list_elem_of_here.
    + destruct IH as [p Hp]; [done|simpl; congruence|].
      exists p. by apply list_elem_of_further.
Qed.

Lemma edge_ends_in_route route e : e ∈ route_edges route -> e.1 ∈ route /\ e.2 ∈ route.
Proof.
  induction route as [|a [|b rest] IH]; intros He.
  - by apply elem_of_nil in He.
  - by apply elem_of_nil in He.
  - rewrite route_edges_cons in He. apply elem_of_cons in He as [->|He]; simpl.
    + split; [apply list_elem_of_here|apply list_elem_of_further, list_elem_of_here].
    + destruct (IH He). split; by apply list_elem_of_further.
Qed.

Lemma NoDup_route_edges route : NoDup route -> NoDup (route_edges route).
Proof.
  induction route as [|a [|b rest] IH]; intros Hnd; try apply NoDup_nil_2.
  rewrite route_edges_cons. apply NoDup_cons in Hnd as [Hna Hnd].
  apply NoDup_cons. split; [|by apply IH].
  intros He%edge_ends_in_route. simpl in He. by destruct He.
Qed.

Section Walk.
Variables (x : nat -> nat -> bool) (n start_index : nat).

(** At most one chosen edge enters a node, and one leaves every node. *)
Hypothesis Hin :
  forall p q c, (p < n)%nat -> (q < n)%nat -> (c < n)%nat -> p <> c -> q <> c ->
                x p c = true -> x q c = true -> p = q.
Hypothesis Hout : forall i, (i < n)%nat -> first_successor x n i <> None.

End Walk.

Lemma sumZ_cons v l : sumZ (v :: l) = v + sumZ l.
Proof. done. Qed.

Lemma chosen_cost_cons a w e l :
  chosen_cost a w (e :: l) = (if lit_true a e then w e else 0) + chosen_cost a w l.
Proof. done. Qed.

(** Chosen edges taken once each cost no more than all chosen edges,
    when no cost is negative. *)
Lemma chosen_cost_submseteq a w l k :
  (forall e, 0 <= w e) -> l ⊆+ k -> chosen_cost a w l <= chosen_cost a w k.
Proof.
  intros Hw.
  induction 1 as [|e1 l1 l2 _ IH|e1 e2 l1|e1 l1 l2 _ IH|l1 l2 l3 _ IH1 _ IH2];
    rewrite ?chosen_cost_cons; try lia.
  specialize (Hw e1). destruct (lit_true a e1); lia.
Qed.

Lemma chosen_cost_all a w l :
  (forall e, e ∈ l -> lit_true a e = true) -> chosen_cost a w l = sumZ (w <$> l).
Proof.
  induction l as [|e l IH]; intros Hl; [done|].
  rewrite chosen_cost_cons, fmap_cons, sumZ_cons.
  rewrite Hl by apply list_elem_of_here. rewrite IH; [done|].
  intros e' He'. apply Hl. by apply list_elem_of_further.
Qed.

Lemma linear_value_chosen a w es :
  linear_value a ((fun e => (e, w e)) <$> es) = chosen_cost a w es.
Proof.
  induction es as [|e es IH]; [done|].
  rewrite chosen_cost_cons, <- IH. done.
Qed.

Lemma filter_length_one {A} (P : A -> Prop) `{forall x, Decision (P x)} (l : list A) a b :
  length (filter P l) = 1%nat -> a ∈ l -> b ∈ l -> P a -> P b -> a = b.
Proof.
  intros Hlen Ha Hb HPa HPb.
  assert (a ∈ filter P l) as Ha' by (by apply list_elem_of_filter).
  assert (b ∈ filter P l) as Hb' by (by apply list_elem_of_filter).
  destruct (filter P l) as [|z [|z' rest]]; try done.
  apply list_elem_of_singleton in Ha', Hb'. congruence.
Qed.

Section ModelRoute.
Variables (n : nat) (cost_matrix time_matrix : Matrix).
Variables (budget_cents deadline_seconds : Z) (start_index : nat).
Variable a : Assignment.
Hypothesis Hfeasible :
  feasible a (mkModel (edges n) (replicate n (0, deadline_seconds))
          (flow_constraints n
             ++ [AddEq start_index 0]
             ++ ((fun e => AddGeOnlyIf e.2 e.1 (entry time_matrix e.1 e.2) e) <$> edges n)
             ++ [AddLinearLe ((fun e => (e, entry cost_matrix e.1 e.2)) <$> edges n)
                             budget_cents])
          ((fun e => (e, entry time_matrix e.1 e.2)) <$> edges n)) = true.

Local Abbreviation holds_in_model :=
  (feasible_holds n cost_matrix time_matrix budget_cents deadline_seconds start_index
                  a Hfeasible).

Lemma feasible_in_unique p q c :
  (p < n)%nat -> (q < n)%nat -> (c < n)%nat -> p <> c -> q <> c ->
  x_value a p c = true -> x_value a q c = true -> p = q.
Proof.
  intros Hp Hq Hc Hpc Hqc Hxp Hxq.
  assert (holds a (AddExactlyOne ((fun j => (j, c)) <$> others n c)) = true) as H.
  { apply holds_in_model. rewrite !elem_of_app. left.
    unfold flow_constraints. apply list_elem_of_bind. exists c. split.
    - apply list_elem_of_further, list_elem_of_here.
    - apply elem_of_seq. lia. }
  simpl in H. apply Nat.eqb_eq in H.
  assert ((p, c) = (q, c)) as Heq; [|congruence].
  eapply (filter_length_one _ _ _ _ H); try done.
  - apply list_elem_of_fmap. exists p. split; [done|].
    apply elem_of_others. split; [done|congruence].
  - apply list_elem_of_fmap. exists q. split; [done|].
    apply elem_of_others. split; [done|congruence].
Qed.

Lemma feasible_out i : (i < n)%nat -> first_successor (x_value a) n i <> None.
Proof.
  intros Hi Hnone.
  assert (holds a (AddExactlyOne ((fun j => (i, j)) <$> others n i)) = true) as H.
  { apply holds_in_model. rewrite !elem_of_app. left.
    unfold flow_constraints. apply list_elem_of_bind. exists i. split.
    - apply list_elem_of_here.
    - apply elem_of_seq. lia. }
  apply (exactly_one_exists a) in H as (lit & Hin & Hx).
  apply list_elem_of_fmap in Hin as (j & -> & Hj). apply elem_of_others in Hj as [Hj Hne].
  unfold first_successor in Hnone.
  pose proof (find_none _ _ Hnone j) as Hf. simpl in Hf.
  unfold lit_true in Hx. simpl in Hx. rewrite Hx in Hf.
  rewrite bool_decide_eq_true_2 in Hf by done.
  discriminate Hf. apply list_elem_of_In, elem_of_seq. lia.
Qed.

Lemma feasible_budget :
  chosen_cost a (fun e => entry cost_matrix e.1 e.2) (edges n) <= budget_cents.
Proof.
  assert (holds a (AddLinearLe ((fun e => (e, entry cost_matrix e.1 e.2)) <$> edges n)
                               budget_cents) = true) as H.
  { apply holds_in_model. rewrite !elem_of_app. right; right; right.
    apply list_elem_of_here. }
  simpl in H. apply Z.leb_le in H.
  by rewrite (linear_value_chosen a (fun e => entry cost_matrix e.1 e.2)) in H.
Qed.

(** A walk along chosen edges costs no more than the budget. *)
Lemma walk_within_budget route :
  nonneg cost_matrix ->
  walk_ok (x_value a) n start_index route ->
  path_cost cost_matrix route <= budget_cents.
Proof.
  intros Hnn (_ & Hnd & Hlt & Hedges).
  etransitivity; [|apply feasible_budget].
  unfold path_cost.
  rewrite <- (chosen_cost_all a (fun e => entry cost_matrix e.1 e.2)).
  2:{ intros e He. by apply Hedges. }
  apply chosen_cost_submseteq; [intros e; by apply nonneg_entry|].
  apply NoDup_submseteq; [by apply NoDup_route_edges|].
  intros [p q] He. destruct (Hedges _ He) as [_ Hne].
  destruct (edge_ends_in_route _ _ He) as [Hp Hq]. simpl in *.
  rewrite Forall_forall in Hlt. apply elem_of_edges. repeat split; auto.
Qed.
End ModelRoute.


(** ** Budget of the answer *)






(** ** Priorities in the drop loop *)


Lemma head_delete_S {A} (l : list A) i : head (delete (S i) l) = head l.
Proof. by destruct l. Qed.


Lemma elem_of_delete_or {A} (l : list A) i r :
  r ∈ l -> r ∈ delete i l \/ l !! i = Some r.
Proof.
  revert i. induction l as [|a l IH]; intros i Hr; [by apply elem_of_nil in Hr|].
  destruct i as [|i]; simpl.
  - apply elem_of_cons in Hr as [->|Hr]; [by right|by left].
  - apply elem_of_cons in Hr as [->|Hr]; [left; apply list_elem_of_here|].
    destruct (IH i Hr) as [?|?]; [left; by apply list_elem_of_further|by right].
Qed.


Lemma get_stop_upd_eq f r st :
  (r < length (stop_heap st))%nat -> get_stop (upd_stop f r st) r = f (get_stop st r).
Proof.
  intros Hr. unfold get_stop, upd_stop; simpl.
  destruct (lookup_lt_is_Some_2 _ _ Hr) as [x Hx].
  rewrite (list_lookup_total_correct _ _ _ Hx).
  apply list_lookup_total_correct. by rewrite list_lookup_alter_eq, Hx.
Qed.

Lemma get_stop_upd_ne f r r' st : r <> r' -> get_stop (upd_stop f r st) r' = get_stop st r'.
Proof.
  intros Hne. unfold get_stop, upd_stop; simpl.
  rewrite !list_lookup_total_alt. by rewrite list_lookup_alter_ne.
Qed.




(** Step 1 on the working copy: the copied stops, each after
    [step1_stop]. *)
Lemma stop_heap_step1 st r event :
  let w := model_copy_deep st r in
  stop_heap (apply_disruption w.1 w.2 event)
  = stop_heap st ++ (step1_stop event <$> (get_stop st <$> stops (get_itin st r))).
Proof.
  intros w. pose proof (get_itin_copy st r) as Hcopy. fold w in Hcopy.
  assert (stop_heap w.1 = stop_heap st ++ (get_stop st <$> stops (get_itin st r))) as Hheap.
  { subst w. by rewrite model_copy_deep_eq. }
  unfold apply_disruption, step1_stop. rewrite Hcopy. cbn [legs stops].
  destruct (event_type event).
  - destruct (for_each_leg_frame (disrupt_leg event)
                (seq (length (leg_heap st)) (length (legs (get_itin st r)))) w.1)
      as (-> & _). rewrite Hheap. by rewrite list_fmap_id.
  - destruct (for_each_leg_frame (disrupt_leg event)
                (seq (length (leg_heap st)) (length (legs (get_itin st r)))) w.1)
      as (-> & _). rewrite Hheap. by rewrite list_fmap_id.
  - destruct (truthy_str (affectedStopId event)).
    + match goal with |- context [for_each_leg ?f ?rs ?s] =>
        destruct (for_each_leg_frame f rs s) as (-> & _) end.
      pose proof (for_each_stop_block
                    (close_stop event (default ""%string (affectedStopId event))) w.1
                    (stop_heap st) (get_stop st <$> stops (get_itin st r)) []) as Hb.
      rewrite length_fmap, !app_nil_r in Hb. by apply Hb.
    + rewrite Hheap. by rewrite list_fmap_id.
  - destruct (severity event); try (rewrite Hheap; by rewrite list_fmap_id).
    all: destruct (for_each_leg_frame weather_leg
                (seq (length (leg_heap st)) (length (legs (get_itin st r)))) w.1)
      as (-> & _); rewrite Hheap; by rewrite list_fmap_id.
Qed.



Lemma reflect_drop_dropped ds s :
  stop_status s = DROPPED -> stop_status (reflect_drop ds s) = DROPPED.
Proof. intros Hs. unfold reflect_drop. by destruct (find _ ds). Qed.




(** * Further properties *)

(** ** The routes of the greedy fallback *)

Section GreedyRoute.
Variables (cost_matrix time_matrix : Matrix).
Variables (budget_cents deadline_seconds : Z) (n : nat).

Local Abbreviation path :=
  (greedy_path cost_matrix time_matrix budget_cents deadline_seconds n).

Lemma greedy_path_tracks s s' :
  path s s' -> route_tracks s ->
  route_tracks s' /\ head (g_route s') = head (g_route s).
Proof.
  induction 1 as [s|s j s' Hadm Hmin Hpath IH]; intros (Hv & Hnd & Hlast); [done|].
  destruct IH as [Htr Hhead].
  - split; [|split]; simpl.
    + rewrite list_to_set_app_L, Hv. simpl.
      rewrite (right_id_L ∅ (∪)). apply (comm_L (∪)).
    + apply NoDup_app. split; [done|]. split; [|apply NoDup_singleton].
      intros i Hi ->%list_elem_of_singleton.
      destruct Hadm as (_ & Hnv & _). apply Hnv. rewrite Hv. by apply elem_of_list_to_set.
    + by rewrite last_snoc.
  - split; [done|]. rewrite Hhead. simpl. by destruct (g_route s).
Qed.

(** The running time is the time of the route so far. *)
Lemma greedy_path_time s s' :
  path s s' ->
  last (g_route s) = Some (g_curr s) ->
  g_time s = path_cost time_matrix (g_route s) ->
  g_time s' = path_cost time_matrix (g_route s')
  /\ (s' = s \/ g_time s' <= deadline_seconds).
Proof.
  induction 1 as [s|s j s' Hadm Hmin Hpath IH]; intros Hlast Htime; [by split; [|left]|].
  destruct IH as [Hc Hb].
  - simpl. by rewrite last_snoc.
  - simpl. rewrite (path_cost_snoc _ _ (g_curr s)) by done. by rewrite Htime.
  - split; [done|]. right. destruct Hb as [->|Hb]; [|done].
    simpl. by destruct Hadm as (_ & _ & _ & ?).
Qed.

Hypothesis Hcost : square n cost_matrix.
Hypothesis Htime : square n time_matrix.

(** What a route of the greedy fallback is made of. *)
Lemma greedy_fallback_route stops start_index route :
  length stops = n -> (start_index < n)%nat ->
  greedy_fallback cost_matrix time_matrix budget_cents deadline_seconds stops start_index
  = Ok (Some route) ->
  exists s,
    path (mkGreedy {[start_index]} [start_index] start_index 0 0) s
    /\ greedy_inv n s
    /\ (forall j, (j < n)%nat -> j ∈ g_visited s)
    /\ route = g_route s
    /\ closing_edge_fits cost_matrix time_matrix budget_cents deadline_seconds s start_index
       = true.
Proof.
  intros Hlen Hstart Hrun. unfold greedy_fallback in Hrun. rewrite Hlen in Hrun.
  set (s0 := mkGreedy {[start_index]} [start_index] start_index 0 0) in *.
  assert (greedy_inv n s0) as Hinv0.
  { split; simpl; [lia|]. intros j ->%elem_of_singleton. lia. }
  assert (n <= size (g_visited s0) + n)%nat as Hfuel0 by lia.
  destruct (greedy_loop_spec cost_matrix time_matrix budget_cents deadline_seconds
              n Hcost Htime n s0 Hinv0 Hfuel0) as (s & Hpath & Hinv & Hres).
  destruct Hres as [(Hloop & _)|(Hloop & Hsz)]; rewrite Hloop in Hrun; simpl in Hrun;
    [discriminate Hrun|].
  rewrite (closing_fits_entry _ _ _ _ n) in Hrun by done. simpl in Hrun.
  destruct (closing_edge_fits _ _ _ _ _ _) eqn:Hfits; [|discriminate Hrun].
  injection Hrun as <-. exists s.
  split; [done|]. split; [done|]. split; [|done].
  by apply greedy_inv_full.
Qed.
End GreedyRoute.

(** A route of the greedy fallback is a round trip through every index
    that fits budget and deadline. *)
Lemma greedy_fallback_tour
        cost_matrix time_matrix budget_cents deadline_seconds stops start_index route :
  let n := length stops in
  square n cost_matrix ->
  square n time_matrix ->
  (start_index < n)%nat ->
  greedy_fallback cost_matrix time_matrix budget_cents deadline_seconds stops start_index
  = Ok (Some route) ->
  route ≡ₚ seq 0 n
  /\ head route = Some start_index
  /\ exists c,
      last route = Some c
      /\ path_cost cost_matrix route + entry cost_matrix c start_index <= budget_cents
      /\ path_cost time_matrix route + entry time_matrix c start_index <= deadline_seconds.
Proof.
  intros n Hc Ht Hstart Hrun.
  destruct (greedy_fallback_route _ _ _ _ n Hc Ht stops start_index route eq_refl Hstart Hrun)
    as (s & Hpath & Hinv & Hfull & -> & Hfits).
  set (s0 := mkGreedy {[start_index]} [start_index] start_index 0 0) in *.
  assert (route_tracks s0) as Htr0.
  { split; [|split]; simpl; [by rewrite (right_id_L ∅ (∪))|apply NoDup_singleton|done]. }
  destruct (greedy_path_tracks _ _ _ _ _ _ _ Hpath Htr0) as [(Hv & Hnd & Hlast) Hhead].
  destruct (greedy_path_cost _ _ _ _ _ _ _ Hpath eq_refl eq_refl) as [Hcost _].
  destruct (greedy_path_time _ _ _ _ _ _ _ Hpath eq_refl eq_refl) as [Htime _].
  split; [|split; [done|]].
  - apply NoDup_Permutation; [done|apply NoDup_seq|].
    intros j. rewrite elem_of_seq. split.
    + intros Hj. destruct Hinv as [_ Hin]. specialize (Hin j).
      rewrite Hv, elem_of_list_to_set in Hin. specialize (Hin Hj). lia.
    + intros Hj. specialize (Hfull j). rewrite Hv, elem_of_list_to_set in Hfull.
      apply Hfull. lia.
  - exists (g_curr s). split; [done|].
    unfold closing_edge_fits in Hfits. apply andb_true_iff in Hfits as [H1 H2].
    apply Z.leb_le in H1, H2. rewrite <- Hcost, <- Htime. done.
Qed.


(** X1.  On square matrices and a start index in range, a route the
    greedy fallback returns visits every index exactly once, starts at
    the start index, and its round trip back to the start stays within
    the budget and within the deadline. *)
Theorem greedy_fallback_route_is_feasible_tour
        cost_matrix time_matrix budget_cents deadline_seconds stops start_index route :
  let n := length stops in
  square n cost_matrix ->
  square n time_matrix ->
  (start_index < n)%nat ->
  greedy_fallback cost_matrix time_matrix budget_cents deadline_seconds stops start_index
  = Ok (Some route) ->
  route ≡ₚ seq 0 n
  /\ head route = Some start_index
  /\ exists c,
      last route = Some c
      /\ path_cost cost_matrix route + entry cost_matrix c start_index <= budget_cents
      /\ path_cost time_matrix route + entry time_matrix c start_index <= deadline_seconds.
Proof. apply greedy_fallback_tour. Qed.

Lemma greedy_fallback_route_is_feasible_tour_witness :
  [0; 1; 2]%nat ≡ₚ seq 0 3
  /\ head [0; 1; 2]%nat = Some 0%nat
  /\ exists c,
      last [0; 1; 2]%nat = Some c
      /\ path_cost Ex2.cost3 [0; 1; 2]%nat + entry Ex2.cost3 c 0 <= 4
      /\ path_cost Ex2.time3 [0; 1; 2]%nat + entry Ex2.time3 c 0 <= 10.
Proof.
  apply (greedy_fallback_route_is_feasible_tour Ex2.cost3 Ex2.time3 4 10 Ex2.three_stops
                                                0 [0; 1; 2]%nat).
  - split; [reflexivity|]. repeat constructor.
  - split; [reflexivity|]. repeat constructor.
  - simpl. lia.
  - vm_compute. reflexivity.
Defined.

(** The greedy fallback returns on square matrices. *)
Lemma greedy_fallback_ok cost_matrix time_matrix budget_cents deadline_seconds stops
      start_index :
  square (length stops) cost_matrix ->
  square (length stops) time_matrix ->
  (start_index < length stops)%nat ->
  exists r, greedy_fallback cost_matrix time_matrix budget_cents deadline_seconds
                            stops start_index = Ok r.
Proof.
  intros Hc Ht Hstart. unfold greedy_fallback.
  set (n := length stops) in *.
  set (s0 := mkGreedy {[start_index]} [start_index] start_index 0 0).
  assert (greedy_inv n s0) as Hinv0.
  { split; simpl; [lia|]. intros j ->%elem_of_singleton. lia. }
  assert (n <= size (g_visited s0) + n)%nat as Hfuel0 by lia.
  destruct (greedy_loop_spec cost_matrix time_matrix budget_cents deadline_seconds
              n Hc Ht n s0 Hinv0 Hfuel0)
    as (s & _ & Hinv & [(-> & _)|(-> & _)]); simpl; [by eexists|].
  rewrite (closing_fits_entry _ _ _ _ n) by done. simpl.
  destruct (closing_edge_fits _ _ _ _ _ _); by eexists.
Qed.



(** ** The routes of the exact solver *)

Section WalkOn.
Variables (x : nat -> nat -> bool) (n start_index : nat).

Hypothesis Hin :
  forall p q c, (p < n)%nat -> (q < n)%nat -> (c < n)%nat -> p <> c -> q <> c ->
                x p c = true -> x q c = true -> p = q.
Hypothesis Hout : forall i, (i < n)%nat -> first_successor x n i <> None.

Lemma first_successor_Some curr j :
  first_successor x n curr = Some j -> (j < n)%nat /\ curr <> j /\ x curr j = true.
Proof.
  unfold first_successor. intros [Hj Hxj]%find_some.
  apply list_elem_of_In, elem_of_seq in Hj.
  apply andb_true_iff in Hxj as [Hne%bool_decide_eq_true Hxj].
  split; [lia|done].
Qed.

Lemma walk_ok_curr route curr :
  walk_ok x n start_index route -> last route = Some curr -> (curr < n)%nat.
Proof.
  intros (_ & _ & Hlt & _) Hlast. rewrite Forall_forall in Hlt.
  by apply Hlt, last_Some_elem_of.
Qed.

(** One round of the walk keeps it a walk. *)
Lemma walk_ok_step route curr j :
  walk_ok x n start_index route ->
  last route = Some curr ->
  first_successor x n curr = Some j ->
  j <> start_index ->
  walk_ok x n start_index (route ++ [j]).
Proof.
  intros Hwalk Hlast Hsucc Hstart.
  pose proof (walk_ok_curr _ _ Hwalk Hlast) as Hcurr.
  destruct Hwalk as (Hhead & Hnd & Hlt & Hedges).
  apply first_successor_Some in Hsucc as (Hj & Hne & Hxj).
  split; [|split; [|split]].
  - by destruct route.
  - apply NoDup_app. split; [done|]. split; [|apply NoDup_singleton].
    intros j' Hj' ->%list_elem_of_singleton.
    destruct (edge_into route j) as [p Hp]; [done|congruence|].
    destruct (Hedges _ Hp) as [Hxp Hpne]. simpl in *.
    pose proof (edge_source_not_last route curr _ Hnd Hlast Hp) as Hpc. simpl in Hpc.
    apply Hpc. apply (Hin p curr j); try done.
    rewrite Forall_forall in Hlt. apply Hlt. by apply (edge_ends_in_route _ _ Hp).
  - apply Forall_app. split; [done|]. by apply Forall_singleton.
  - intros e He. rewrite (route_edges_snoc _ curr) in He by done.
    apply elem_of_app in He as [He|He]; [by apply Hedges|].
    apply list_elem_of_singleton in He as ->. done.
Qed.

(** A walk that passes no node twice has at most [n] nodes, so the
    [while True] loop is left within [n] rounds. *)
Lemma walk_ok_length route : walk_ok x n start_index route -> (length route <= n)%nat.
Proof.
  intros (_ & Hnd & Hlt & _).
  assert (route ⊆+ seq 0 n) as Hsub.
  { apply NoDup_submseteq; [done|].
    intros i Hi. rewrite Forall_forall in Hlt. apply elem_of_seq.
    specialize (Hlt i Hi). lia. }
  apply submseteq_length in Hsub. by rewrite length_seq in Hsub.
Qed.

Lemma reconstruct_returns fuel curr next_node route :
  walk_ok x n start_index route ->
  last route = Some curr ->
  (n < fuel + length route)%nat ->
  exists res, reconstruct fuel x n start_index curr next_node route = Ok res.
Proof.
  revert curr next_node route.
  induction fuel as [|fuel IH]; intros curr next_node route Hwalk Hlast Hfuel.
  { apply walk_ok_length in Hwalk. lia. }
  simpl.
  destruct (first_successor x n curr) as [j|] eqn:Hsucc;
    [|by apply Hout in Hsucc; [|eapply walk_ok_curr]].
  destruct (j =? start_index)%nat eqn:Hstart; [by eexists|].
  apply Nat.eqb_neq in Hstart.
  apply IH; [by eapply walk_ok_step|by rewrite last_snoc|].
  rewrite length_app. simpl. lia.
Qed.

(** The loop is left at a node whose chosen edge goes back to the
    start. *)
Lemma reconstruct_closes fuel curr next_node route res :
  walk_ok x n start_index route ->
  last route = Some curr ->
  reconstruct fuel x n start_index curr next_node route = Ok res ->
  walk_ok x n start_index res
  /\ exists c, last res = Some c /\ c <> start_index /\ x c start_index = true.
Proof.
  revert curr next_node route.
  induction fuel as [|fuel IH]; intros curr next_node route Hwalk Hlast Hrun; [done|].
  simpl in Hrun.
  destruct (first_successor x n curr) as [j|] eqn:Hsucc;
    [|by apply Hout in Hsucc; [|eapply walk_ok_curr]].
  destruct (j =? start_index)%nat eqn:Hstart.
  - apply Nat.eqb_eq in Hstart as ->. injection Hrun as <-. split; [done|].
    apply first_successor_Some in Hsucc as (_ & Hne & Hx). by exists curr.
  - apply Nat.eqb_neq in Hstart.
    eapply IH; [|by rewrite last_snoc|exact Hrun]. by eapply walk_ok_step.
Qed.
End WalkOn.

Lemma walk_ok_start x n start_index :
  (start_index < n)%nat -> walk_ok x n start_index [start_index].
Proof.
  intros Hstart. split; [done|]. split; [apply NoDup_singleton|]. split.
  - by apply Forall_singleton.
  - intros e He. by apply elem_of_nil in He.
Qed.

(** Arrival times grow along chosen edges by at least the travel time. *)
Lemma walk_arrival (t : nat -> Z) (m : Matrix) route h c :
  (forall e, e ∈ route_edges route -> t e.1 + entry m e.1 e.2 <= t e.2) ->
  head route = Some h ->
  last route = Some c ->
  t h + path_cost m route <= t c.
Proof.
  revert h. induction route as [|a [|b rest] IH]; intros h Hedges Hhead Hlast; [done|..].
  - simpl in *. injection Hhead as <-. injection Hlast as <-.
    unfold path_cost. simpl. lia.
  - injection Hhead as <-.
    assert (t b + path_cost m (b :: rest) <= t c) as IH'.
    { apply IH; [|done|done]. intros e He. apply Hedges.
      rewrite route_edges_cons. by apply list_elem_of_further. }
    specialize (Hedges (a, b)). simpl in Hedges.
    unfold path_cost in *. rewrite route_edges_cons, fmap_cons, sumZ_cons. simpl.
    assert (t a + entry m a b <= t b) by (apply Hedges; rewrite route_edges_cons; left).
    lia.
Qed.

(** What the exact solver does on square matrices: the model is not
    built when an integer does not fit [int64]; otherwise either the
    search reports nothing, or the route is read off an assignment that
    satisfies the model. *)
Lemma solve_vrptw_inv cp stops cost_matrix time_matrix budget_cents deadline_seconds
      start_index :
  let n := length stops in
  cp_sound cp ->
  (2 <= n)%nat ->
  square n cost_matrix ->
  square n time_matrix ->
  (start_index < n)%nat ->
  (ints_fit n cost_matrix time_matrix budget_cents deadline_seconds = false
   /\ solve_vrptw cp stops cost_matrix time_matrix budget_cents deadline_seconds
                  start_index = Raise TypeError)
  \/ (ints_fit n cost_matrix time_matrix budget_cents deadline_seconds = true
      /\ solve_vrptw cp stops cost_matrix time_matrix budget_cents deadline_seconds
                     start_index = Ok None)
  \/ exists a route c,
      ints_fit n cost_matrix time_matrix budget_cents deadline_seconds = true
      /\ feasible a (vrptw_model n cost_matrix time_matrix budget_cents deadline_seconds
                                 start_index) = true
      /\ solve_vrptw cp stops cost_matrix time_matrix budget_cents deadline_seconds
                     start_index = Ok (Some route)
      /\ walk_ok (x_value a) n start_index route
      /\ last route = Some c /\ c <> start_index /\ x_value a c start_index = true.
Proof.
  intros n Hsound Hn Hc Ht Hstart. unfold solve_vrptw. fold n.
  destruct (n <=? 1)%nat eqn:Hle; [apply Nat.leb_le in Hle; lia|].
  rewrite build_model_run by done.
  destruct (ints_fit n cost_matrix time_matrix budget_cents deadline_seconds);
    [|by left]. right. simpl.
  destruct (cp _) as [a|] eqn:Hsolve; [|by left]. right.
  apply Hsound in Hsolve.
  pose proof (feasible_in_unique _ _ _ _ _ _ a Hsolve) as Hin.
  pose proof (feasible_out _ _ _ _ _ _ a Hsolve) as Hout.
  pose proof (walk_ok_start (x_value a) n start_index Hstart) as Hwalk0.
  destruct (reconstruct_returns (x_value a) n start_index Hin Hout
              n start_index None [start_index] Hwalk0 eq_refl) as [res Hres].
  { simpl. lia. }
  rewrite Hres.
  destruct (reconstruct_closes (x_value a) n start_index Hin Hout
              n start_index None [start_index] res Hwalk0 eq_refl Hres)
    as (Hwalk & c & Hlast & Hne & Hx).
  exists a, res, c. done.
Qed.



(** A route of the exact solver is a simple path from the start whose
    round trip takes no time. *)
Lemma solve_vrptw_route
        cp stops cost_matrix time_matrix budget_cents deadline_seconds start_index route :
  let n := length stops in
  cp_sound cp ->
  (2 <= n)%nat ->
  square n cost_matrix ->
  square n time_matrix ->
  (start_index < n)%nat ->
  solve_vrptw cp stops cost_matrix time_matrix budget_cents deadline_seconds start_index
  = Ok (Some route) ->
  head route = Some start_index
  /\ NoDup route
  /\ Forall (fun i => (i < n)%nat) route
  /\ path_cost time_matrix route <= deadline_seconds
  /\ (exists c,
        last route = Some c
        /\ path_cost time_matrix route + entry time_matrix c start_index <= 0)
  /\ (nonneg cost_matrix -> path_cost cost_matrix route <= budget_cents).
Proof.
  intros n Hsound Hn Hc Ht Hstart Hrun.
  destruct (solve_vrptw_inv cp stops cost_matrix time_matrix budget_cents
              deadline_seconds start_index Hsound Hn Hc Ht Hstart)
    as [[_ Hnone]|[[_ Hnone]|(a & route' & c & _ & Hfeas & Hsome & Hwalk & Hlast & Hne & Hx)]].
  { fold n in Hnone. congruence. }
  { fold n in Hnone. congruence. }
  fold n in Hsome. rewrite Hsome in Hrun. injection Hrun as ->.
  pose proof Hwalk as (Hhead & Hnd & Hlt & Hedges).
  assert (c < n)%nat as Hcn by (by eapply walk_ok_curr).
  assert (t_value a start_index + path_cost time_matrix route <= t_value a c) as Harr.
  { apply walk_arrival; [|done|done].
    intros e He. destruct (Hedges e He) as [Hxe Hene].
    destruct (edge_ends_in_route _ _ He) as [H1 H2].
    rewrite Forall_forall in Hlt.
    by apply (feasible_precedence _ _ _ _ _ _ a Hfeas); [apply Hlt|apply Hlt|..]. }
  rewrite (feasible_t_start _ _ _ _ _ _ a Hfeas) in Harr.
  pose proof (feasible_t_bounds _ _ _ _ _ _ Hstart a Hfeas c Hcn) as Hbound.
  pose proof (feasible_precedence _ _ _ _ _ _ a Hfeas c start_index Hcn Hstart Hne Hx)
    as Hback.
  rewrite (feasible_t_start _ _ _ _ _ _ a Hfeas) in Hback.
  split; [done|]. split; [done|]. split; [done|]. split; [lia|]. split.
  - exists c. split; [done|lia].
  - intros Hnn. by apply (walk_within_budget _ _ _ _ _ _ a Hfeas).
Qed.


(** X4.  A route the exact solver returns for two stops or more starts
    at the start index, passes no index twice, stays inside the matrices,
    and the travel times along it, with the time of going back to the
    start added, sum to zero or less; so they stay within the deadline.
    When no cost is negative the costs along it stay within the budget. *)
Theorem solve_vrptw_route_closes_in_no_time
        cp stops cost_matrix time_matrix budget_cents deadline_seconds start_index route :
  let n := length stops in
  cp_sound cp ->
  (2 <= n)%nat ->
  square n cost_matrix ->
  square n time_matrix ->
  (start_index < n)%nat ->
  solve_vrptw cp stops cost_matrix time_matrix budget_cents deadline_seconds start_index
  = Ok (Some route) ->
  head route = Some start_index
  /\ NoDup route
  /\ Forall (fun i => (i < n)%nat) route
  /\ path_cost time_matrix route <= deadline_seconds
  /\ (exists c,
        last route = Some c
        /\ path_cost time_matrix route + entry time_matrix c start_index <= 0)
  /\ (nonneg cost_matrix -> path_cost cost_matrix route <= budget_cents).
Proof. apply solve_vrptw_route. Qed.

Lemma solve_vrptw_route_closes_in_no_time_witness :
  head [0; 1]%nat = Some 0%nat
  /\ NoDup [0; 1]%nat
  /\ Forall (fun i => (i < 2)%nat) [0; 1]%nat
  /\ path_cost Ex2.zero2 [0; 1]%nat <= 100
  /\ (exists c,
        last [0; 1]%nat = Some c
        /\ path_cost Ex2.zero2 [0; 1]%nat + entry Ex2.zero2 c 0 <= 0)
  /\ (nonneg Ex2.zero2 -> path_cost Ex2.zero2 [0; 1]%nat <= 7).
Proof.
  apply (solve_vrptw_route_closes_in_no_time Ex2.cp_round_trip Ex.two_stops
           Ex2.zero2 Ex2.zero2 7 100 0 [0; 1]%nat).
  - intros m a. unfold Ex2.cp_round_trip.
    destruct (feasible Ex2.round_trip m) eqn:Hm; [|discriminate].
    intros Ha. by injection Ha as <-.
  - simpl. lia.
  - split; [reflexivity|]. repeat constructor.
  - split; [reflexivity|]. repeat constructor.
  - simpl. lia.
  - vm_compute. reflexivity.
Defined.

(** ** Step 1 on every kind of event *)

(** A loop that assigns to the objects a list of references designates,
    seen from the heap. *)
Lemma foldl_alter_imap {A} (f : A -> A) (rs : list nat) (l : list A) :
  (forall x, f (f x) = f x) ->
  foldl (fun l r => alter f r l) l rs
  = imap (fun i x => if bool_decide (i ∈ rs) then f x else x) l.
Proof.
  intros Hidem. revert l. induction rs as [|r rs IH]; intros l.
  - simpl. apply list_eq. intros i. rewrite list_lookup_imap.
    by destruct (l !! i).
  - simpl. rewrite IH. apply list_eq. intros i. rewrite !list_lookup_imap.
    destruct (decide (i = r)) as [->|Hne].
    + rewrite list_lookup_alter_eq. destruct (l !! r); [|done]. simpl. f_equal.
      rewrite (bool_decide_eq_true_2 (r ∈ r :: rs)) by left.
      destruct (bool_decide (r ∈ rs)); [apply Hidem|done].
    + rewrite list_lookup_alter_ne by done. destruct (l !! i); [|done]. simpl. f_equal.
      assert (bool_decide (i ∈ rs) = bool_decide (i ∈ r :: rs)) as ->; [|done].
      apply bool_decide_ext. rewrite elem_of_cons.
      split; [by right|]. by intros [?|?].
Qed.

Lemma leg_heap_for_each_leg f rs st :
  leg_heap (for_each_leg f rs st) = foldl (fun l r => alter f r l) (leg_heap st) rs.
Proof.
  revert st. induction rs as [|r rs IH]; intros st; [done|].
  unfold for_each_leg in *. simpl. by rewrite IH.
Qed.

Lemma stop_heap_for_each_stop f rs st :
  stop_heap (for_each_stop f rs st) = foldl (fun l r => alter f r l) (stop_heap st) rs.
Proof.
  revert st. induction rs as [|r rs IH]; intros st; [done|].
  unfold for_each_stop in *. simpl. by rewrite IH.
Qed.

Lemma imap_id_if {A} (P : nat -> bool) (l : list A) :
  imap (fun i x => if P i then x else x) l = l.
Proof.
  apply list_eq. intros i. rewrite list_lookup_imap.
  destruct (l !! i); [|done]. simpl. by destruct (P i).
Qed.

Lemma close_stop_idem event sid s :
  close_stop event sid (close_stop event sid s) = close_stop event sid s.
Proof.
  unfold close_stop.
  destruct (String.eqb (stop_id s) sid && bool_decide (stop_status s = PENDING)) eqn:Hc;
    [|by rewrite Hc].
  simpl. by rewrite andb_false_r.
Qed.

Lemma close_leg_idem sid l : close_leg sid (close_leg sid l) = close_leg sid l.
Proof.
  unfold close_leg.
  destruct (String.eqb (fromStopId l) sid || String.eqb (toStopId l) sid) eqn:Hc;
    [|by rewrite Hc].
  simpl. by rewrite Hc.
Qed.

Lemma weather_leg_idem l : weather_leg (weather_leg l) = weather_leg l.
Proof.
  destruct l as [f t [] c d a p fs fl]; reflexivity.
Qed.

Lemma step1_leg_idem event l : step1_leg event (step1_leg event l) = step1_leg event l.
Proof.
  unfold step1_leg. destruct (event_type event).
  - apply disrupt_leg_idem.
  - apply disrupt_leg_idem.
  - destruct (truthy_str _); [apply close_leg_idem|done].
  - destruct (severity event); [done|apply weather_leg_idem..].
Qed.

Lemma step1_stop_idem event s : step1_stop event (step1_stop event s) = step1_stop event s.
Proof.
  unfold step1_stop. destruct (event_type event); try done.
  destruct (truthy_str _); [apply close_stop_idem|done].
Qed.

(** Step 1 seen from the heaps: the body for the event runs on every
    leg and on every stop the itinerary refers to, and on nothing else. *)
Lemma apply_disruption_heaps st itin event :
  let it := get_itin st itin in
  let st' := apply_disruption st itin event in
  stop_heap st'
  = imap (fun i s => if bool_decide (i ∈ stops it) then step1_stop event s else s)
         (stop_heap st)
  /\ leg_heap st'
     = imap (fun i l => if bool_decide (i ∈ legs it) then step1_leg event l else l)
            (leg_heap st)
  /\ itin_heap st' = itin_heap st
  /\ call_log st' = call_log st.
Proof.
  intros it st'.
  destruct (apply_disruption_frame st itin event) as [Hi Hc]. fold st' in Hi, Hc.
  split; [|split; [|done]]; subst st'; unfold apply_disruption, step1_stop, step1_leg;
    fold it; destruct (event_type event).
  - destruct (for_each_leg_frame (disrupt_leg event) (legs it) st) as (-> & _).
    by rewrite imap_id_if.
  - destruct (for_each_leg_frame (disrupt_leg event) (legs it) st) as (-> & _).
    by rewrite imap_id_if.
  - destruct (truthy_str _); [|by rewrite imap_id_if].
    match goal with |- context [for_each_leg ?f ?rs ?s] =>
      destruct (for_each_leg_frame f rs s) as (-> & _) end.
    rewrite stop_heap_for_each_stop. apply foldl_alter_imap. apply close_stop_idem.
  - destruct (severity event); rewrite imap_id_if; [done|..];
      by destruct (for_each_leg_frame weather_leg (legs it) st) as (-> & _).
  - rewrite leg_heap_for_each_leg. apply foldl_alter_imap, disrupt_leg_idem.
  - rewrite leg_heap_for_each_leg. apply foldl_alter_imap, disrupt_leg_idem.
  - destruct (truthy_str _); [|by rewrite imap_id_if].
    rewrite leg_heap_for_each_leg.
    match goal with |- context [for_each_stop ?f ?rs ?s] =>
      destruct (for_each_stop_frame f rs s) as (-> & _) end.
    apply foldl_alter_imap, close_leg_idem.
  - destruct (severity event); [by rewrite imap_id_if|..];
      rewrite leg_heap_for_each_leg; apply foldl_alter_imap, weather_leg_idem.
Qed.

(** The same, for one leg and for one stop of the itinerary. *)
Lemma apply_disruption_leg st itin event r :
  wf_itin st itin -> r ∈ legs (get_itin st itin) ->
  get_leg (apply_disruption st itin event) r = step1_leg event (get_leg st r).
Proof.
  intros (_ & _ & Hwf) Hr. rewrite Forall_forall in Hwf. specialize (Hwf r Hr).
  destruct (apply_disruption_heaps st itin event) as (_ & Hl & _).
  unfold get_leg. rewrite Hl.
  destruct (lookup_lt_is_Some_2 _ _ Hwf) as [l Hlk].
  rewrite (list_lookup_total_correct _ _ _ Hlk).
  apply list_lookup_total_correct. rewrite list_lookup_imap, Hlk. simpl.
  by rewrite bool_decide_eq_true_2.
Qed.

Lemma apply_disruption_stop st itin event r :
  wf_itin st itin -> r ∈ stops (get_itin st itin) ->
  get_stop (apply_disruption st itin event) r = step1_stop event (get_stop st r).
Proof.
  intros (_ & Hwf & _) Hr. rewrite Forall_forall in Hwf. specialize (Hwf r Hr).
  destruct (apply_disruption_heaps st itin event) as (Hs & _).
  unfold get_stop. rewrite Hs.
  destruct (lookup_lt_is_Some_2 _ _ Hwf) as [s Hlk].
  rewrite (list_lookup_total_correct _ _ _ Hlk).
  apply list_lookup_total_correct. rewrite list_lookup_imap, Hlk. simpl.
  by rewrite bool_decide_eq_true_2.
Qed.

(** X5.  Applying the same disruption a second time changes nothing:
    step 1 is idempotent, whatever the event. *)
Theorem apply_disruption_idempotent st itin event :
  apply_disruption (apply_disruption st itin event) itin event
  = apply_disruption st itin event.
Proof.
  destruct (apply_disruption_heaps st itin event) as (Hs & Hl & Hi & Hc).
  destruct (apply_disruption_heaps (apply_disruption st itin event) itin event)
    as (Hs' & Hl' & Hi' & Hc').
  cbv zeta in *. rewrite get_itin_apply_disruption in Hs', Hl'.
  apply store_eq; [| |congruence|congruence].
  - rewrite Hs', Hs. apply list_eq. intros i. rewrite !list_lookup_imap.
    destruct (stop_heap st !! i); [|done]. simpl. f_equal.
    destruct (bool_decide _); [apply step1_stop_idem|done].
  - rewrite Hl', Hl. apply list_eq. intros i. rewrite !list_lookup_imap.
    destruct (leg_heap st !! i); [|done]. simpl. f_equal.
    destruct (bool_decide _); [apply step1_leg_idem|done].
Qed.

Lemma lookup_total_imap_if {A} `{Inhabited A} (P : nat -> bool) (f : A -> A) l r :
  imap (fun i x => if P i then f x else x) l !!! r
  = if P r && bool_decide (r < length l)%nat then f (l !!! r) else l !!! r.
Proof.
  rewrite !list_lookup_total_alt, list_lookup_imap.
  destruct (l !! r) as [x|] eqn:Hlk; simpl.
  - apply lookup_lt_Some in Hlk. rewrite bool_decide_eq_true_2 by done.
    by rewrite andb_true_r.
  - apply lookup_ge_None in Hlk. rewrite bool_decide_eq_false_2 by lia.
    by rewrite andb_false_r.
Qed.

Lemma leg_only_disabled_refl l : leg_only_disabled l l.
Proof. split; [by destruct l|done]. Qed.

Lemma leg_only_disabled_set b l :
  leg_only_disabled l (set_available (available l && b) l).
Proof.
  split; [done|]. simpl. by intros [? _]%andb_true_iff.
Qed.

Lemma leg_only_disabled_false l : leg_only_disabled l (set_available false l).
Proof. split; [done|]. simpl. discriminate. Qed.

Lemma step1_leg_only_disables event l : leg_only_disabled l (step1_leg event l).
Proof.
  unfold step1_leg. destruct (event_type event).
  - rewrite disrupt_leg_spec, <- andb_assoc. apply leg_only_disabled_set.
  - rewrite disrupt_leg_spec, <- andb_assoc. apply leg_only_disabled_set.
  - destruct (truthy_str _); [|apply leg_only_disabled_refl].
    unfold close_leg.
    destruct (_ || _); [apply leg_only_disabled_false|apply leg_only_disabled_refl].
  - destruct (severity event); [apply leg_only_disabled_refl|..]; unfold weather_leg;
      (destruct (str_in _ _); [apply leg_only_disabled_false|apply leg_only_disabled_refl]).
Qed.

Lemma step1_stop_only_drops event s : stop_only_dropped s (step1_stop event s).
Proof.
  unfold step1_stop. destruct (event_type event); try (by left).
  destruct (truthy_str _); [|by left]. unfold close_stop.
  destruct (String.eqb _ _ && bool_decide _) eqn:Hc; [|by left].
  right. apply andb_true_iff in Hc as [_ Hp%bool_decide_eq_true]. split; [done|].
  eexists. split; [|done]. discriminate.
Qed.

(** X6.  Whatever the event, step 1 changes a leg at most by clearing
    its availability flag -- endpoints, mode, cost, duration, polyline
    and friction fields stay, and no unavailable leg becomes available --
    and a stop at most by turning it from [PENDING] to [DROPPED] with a
    reason; no object is added and the itineraries are untouched. *)
Theorem apply_disruption_only_disables_and_drops st itin event :
  let st' := apply_disruption st itin event in
  (forall r, leg_only_disabled (get_leg st r) (get_leg st' r))
  /\ (forall r, stop_only_dropped (get_stop st r) (get_stop st' r))
  /\ length (leg_heap st') = length (leg_heap st)
  /\ length (stop_heap st') = length (stop_heap st)
  /\ itin_heap st' = itin_heap st.
Proof.
  intros st'. destruct (apply_disruption_heaps st itin event) as (Hs & Hl & Hi & _).
  fold st' in Hs, Hl, Hi. cbv zeta in *.
  split; [|split; [|split; [|split; [|done]]]].
  - intros r. unfold get_leg. rewrite Hl, lookup_total_imap_if.
    destruct (_ && _); [apply step1_leg_only_disables|apply leg_only_disabled_refl].
  - intros r. unfold get_stop. rewrite Hs, lookup_total_imap_if.
    destruct (_ && _); [apply step1_stop_only_drops|by left].
  - by rewrite Hl, length_imap.
  - by rewrite Hs, length_imap.
Qed.

(** X7.  On a [LINE_CANCELLATION] event, a leg of the itinerary comes
    out with its availability cleared when its mode is in
    [affectedModes] or its route key is in [affectedRoutes], and is
    otherwise unchanged; [delayMinutes] has no effect. *)
Theorem line_cancellation_disables_modes_and_routes st itin event r :
  wf_itin st itin ->
  event_type event = LINE_CANCELLATION ->
  r ∈ legs (get_itin st itin) ->
  let before := get_leg st r in
  get_leg (apply_disruption st itin event) r
  = if str_in (mode_str (mode before)) (default [] (affectedModes event))
       || str_in (route_key before) (default [] (affectedRoutes event))
    then set_available false before
    else before.
Proof.
  intros Hwf Hty Hr before. rewrite apply_disruption_leg by done. fold before.
  unfold step1_leg. rewrite Hty, disrupt_leg_spec.
  destruct before as [f t m c d a p fs fl]. unfold set_available. simpl.
  destruct (str_in (mode_str m) _), (str_in (route_key _) _); simpl;
    rewrite ?andb_false_r, ?andb_true_r; done.
Qed.

Lemma line_cancellation_disables_modes_and_routes_witness :
  get_leg (apply_disruption Ex2.st_trip 0%nat Ex2.ev_line) 1%nat
  = if str_in (mode_str (mode (get_leg Ex2.st_trip 1%nat)))
              (default [] (affectedModes Ex2.ev_line))
       || str_in (route_key (get_leg Ex2.st_trip 1%nat))
                 (default [] (affectedRoutes Ex2.ev_line))
    then set_available false (get_leg Ex2.st_trip 1%nat)
    else get_leg Ex2.st_trip 1%nat.
Proof.
  apply (line_cancellation_disables_modes_and_routes Ex2.st_trip 0%nat Ex2.ev_line 1%nat).
  - split; [simpl; lia|]. split; vm_compute; repeat constructor.
  - reflexivity.
  - vm_compute. apply list_elem_of_further, list_elem_of_here.
Defined.

(** X8.  On a [VENUE_CLOSED] event that names a stop, every pending
    stop of the itinerary with that id becomes [DROPPED] with the reason
    "Venue closed (disruption <event id>)", every leg from or to that id
    becomes unavailable, nothing else changes, and no stop that is still
    pending afterwards carries that id. *)
Theorem venue_closed_drops_stop_and_its_legs st itin event sid :
  wf_itin st itin ->
  event_type event = VENUE_CLOSED ->
  affectedStopId event = Some sid ->
  sid <> ""%string ->
  let st' := apply_disruption st itin event in
  (forall r, r ∈ stops (get_itin st itin) ->
     let before := get_stop st r in
     get_stop st' r
     = if decide (stop_id before = sid /\ stop_status before = PENDING)
       then set_dropped (Some ("Venue closed (disruption " ++ event_id event ++ ")")%string)
                        before
       else before)
  /\ (forall r, r ∈ legs (get_itin st itin) ->
     let before := get_leg st r in
     get_leg st' r
     = if decide (fromStopId before = sid \/ toStopId before = sid)
       then set_available false before
       else before)
  /\ (forall r, r ∈ pending_stops st' itin -> stop_id (get_stop st' r) <> sid).
Proof.
  intros Hwf Hty Hsid Hne st'.
  assert (truthy_str (affectedStopId event) = true) as Htruthy.
  { rewrite Hsid. simpl. apply negb_true_iff, String.eqb_neq. done. }
  assert (forall r, r ∈ stops (get_itin st itin) ->
            get_stop st' r
            = if decide (stop_id (get_stop st r) = sid /\ stop_status (get_stop st r) = PENDING)
              then set_dropped
                     (Some ("Venue closed (disruption " ++ event_id event ++ ")")%string)
                     (get_stop st r)
              else get_stop st r) as Hstops.
  { intros r Hr. subst st'. rewrite apply_disruption_stop by done.
    unfold step1_stop. rewrite Hty, Htruthy, Hsid. simpl. unfold close_stop.
    destruct (decide _) as [[Hid Hst]|Hn].
    - rewrite Hid, String.eqb_refl, bool_decide_eq_true_2 by done. done.
    - destruct (String.eqb _ _ && bool_decide _) eqn:Hc; [|done].
      apply andb_true_iff in Hc as [Hid%String.eqb_eq Hst%bool_decide_eq_true].
      by destruct Hn. }
  split; [done|]. split.
  - intros r Hr before. subst st'. rewrite apply_disruption_leg by done. fold before.
    unfold step1_leg. rewrite Hty, Htruthy, Hsid. simpl. unfold close_leg.
    destruct (decide _) as [[Hid|Hid]|Hn].
    + by rewrite Hid, String.eqb_refl.
    + by rewrite Hid, String.eqb_refl, orb_true_r.
    + destruct (String.eqb _ _ || String.eqb _ _) eqn:Hc; [|done].
      apply orb_true_iff in Hc as [Hid%String.eqb_eq|Hid%String.eqb_eq];
        destruct Hn; [by left|by right].
  - intros r Hr. unfold pending_stops in Hr. apply list_elem_of_filter in Hr as [Hp Hr].
    subst st'. rewrite get_itin_apply_disruption in Hr.
    rewrite Hstops in Hp |- * by done.
    destruct (decide _) as [[Hid Hst]|Hn]; [done|].
    intros Hid. apply Hn. done.
Qed.

Lemma venue_closed_drops_stop_and_its_legs_witness :
  get_stop (apply_disruption Ex2.st_trip 0%nat Ex2.ev_venue) 1%nat
  = mkStop "cafe" "cafe" 0%Q 0%Q NICE_TO_HAVE DROPPED
           (Some "Venue closed (disruption evt-011)"%string).
Proof.
  assert (wf_itin Ex2.st_trip 0%nat) as Hwf.
  { split; [simpl; lia|]. split; vm_compute; repeat constructor. }
  destruct (venue_closed_drops_stop_and_its_legs Ex2.st_trip 0%nat Ex2.ev_venue "cafe"
              Hwf eq_refl eq_refl) as (Hstops & _); [discriminate|].
  rewrite Hstops; [reflexivity|].
  vm_compute. apply list_elem_of_further, list_elem_of_here.
Defined.

Lemma weather_leg_cases l :
  weather_leg l
  = if decide (mode l = WALKING \/ mode l = EBIKE) then set_available false l else l.
Proof.
  destruct l as [f t [] c d a p fs fl]; reflexivity.
Qed.

(** X9.  On a [WEATHER] event no stop changes; with severity [MINOR]
    nothing changes at all, and with [MAJOR] or [CRITICAL] exactly the
    [WALKING] and [EBIKE] legs of the itinerary become unavailable. *)
Theorem weather_disables_outdoor_legs st itin event :
  wf_itin st itin ->
  event_type event = WEATHER ->
  let st' := apply_disruption st itin event in
  stop_heap st' = stop_heap st
  /\ (severity event = MINOR -> st' = st)
  /\ (severity event <> MINOR ->
      forall r, r ∈ legs (get_itin st itin) ->
        let before := get_leg st r in
        get_leg st' r
        = if decide (mode before = WALKING \/ mode before = EBIKE)
          then set_available false before
          else before).
Proof.
  intros Hwf Hty st'. split; [|split].
  - subst st'. unfold apply_disruption. rewrite Hty.
    destruct (severity event); [done|..];
      by destruct (for_each_leg_frame weather_leg (legs (get_itin st itin)) st) as (-> & _).
  - intros Hsev. subst st'. unfold apply_disruption. by rewrite Hty, Hsev.
  - intros Hsev r Hr before. subst st'. rewrite apply_disruption_leg by done. fold before.
    unfold step1_leg. rewrite Hty.
    destruct (severity event); [done|apply weather_leg_cases..].
Qed.

Lemma weather_disables_outdoor_legs_witness :
  available (get_leg (apply_disruption Ex2.st_trip 0%nat Ex2.ev_storm) 0%nat) = false
  /\ available (get_leg (apply_disruption Ex2.st_trip 0%nat Ex2.ev_storm) 1%nat) = true.
Proof.
  assert (wf_itin Ex2.st_trip 0%nat) as Hwf.
  { split; [simpl; lia|]. split; vm_compute; repeat constructor. }
  destruct (weather_disables_outdoor_legs Ex2.st_trip 0%nat Ex2.ev_storm Hwf eq_refl)
    as (_ & _ & Hlegs).
  split; rewrite Hlegs; try discriminate; try reflexivity.
  - vm_compute. apply list_elem_of_here.
  - vm_compute. apply list_elem_of_further, list_elem_of_here.
Defined.

Lemma foldl_alter_id {A} (f : A -> A) (rs : list nat) (l : list A) :
  (forall x, f x = x) -> foldl (fun l r => alter f r l) l rs = l.
Proof.
  intros Hid. rewrite foldl_alter_imap by (intros x; by rewrite !Hid).
  apply list_eq. intros i. rewrite list_lookup_imap.
  destruct (l !! i); [|done]. simpl. destruct (bool_decide _); by rewrite ?Hid.
Qed.

(** X10.  An event that names nothing to act on leaves the store as it
    is: a delay or cancellation without affected modes and routes, a
    closed venue without a stop id (absent or empty), minor weather. *)
Theorem disruption_without_target_changes_nothing st itin event :
  no_target event -> apply_disruption st itin event = st.
Proof.
  intros Hno. destruct (apply_disruption_heaps st itin event) as (Hs & Hl & Hi & Hc).
  cbv zeta in *. apply store_eq; [| |done|done].
  - rewrite Hs. apply list_eq. intros i. rewrite list_lookup_imap.
    destruct (stop_heap st !! i); [|done]. simpl. f_equal.
    destruct (bool_decide _); [|done].
    unfold step1_stop. unfold no_target in Hno.
    destruct (event_type event); try done. by rewrite Hno.
  - rewrite Hl. apply list_eq. intros i. rewrite list_lookup_imap.
    destruct (leg_heap st !! i) as [l|]; [|done]. simpl. f_equal.
    destruct (bool_decide _); [|done].
    unfold step1_leg. unfold no_target in Hno.
    destruct (event_type event).
    + destruct Hno as [Hm Hr]. rewrite disrupt_leg_spec, Hm, Hr. simpl.
      rewrite !andb_true_r. by destruct l.
    + destruct Hno as [Hm Hr]. rewrite disrupt_leg_spec, Hm, Hr. simpl.
      rewrite !andb_true_r. by destruct l.
    + by rewrite Hno.
    + by rewrite Hno.
Qed.

Lemma disruption_without_target_changes_nothing_witness :
  apply_disruption Ex2.st_trip 0%nat Ex2.ev_empty = Ex2.st_trip.
Proof.
  apply (disruption_without_target_changes_nothing Ex2.st_trip 0%nat Ex2.ev_empty).
  split; reflexivity.
Defined.

(** ** Step 2: the matrices and the leg details *)

Lemma NoDup_edges n : NoDup (edges n).
Proof.
  unfold edges. apply NoDup_bind.
  - intros i1 i2 e _ _ (j1 & -> & _)%list_elem_of_fmap (j2 & Heq & _)%list_elem_of_fmap.
    by injection Heq.
  - intros i _. apply NoDup_fmap_2; [by intros j1 j2 [=]|].
    unfold others. apply NoDup_filter, NoDup_seq.
  - apply NoDup_seq.
Qed.

Lemma entry_fmap_seq (f : nat -> nat -> Z) n i j :
  (i < n)%nat -> (j < n)%nat ->
  entry ((fun i => f i <$> seq 0 n) <$> seq 0 n) i j = f i j.
Proof.
  intros Hi Hj. unfold entry.
  rewrite list_lookup_fmap, lookup_seq_lt by done. simpl.
  by rewrite list_lookup_fmap, lookup_seq_lt.
Qed.

(** X11.  The matrices of step 2 are square of the size of the active
    stops, with a zero diagonal; off the diagonal an entry is what the
    directions answered for that ordered pair, asked for the first
    preferred mode ([WALKING] when there is none), and the leg details
    hold that answer and that mode under the same pair, and nothing
    else. *)
Theorem fetch_alternatives_matrices_match_details W active_stops preferred_modes :
  let n := length active_stops in
  let mode := hd WALKING preferred_modes in
  let out := fetch_alternatives W active_stops preferred_modes in
  square n out.1.1
  /\ square n out.1.2
  /\ (forall i, entry out.1.1 i i = 0 /\ entry out.1.2 i i = 0)
  /\ (forall i j, (i < n)%nat -> (j < n)%nat -> i <> j ->
        let answer := fetch_directions W i j (active_stops !!! i) (active_stops !!! j) mode in
        out.2 !! (i, j) = Some (answer, mode)
        /\ entry out.1.1 i j = ld_costCents answer
        /\ entry out.1.2 i j = ld_durationSec answer)
  /\ (forall i j, ~ ((i < n)%nat /\ (j < n)%nat /\ i <> j) -> out.2 !! (i, j) = None).
Proof.
  intros n mode out.
  destruct (fetch_alternatives_square W active_stops preferred_modes) as [Hc Ht].
  split; [done|]. split; [done|]. subst out. unfold fetch_alternatives. fold n mode.
  cbn [fst snd]. split; [|split].
  - intros i. destruct (decide (i < n)%nat) as [Hi|Hi].
    + rewrite !entry_fmap_seq by done. by rewrite Nat.eqb_refl.
    + unfold entry. rewrite !list_lookup_fmap, !lookup_seq_ge by lia. done.
  - intros i j Hi Hj Hne. split; [|split].
    + apply elem_of_list_to_map_1.
      * rewrite <- list_fmap_compose. simpl. rewrite list_fmap_id. apply NoDup_edges.
      * apply list_elem_of_fmap. exists (i, j). split; [done|]. by apply elem_of_edges.
    + rewrite entry_fmap_seq by done. by apply Nat.eqb_neq in Hne as ->.
    + rewrite entry_fmap_seq by done. by apply Nat.eqb_neq in Hne as ->.
  - intros i j Hnot. apply not_elem_of_list_to_map_1.
    rewrite <- list_fmap_compose. simpl. rewrite list_fmap_id.
    by rewrite elem_of_edges.
Qed.

Lemma fetch_alternatives_matrices_match_details_witness :
  (fetch_alternatives Ex.world Ex.two_stops [TRANSIT; WALKING]).2 !! (0%nat, 1%nat)
  = Some (mkLegData 1 1 "" true, TRANSIT).
Proof.
  destruct (fetch_alternatives_matrices_match_details Ex.world Ex.two_stops [TRANSIT; WALKING])
    as (_ & _ & _ & Hoff & _).
  destruct (Hoff 0%nat 1%nat) as [Hd _]; [simpl; lia|simpl; lia|lia|]. exact Hd.
Defined.

(** ** Step 5: which stop goes *)

Lemma find_rev_seq (P : nat -> bool) k i :
  find P (reverse (seq 1 k)) = Some i ->
  (1 <= i <= k)%nat /\ P i = true /\ forall j, (i < j <= k)%nat -> P j = false.
Proof.
  induction k as [|k IH]; [done|].
  rewrite seq_S, reverse_snoc. simpl.
  destruct (P (S k)) eqn:HP.
  - intros [= <-]. split; [lia|]. split; [done|]. intros j Hj. lia.
  - intros (Hi & HPi & Hgt)%IH. split; [lia|]. split; [done|].
    intros j Hj. destruct (decide (j = S k)) as [->|Hne]; [done|]. apply Hgt. lia.
Qed.

Lemma find_rev_seq_None (P : nat -> bool) k :
  find P (reverse (seq 1 k)) = None -> forall j, (1 <= j <= k)%nat -> P j = false.
Proof.
  induction k as [|k IH]; [intros _ j Hj; lia|].
  rewrite seq_S, reverse_snoc. simpl.
  destruct (P (S k)) eqn:HP; [done|].
  intros Hnone j Hj. destruct (decide (j = S k)) as [->|Hne]; [done|].
  apply IH; [done|lia].
Qed.

Lemma head_rev_seq k : head (reverse (seq 1 (S k))) = Some (S k).
Proof. by rewrite seq_S, reverse_snoc. Qed.

(** Which index lines 365-377 arrive at. *)
Lemma find_drop_idx_spec st stops :
  let n := length stops in
  let nice i := bool_decide (priority (get_stop st (stops !!! i)) = NICE_TO_HAVE) in
  match find_drop_idx st stops with
  | None => (n <= 1)%nat
  | Some idx =>
      (1 <= idx < n)%nat
      /\ (forall i, (idx < i < n)%nat -> nice i = false)
      /\ (nice idx = true
          \/ (idx = (n - 1)%nat /\ forall i, (1 <= i < n)%nat -> nice i = false))
  end.
Proof.
  intros n nice. unfold find_drop_idx. fold n. fold nice.
  destruct (find nice (reverse (seq 1 (n - 1)))) as [i|] eqn:Hfind.
  - apply find_rev_seq in Hfind as (Hi & HP & Hgt).
    split; [lia|]. split; [|by left]. intros j Hj. apply Hgt. lia.
  - pose proof (find_rev_seq_None _ _ Hfind) as Hnone.
    destruct (n - 1)%nat as [|k] eqn:Hk; [simpl; lia|].
    rewrite head_rev_seq. split; [lia|]. split; [intros i Hi; lia|].
    right. split; [done|]. intros i Hi. apply Hnone. lia.
Qed.

(** X12.  With at most one stop nothing is dropped and nothing changes.
    With two or more, the stop that goes is never the one at index 0: it
    is the last [NICE_TO_HAVE] stop after index 0 or, when there is
    none, the last stop; it is marked [DROPPED] with the budget/time
    reason, taken out of the list, and the matrices lose its row and
    column. *)
Theorem drop_lowest_priority_drops_last_nice_to_have st stops cost_matrix time_matrix :
  let n := length stops in
  let nice i := priority (get_stop st (stops !!! i)) = NICE_TO_HAVE in
  let out := drop_lowest_priority st stops cost_matrix time_matrix in
  ((n <= 1)%nat -> out = (st, (None, stops, cost_matrix, time_matrix)))
  /\ ((2 <= n)%nat ->
      exists idx,
        (1 <= idx < n)%nat
        /\ out = (upd_stop (set_dropped (Some DROP_REASON)) (stops !!! idx) st,
                  (Some (stops !!! idx), delete idx stops,
                   shrink idx cost_matrix, shrink idx time_matrix))
        /\ (forall i, (idx < i < n)%nat -> ~ nice i)
        /\ (nice idx \/ (idx = (n - 1)%nat /\ forall i, (1 <= i < n)%nat -> ~ nice i))).
Proof.
  intros n nice out. subst out. unfold drop_lowest_priority.
  pose proof (find_drop_idx_spec st stops) as Hspec. cbv zeta in Hspec. fold n in Hspec.
  destruct (find_drop_idx st stops) as [idx|].
  - destruct Hspec as (Hidx & Hgt & Hcase). split; [intros Hn; lia|].
    intros _. exists idx. split; [done|]. split; [done|]. split.
    + intros i Hi. specialize (Hgt i Hi). by apply bool_decide_eq_false in Hgt.
    + destruct Hcase as [Hnice|[-> Hall]]; [left; by apply bool_decide_eq_true in Hnice|].
      right. split; [done|]. intros i Hi. specialize (Hall i Hi).
      by apply bool_decide_eq_false in Hall.
  - split; [done|]. intros Hn. lia.
Qed.

Lemma drop_lowest_priority_drops_last_nice_to_have_witness :
  exists idx,
    (1 <= idx < 4)%nat
    /\ drop_lowest_priority Ex.st_four [0; 1; 2; 3]%nat Ex2.cost3 Ex2.time3
       = (upd_stop (set_dropped (Some DROP_REASON)) ([0; 1; 2; 3]%nat !!! idx) Ex.st_four,
          (Some ([0; 1; 2; 3]%nat !!! idx), delete idx [0; 1; 2; 3]%nat,
           shrink idx Ex2.cost3, shrink idx Ex2.time3))
    /\ (forall i, (idx < i < 4)%nat ->
          priority (get_stop Ex.st_four ([0; 1; 2; 3]%nat !!! i)) <> NICE_TO_HAVE)
    /\ (priority (get_stop Ex.st_four ([0; 1; 2; 3]%nat !!! idx)) = NICE_TO_HAVE
        \/ (idx = 3%nat
            /\ forall i, (1 <= i < 4)%nat ->
                  priority (get_stop Ex.st_four ([0; 1; 2; 3]%nat !!! i)) <> NICE_TO_HAVE)).
Proof.
  apply (proj2 (drop_lowest_priority_drops_last_nice_to_have
                  Ex.st_four [0; 1; 2; 3]%nat Ex2.cost3 Ex2.time3)).
  simpl. lia.
Defined.

Lemma lookup_delete_skip {A} (l : list A) idx i : delete idx l !! i = l !! skip idx i.
Proof.
  unfold skip. case_decide.
  - by apply list_lookup_delete_lt.
  - apply list_lookup_delete_ge. lia.
Qed.

Lemma entry_shrink idx m i j :
  entry (shrink idx m) i j = entry m (skip idx i) (skip idx j).
Proof.
  unfold entry, shrink. rewrite lookup_delete_skip, list_lookup_fmap.
  destruct (m !! skip idx i) as [row|]; [|done]. simpl. by rewrite lookup_delete_skip.
Qed.

(** X13.  After a drop the matrices still describe the remaining stops:
    the stop now at index [i] is the one that was at [i], or at [i + 1]
    from the dropped index on, and the entry for a pair of remaining
    stops is the entry the pair had before; square matrices stay
    square. *)
Theorem drop_keeps_matrices_aligned
        st stops cost_matrix time_matrix st' dropped stops' cost_matrix' time_matrix' :
  drop_lowest_priority st stops cost_matrix time_matrix
  = (st', (Some dropped, stops', cost_matrix', time_matrix')) ->
  exists idx,
    (1 <= idx < length stops)%nat
    /\ stops !! idx = Some dropped
    /\ length stops' = (length stops - 1)%nat
    /\ head stops' = head stops
    /\ (forall i, stops' !! i = stops !! skip idx i)
    /\ (forall i j,
          entry cost_matrix' i j = entry cost_matrix (skip idx i) (skip idx j)
          /\ entry time_matrix' i j = entry time_matrix (skip idx i) (skip idx j))
    /\ (square (length stops) cost_matrix -> square (length stops') cost_matrix')
    /\ (square (length stops) time_matrix -> square (length stops') time_matrix').
Proof.
  unfold drop_lowest_priority.
  destruct (find_drop_idx st stops) as [idx|] eqn:Hfind; [|discriminate].
  intros [= <- <- <- <- <-]. apply find_drop_idx_range in Hfind.
  assert (is_Some (stops !! idx)) as [d Hd] by (apply lookup_lt_is_Some_2; lia).
  assert (length (delete idx stops) = (length stops - 1)%nat) as Hlen.
  { apply length_delete. by eexists. }
  exists idx. split; [done|]. split; [by rewrite (list_lookup_total_correct _ _ _ Hd)|].
  split; [done|]. split; [|split; [|split; [|split]]].
  - destruct idx as [|idx]; [lia|]. apply head_delete_S.
  - intros i. apply lookup_delete_skip.
  - intros i j. by rewrite !entry_shrink.
  - intros Hsq. rewrite Hlen. apply shrink_square; [lia|done].
  - intros Hsq. rewrite Hlen. apply shrink_square; [lia|done].
Qed.

Lemma drop_keeps_matrices_aligned_witness :
  exists idx,
    (1 <= idx < 3)%nat
    /\ [0; 1; 2]%nat !! idx = Some 2%nat
    /\ length [0; 1]%nat = (3 - 1)%nat
    /\ head [0; 1]%nat = head [0; 1; 2]%nat
    /\ (forall i, [0; 1]%nat !! i = [0; 1; 2]%nat !! skip idx i)
    /\ (forall i j,
          entry [[0; 1]; [1; 0]] i j = entry Ex2.cost3 (skip idx i) (skip idx j)
          /\ entry [[0; 1]; [1; 0]] i j = entry Ex2.time3 (skip idx i) (skip idx j))
    /\ (square 3 Ex2.cost3 -> square 2 [[0; 1]; [1; 0]])
    /\ (square 3 Ex2.time3 -> square 2 [[0; 1]; [1; 0]]).
Proof.
  apply (drop_keeps_matrices_aligned Ex.st_three [0; 1; 2]%nat Ex2.cost3 Ex2.time3
           (upd_stop (set_dropped (Some DROP_REASON)) 2%nat Ex.st_three) 2%nat).
  reflexivity.
Defined.

(** ** One round of the solver loop *)

(** Which solver a round's route comes from. *)
Lemma solve_step_cases W b d s st st1 route :
  solve_step W b d s st = (st1, Ok route) ->
  let dumps := get_stop st <$> stops_to_route s in
  (solve_vrptw (cp_solve W) dumps (c_mx s) (t_mx s) b d 0 = Ok route
   /\ truthy_route route = true)
  \/ (exists r1, solve_vrptw (cp_solve W) dumps (c_mx s) (t_mx s) b d 0 = Ok r1
                 /\ truthy_route r1 = false
                 /\ greedy_fallback (c_mx s) (t_mx s) b d dumps 0 = Ok route).
Proof.
  intros Hrun dumps.
  unfold solve_step, bind, get_store, modify, lift, ret in Hrun. cbn [fst snd] in Hrun.
  fold dumps in Hrun.
  destruct (solve_vrptw _ _ _ _ _ _ _) as [r1|e|] eqn:Hexact; try discriminate Hrun.
  destruct (truthy_route r1) eqn:Hr1.
  - injection Hrun as _ <-. by left.
  - destruct (greedy_fallback _ _ _ _ _ _) as [r2|e|] eqn:Hgreedy; try discriminate Hrun.
    injection Hrun as _ <-. right. by exists r1.
Qed.

(** A round returns, unless an integer of its matrices, the budget or
    the deadline does not fit [int64]: no solver raises anything else or
    runs for ever. *)
Lemma solve_step_returns W b d s st :
  cp_sound (cp_solve W) ->
  square (length (stops_to_route s)) (c_mx s) ->
  square (length (stops_to_route s)) (t_mx s) ->
  (2 <= length (stops_to_route s))%nat ->
  (ints_fit (length (stops_to_route s)) (c_mx s) (t_mx s) b d = true
   /\ exists st1 route, solve_step W b d s st = (st1, Ok route))
  \/ (ints_fit (length (stops_to_route s)) (c_mx s) (t_mx s) b d = false
      /\ exists st1, solve_step W b d s st = (st1, Raise TypeError)).
Proof.
  intros Hsound Hc Ht Hn.
  unfold solve_step, bind, get_store, modify, lift, ret. cbn [fst snd].
  set (dumps := get_stop st <$> stops_to_route s).
  assert (length dumps = length (stops_to_route s)) as Hlen
      by (subst dumps; by rewrite length_fmap).
  rewrite <- Hlen in Hc, Ht, Hn |- *.
  destruct (solve_vrptw_inv (cp_solve W) dumps (c_mx s) (t_mx s) b d 0 Hsound Hn Hc Ht)
    as [[Hfit ->]|[[Hfit ->]|(a & route & c & Hfit & _ & -> & Hwalk & _)]]; [lia| | |].
  - right. split; [done|]. by eexists.
  - left. split; [done|].
    simpl. destruct (greedy_fallback_ok (c_mx s) (t_mx s) b d dumps 0 Hc Ht) as [r ->];
      [lia|]. by eexists _, _.
  - left. split; [done|].
    destruct (truthy_route (Some route)); [by eexists _, _|].
    destruct (greedy_fallback_ok (c_mx s) (t_mx s) b d dumps 0 Hc Ht) as [r ->];
      [lia|]. by eexists _, _.
Qed.

(** The route of a round starts at index 0, passes no index twice,
    stays inside the matrices and within the deadline. *)
Lemma solve_step_route W b d s st st1 route :
  cp_sound (cp_solve W) ->
  square (length (stops_to_route s)) (c_mx s) ->
  square (length (stops_to_route s)) (t_mx s) ->
  (2 <= length (stops_to_route s))%nat ->
  solve_step W b d s st = (st1, Ok (Some route)) ->
  head route = Some 0%nat
  /\ NoDup route
  /\ Forall (fun i => (i < length (stops_to_route s))%nat) route
  /\ path_cost (t_mx s) route <= d
  /\ (2 <= length route)%nat.
Proof.
  intros Hsound Hc Ht Hn Hrun. apply solve_step_cases in Hrun. cbv zeta in Hrun.
  set (dumps := get_stop st <$> stops_to_route s) in *.
  assert (length dumps = length (stops_to_route s)) as Hlen
      by (subst dumps; by rewrite length_fmap).
  rewrite <- Hlen in Hc, Ht, Hn |- *.
  destruct Hrun as [[Hexact _]|(r1 & _ & _ & Hgreedy)].
  - destruct (solve_vrptw_route (cp_solve W) dumps (c_mx s) (t_mx s) b d 0 route
                Hsound Hn Hc Ht) as (Hhead & ? & ? & ? & _); [lia|done|].
    do 4 (split; [done|]).
    destruct (solve_vrptw_inv (cp_solve W) dumps (c_mx s) (t_mx s) b d 0 Hsound Hn Hc Ht)
      as [[_ Hnone]|[[_ Hnone]|(a & route' & c & _ & _ & Hsome & _ & Hlast & Hne & _)]];
      [lia|congruence|congruence|].
    rewrite Hsome in Hexact. injection Hexact as ->.
    destruct route as [|x [|y rest]]; simpl in *; [done| |lia]. congruence.
  - destruct (greedy_fallback_tour (c_mx s) (t_mx s) b d dumps 0 route Hc Ht)
      as (Hperm & Hhead & c & Hlast & _ & Htime); [lia|done|].
    split; [done|]. split; [by rewrite Hperm; apply NoDup_seq|].
    split; [|split; [|by rewrite Hperm, length_seq]].
    + apply Forall_forall. intros i Hi. rewrite Hperm in Hi.
      apply elem_of_seq in Hi. lia.
    + destruct (greedy_fallback_route (c_mx s) (t_mx s) b d (length dumps) Hc Ht
                  dumps 0 route eq_refl) as (g & Hpath & Hinv & Hfull & -> & Hfits);
        [lia|done|].
      destruct (greedy_path_time _ _ _ _ _ _ _ Hpath eq_refl eq_refl) as [Heq [->|Hle]].
      * simpl. unfold path_cost. simpl.
        assert (1%nat ∈ ({[0%nat]} : gset nat)) as Hin by (apply (Hfull 1%nat); lia).
        apply elem_of_singleton in Hin. lia.
      * by rewrite <- Heq.
Qed.

(** When going back to index 0 takes time, the exact solver finds
    nothing and the round hands back what the greedy fallback returns. *)
Lemma solve_step_is_greedy W b d s st st1 route :
  cp_sound (cp_solve W) ->
  square (length (stops_to_route s)) (c_mx s) ->
  square (length (stops_to_route s)) (t_mx s) ->
  returns_positive (length (stops_to_route s)) (t_mx s) ->
  (2 <= length (stops_to_route s))%nat ->
  solve_step W b d s st = (st1, Ok route) ->
  greedy_fallback (c_mx s) (t_mx s) b d (get_stop st <$> stops_to_route s) 0 = Ok route.
Proof.
  intros Hsound Hc Ht Hpos Hn Hrun. apply solve_step_cases in Hrun. cbv zeta in Hrun.
  set (dumps := get_stop st <$> stops_to_route s) in *.
  assert (length dumps = length (stops_to_route s)) as Hlen
      by (subst dumps; by rewrite length_fmap).
  rewrite <- Hlen in Hc, Ht, Hn, Hpos.
  destruct (solve_vrptw_inv (cp_solve W) dumps (c_mx s) (t_mx s) b d 0 Hsound Hn Hc Ht)
    as [[_ Hnone]|[[_ Hnone]|(a & route' & c & _ & Hfeas & _ & Hwalk & Hlast & Hne & Hx)]];
    [lia| | |].
  - destruct Hrun as [[Hexact _]|(r1 & Hexact & _)]; congruence.
  - destruct Hrun as [[Hexact Htruthy]|(r1 & _ & _ & Hgreedy)]; [|done].
    rewrite Hnone in Hexact. injection Hexact as <-. done.
  - exfalso.
    assert (0 < length dumps)%nat as H0 by lia.
    assert (c < length dumps)%nat as Hcn.
    { destruct Hwalk as (_ & _ & Hlt & _). rewrite Forall_forall in Hlt.
      by apply Hlt, last_Some_elem_of. }
    pose proof (feasible_precedence _ _ _ _ _ _ a Hfeas c 0%nat Hcn H0 Hne Hx) as Hback.
    rewrite (feasible_t_start _ _ _ _ _ _ a Hfeas) in Hback.
    pose proof (feasible_t_bounds _ _ _ _ _ _ H0 a Hfeas c Hcn) as Hbound.
    assert (0 < entry (t_mx s) c 0) by (apply Hpos; lia). lia.
Qed.

(** ** The rounds of the drop loop *)

Lemma drop_loop_S W b d iterations s st :
  drop_loop W b d (S iterations) s st
  = if (length (stops_to_route s) <? 2)%nat then (st, Ok s)
    else
      match solve_step W b d s st with
      | (st1, Ok route) =>
          if truthy_route route
          then (st1, Ok (mkLoop (stops_to_route s) (c_mx s) (t_mx s) (dropped_stops s) route))
          else
            match find_drop_idx st1 (stops_to_route s) with
            | Some idx =>
                drop_loop W b d iterations (after_drop s idx route)
                  (upd_stop (set_dropped (Some DROP_REASON)) (stops_to_route s !!! idx) st1)
            | None =>
                (st1, Ok (mkLoop (stops_to_route s) (c_mx s) (t_mx s) (dropped_stops s)
                                 route))
            end
      | (st1, Raise e) => (st1, Raise e)
      | (st1, Diverge) => (st1, Diverge)
      end.
Proof.
  simpl. destruct (length (stops_to_route s) <? 2)%nat; [done|].
  unfold bind at 1.
  destruct (solve_step W b d s st) as [st1 [route|e|]]; [|done|done].
  destruct (truthy_route route); [done|].
  unfold bind, run_alloc, drop_lowest_priority.
  by destruct (find_drop_idx st1 (stops_to_route s)).
Qed.

Lemma set_dropped_twice r1 r2 s :
  set_dropped r2 (set_dropped r1 s) = set_dropped r2 s.
Proof. done. Qed.

Lemma loop_inv_step sta active already cm tm W b d s st st1 route idx :
  (forall r, r ∈ active -> stop_status (get_stop sta r) = PENDING) ->
  loop_inv sta active already cm tm s st ->
  solve_step W b d s st = (st1, Ok route) ->
  find_drop_idx st1 (stops_to_route s) = Some idx ->
  loop_inv sta active already cm tm (after_drop s idx route)
           (upd_stop (set_dropped (Some DROP_REASON)) (stops_to_route s !!! idx) st1).
Proof.
  intros Hpending (Hc & Ht & Hstops & Hhead & Hdropped & Hrel & Hlen & Hlegs & Hitin
                   & Hkept & Hnn & Hpos & Halready)
         Hstep Hidx.
  pose proof (solve_step_same_heaps W b d s st) as (Hs1 & Hl1 & Hi1).
  rewrite Hstep in Hs1, Hl1, Hi1. cbn [fst] in Hs1, Hl1, Hi1.
  assert (get_stop st1 = get_stop st) as Hget by (unfold get_stop; by rewrite Hs1).
  apply find_drop_idx_range in Hidx.
  assert (is_Some (stops_to_route s !! idx)) as [dr Hdr]
      by (apply lookup_lt_is_Some_2; lia).
  unfold after_drop. rewrite (list_lookup_total_correct _ _ _ Hdr).
  rewrite Forall_forall in Hstops.
  destruct (Hstops dr) as [Hact Hvalid]; [by eapply list_elem_of_lookup_2|].
  unfold loop_inv. cbn [stops_to_route c_mx t_mx dropped_stops].
  rewrite length_delete by by eexists.
  split; [apply shrink_square; (done || lia)|].
  split; [apply shrink_square; (done || lia)|].
  split; [|split; [|split; [|split; [|split; [|split; [|split; [|split; [|split; [|split]]]]]]]]].
  - apply Forall_forall. intros r Hr%list_elem_of_delete_inv.
    destruct (Hstops r Hr) as [? ?]. split; [done|].
    unfold upd_stop. cbn [stop_heap]. rewrite length_alter, Hs1. done.
  - destruct idx as [|idx]; [lia|]. by rewrite head_delete_S.
  - apply Forall_app. split.
    + apply Forall_forall. intros r Hr. rewrite Forall_forall in Hdropped.
      destruct (Hdropped r Hr) as [Hst Hreason].
      destruct (decide (dr = r)) as [<-|Hne].
      * rewrite get_stop_upd_eq by (by rewrite Hs1). done.
      * rewrite get_stop_upd_ne by done. by rewrite Hget.
    + apply Forall_singleton. rewrite get_stop_upd_eq by (by rewrite Hs1). done.
  - intros r. destruct (decide (dr = r)) as [<-|Hne].
    + rewrite get_stop_upd_eq by (by rewrite Hs1). rewrite Hget.
      right. split; [by apply Hpending|]. exists DROP_REASON. split; [discriminate|].
      destruct (Hrel dr) as [->|(_ & reason & _ & ->)]; done.
    + rewrite get_stop_upd_ne by done. rewrite Hget. apply Hrel.
  - unfold upd_stop. cbn [stop_heap]. by rewrite length_alter, Hs1.
  - unfold upd_stop. cbn [leg_heap]. by rewrite Hl1.
  - unfold upd_stop. cbn [itin_heap]. by rewrite Hi1.
  - intros r Hr. destruct (decide (dr = r)) as [<-|Hne].
    + right. by rewrite get_stop_upd_eq by (by rewrite Hs1).
    + rewrite get_stop_upd_ne by done. rewrite Hget.
      destruct (Hkept r Hr) as [Hin|?]; [|by right].
      destruct (elem_of_delete_or _ idx _ Hin) as [?|Hlk]; [by left|]. congruence.
  - intros H. by apply shrink_nonneg, Hnn.
  - intros H i Hi. rewrite entry_shrink.
    assert (skip idx 0 = 0%nat) as -> by (unfold skip; case_decide; [done|lia]).
    apply (Hpos H). unfold skip. case_decide; lia.
  - destruct Halready as [dropped ->]. exists (dropped ++ [dr]). by rewrite app_assoc.
Qed.

(** A round that ends the loop leaves the invariant in place. *)
Lemma loop_inv_done sta active already cm tm W b d s st st1 route :
  loop_inv sta active already cm tm s st ->
  solve_step W b d s st = (st1, Ok route) ->
  loop_inv sta active already cm tm
           (mkLoop (stops_to_route s) (c_mx s) (t_mx s) (dropped_stops s) route) st1.
Proof.
  intros (Hc & Ht & Hstops & Hhead & Hdropped & Hrel & Hlen & Hlegs & Hitin
          & Hkept & Hnn & Hpos & Halready) Hstep.
  pose proof (solve_step_same_heaps W b d s st) as (Hs1 & Hl1 & Hi1).
  rewrite Hstep in Hs1, Hl1, Hi1. cbn [fst] in Hs1, Hl1, Hi1.
  assert (get_stop st1 = get_stop st) as Hget by (unfold get_stop; by rewrite Hs1).
  unfold loop_inv. cbn [stops_to_route c_mx t_mx dropped_stops].
  rewrite Hget, Hs1, Hl1, Hi1. done.
Qed.

(** Integers that fit [int64] still do after a drop. *)
Lemma ints_fit_shrink n idx c t b d :
  (idx < n)%nat ->
  ints_fit n c t b d = true ->
  ints_fit (n - 1) (shrink idx c) (shrink idx t) b d = true.
Proof.
  intros Hidx. unfold ints_fit. rewrite !andb_true_iff.
  intros [[[Hd Ht] Hc] Hb].
  assert (forall m, forallb (fun e => int64 (entry m e.1 e.2)) (edges n) = true ->
                    forallb (fun e => int64 (entry (shrink idx m) e.1 e.2)) (edges (n - 1))
                    = true) as Hm.
  { intros m Hall. apply forallb_forall. intros [i j] (Hi & Hj & Hne)%list_elem_of_In%elem_of_edges.
    cbn [fst snd]. rewrite entry_shrink.
    apply (forallb_elem _ _ (skip idx i, skip idx j) Hall).
    apply elem_of_edges. unfold skip. repeat case_decide; lia. }
  repeat split; auto.
Qed.

(** The loop returns, whatever the number of rounds, unless a round is
    handed an integer that does not fit [int64]. *)
Lemma drop_loop_returns sta active already cm tm W b d :
  cp_sound (cp_solve W) ->
  (forall r, r ∈ active -> stop_status (get_stop sta r) = PENDING) ->
  forall iterations s st,
    loop_inv sta active already cm tm s st ->
    (ints_fit (length active) cm tm b d = true ->
     ints_fit (length (stops_to_route s)) (c_mx s) (t_mx s) b d = true) ->
    (exists st' s',
      drop_loop W b d iterations s st = (st', Ok s')
      /\ loop_inv sta active already cm tm s' st'
      /\ (truthy_route (route_indices s') = true ->
          truthy_route (route_indices s) = true
          \/ exists s1 st0,
              loop_inv sta active already cm tm s1 st0
              /\ (2 <= length (stops_to_route s1))%nat
              /\ solve_step W b d s1 st0 = (st', Ok (route_indices s'))
              /\ s' = mkLoop (stops_to_route s1) (c_mx s1) (t_mx s1) (dropped_stops s1)
                             (route_indices s')))
    \/ (ints_fit (length active) cm tm b d = false
        /\ exists st', drop_loop W b d iterations s st = (st', Raise TypeError)).
Proof.
  intros Hsound Hpending.
  induction iterations as [|k IH]; intros s st Hinv Hints.
  { left. exists st, s. split; [done|]. split; [done|]. by left. }
  rewrite drop_loop_S.
  destruct (length (stops_to_route s) <? 2)%nat eqn:Hlen.
  { left. exists st, s. split; [done|]. split; [done|]. by left. }
  apply Nat.ltb_ge in Hlen.
  pose proof Hinv as (Hc & Ht & _).
  destruct (solve_step_returns W b d s st Hsound Hc Ht Hlen)
    as [(Hfit & st1 & route & Hstep)|(Hfit & st1 & Hstep)]; rewrite Hstep.
  2:{ right. split; [|by eexists].
      destruct (ints_fit (length active) cm tm b d); [|done].
      rewrite Hints in Hfit by done. discriminate Hfit. }
  destruct (truthy_route route) eqn:Hroute.
  { left. eexists _, _. split; [done|]. split; [by eapply loop_inv_done|].
    intros _. right. exists s, st. done. }
  destruct (find_drop_idx st1 (stops_to_route s)) as [idx|] eqn:Hidx.
  - destruct (IH (after_drop s idx route)
                 (upd_stop (set_dropped (Some DROP_REASON)) (stops_to_route s !!! idx) st1))
      as [(st' & s' & Hrun & Hinv' & Hfound)|(Hno & st' & Hrun)];
      [by eapply loop_inv_step| | |].
    + intros _. unfold after_drop. cbn [stops_to_route c_mx t_mx].
      apply find_drop_idx_range in Hidx.
      rewrite length_delete by (apply lookup_lt_is_Some_2; lia).
      apply ints_fit_shrink; [lia|done].
    + left. exists st', s'. split; [done|]. split; [done|].
      intros Htruthy. destruct (Hfound Htruthy) as [Hold|?]; [|by right].
      cbn [after_drop route_indices] in Hold. congruence.
    + right. split; [done|]. by exists st'.
  - left. eexists _, _. split; [done|]. split; [by eapply loop_inv_done|].
    cbn [route_indices]. congruence.
Qed.

(** ** The answer, spelled out *)

Lemma get_stop_prefix st st' x r :
  stop_heap st' = stop_heap st ++ x ->
  (r < length (stop_heap st))%nat -> get_stop st' r = get_stop st r.
Proof.
  intros Hext Hr. unfold get_stop. rewrite Hext. by apply lookup_total_app_l.
Qed.

Lemma get_leg_prefix st st' x r :
  leg_heap st' = leg_heap st ++ x ->
  (r < length (leg_heap st))%nat -> get_leg st' r = get_leg st r.
Proof.
  intros Hext Hr. unfold get_leg. rewrite Hext. by apply lookup_total_app_l.
Qed.

(** Step 7 with the dropped stops it marks spelled out. *)
Lemma emit_itinerary_result itin s new_legs tc eta st :
  let it := get_itin st itin in
  Forall (fun r => (r < length (stop_heap st))%nat) (dropped_stops s) ->
  emit_itinerary itin s new_legs tc eta st
  = (mkStore (stop_heap st
                ++ (reflect_drop (get_stop st <$> dropped_stops s)
                      <$> (get_stop st <$> stops it)))
             (leg_heap st ++ (get_leg st <$> legs it))
             (itin_heap st ++
                [mkItin (itin_id it) (version it + 1) (user it)
                        (seq (length (stop_heap st)) (length (stops it)))
                        new_legs tc eta REPLANNING])
             (call_log st),
     Ok (length (itin_heap st))).
Proof.
  intros it Hvalid. unfold emit_itinerary, bind, run_alloc, modify, ret.
  rewrite model_copy_deep_eq. fold it. cbn [fst snd].
  rewrite get_itin_mk, upd_itin_mk, get_itin_mk.
  cbn [set_header version stops itin_id user].
  match goal with |- context [reflect_drop ?d] =>
    assert (d = get_stop st <$> dropped_stops s) as ->
  end.
  { apply Forall_fmap_ext_1. eapply Forall_impl; [exact Hvalid|].
    intros r Hr. by eapply get_stop_prefix. }
  set (ds := get_stop st <$> dropped_stops s).
  f_equal.
  match goal with |- for_each_stop ?f ?rs ?st0 = _ =>
    destruct (for_each_stop_frame f rs st0) as (Hl & Hi & Hc);
    pose proof (for_each_stop_block f st0 (stop_heap st) (get_stop st <$> stops it) [])
      as Hblock
  end.
  rewrite length_fmap in Hblock. simpl in Hblock. rewrite !app_nil_r in Hblock.
  specialize (Hblock eq_refl).
  apply store_eq; simpl; done.
Qed.

(** Steps 5.5 to 7 with every part of the answer spelled out; the clock
    arithmetic of step 6 is all that can raise once the legs are built. *)
Lemma assemble_result W old_itin itin details s st vs :
  let it := get_itin st itin in
  let old := get_itin st old_itin in
  let scored := score_legs vs (predict_friction W vs) in
  let ds := get_stop st <$> dropped_stops s in
  let old_legs := get_leg st <$> legs old in
  Forall (fun r => (r < length (stop_heap st))%nat) (dropped_stops s) ->
  Forall (fun r => (r < length (leg_heap st))%nat) (legs old) ->
  build_legs st it s details (default [] (route_indices s)) = Ok vs ->
  (assemble W old_itin itin details s st).2
  = match eta_after W (sumZ (durationSec <$> vs)),
          eta_delta W (sumZ (durationSec <$> vs)) (projectedETA old) with
    | Some eta, Some delta =>
        Ok (mkResult
              (mkDump (itin_id it) (version it + 1) (user it)
                      (reflect_drop ds <$> (get_stop st <$> stops it))
                      scored
                      (sumZ (costCents <$> vs))
                      eta
                      REPLANNING)
              (mkDiff ds
                      (truly_new_legs old_legs scored)
                      (changed_legs old_legs scored)
                      (sumZ (costCents <$> vs) - totalCost old)
                      delta)
              (mkMeta (if truthy_route (route_indices s) then "OR_TOOLS" else "GREEDY")
                      (Z.of_nat (length (dropped_stops s)))
                      (version it + 1)))
    | Some _, None => Raise TypeError
    | None, _ => Raise OverflowError
    end.
Proof.
  intros it old scored ds old_legs Hdropped Hold Hbuild.
  unfold assemble, bind, get_store, lift, ret. cbn [fst snd]. fold it.
  rewrite Hbuild. rewrite score_new_legs_run.
  set (st_b := mkStore (stop_heap st) (leg_heap st ++ score_legs vs (predict_friction W vs))
                       (itin_heap st) (call_log st ++ [CallPredictFriction (length vs)])).
  unfold compute_diff.
  assert (get_itin st_b old_itin = old) as -> by done.
  destruct (eta_after W (sumZ (durationSec <$> vs))) as [eta|]; cbn [or_raise res_bind];
    [|done].
  destruct (eta_delta W (sumZ (durationSec <$> vs)) (projectedETA old)) as [delta|];
    cbn [or_raise res_bind]; [|done].
  cbn [fst snd].
  rewrite (emit_itinerary_result itin s _ _ _ st_b) by done.
  cbn [fst snd stop_heap leg_heap itin_heap call_log].
  assert (get_itin st_b itin = it) as -> by done.
  assert (get_stop st_b = get_stop st) as Hgs by done.
  rewrite !Hgs. fold ds. fold scored.
  assert (get_leg st_b <$> seq (length (leg_heap st)) (length vs) = scored) as Hnow.
  { unfold get_leg. cbn [leg_heap].
    pose proof (lookup_total_block (leg_heap st) scored []) as Hb.
    unfold scored in Hb at 2. rewrite length_score_legs, app_nil_r in Hb. exact Hb. }
  f_equal. f_equal; [| |f_equal].
  - unfold model_dump. rewrite get_itin_mk.
    cbn [itin_id version user stops legs totalCost projectedETA itin_status].
    f_equal.
    + unfold get_stop. cbn [stop_heap].
      pose proof (lookup_total_block (stop_heap st)
                    (reflect_drop ds <$> (get_stop st <$> stops it)) []) as Hb.
      rewrite !length_fmap in Hb. rewrite app_nil_r in Hb. exact Hb.
    + unfold get_leg. cbn [leg_heap].
      pose proof (lookup_total_block (leg_heap st) scored (get_leg st_b <$> legs it)) as Hb.
      unfold scored in Hb at 2. rewrite length_score_legs in Hb.
      change (leg_heap st_b) with (leg_heap st ++ scored).
      rewrite <- app_assoc. exact Hb.
  - rewrite Hnow.
    assert (get_leg st_b <$> legs old = old_legs) as ->; [|done].
    apply Forall_fmap_ext_1. eapply Forall_impl; [exact Hold|].
    intros r Hr. by eapply get_leg_prefix.
  - by rewrite get_itin_mk.
Qed.

(** ** The legs of a route *)

Lemma build_leg_ok st it s details e :
  square (length (stops_to_route s)) (c_mx s) ->
  square (length (stops_to_route s)) (t_mx s) ->
  (e.1 < length (stops_to_route s))%nat ->
  (e.2 < length (stops_to_route s))%nat ->
  build_leg st it s details e.1 e.2 = Ok (leg_of st it s details e).
Proof.
  intros Hc Ht H1 H2. unfold build_leg, leg_of.
  rewrite (mx_get_entry _ _ _ _ Hc H1 H2). simpl.
  rewrite (mx_get_entry _ _ _ _ Ht H1 H2). simpl.
  destruct (lookup_lt_is_Some_2 _ _ H1) as [a Ha].
  destruct (lookup_lt_is_Some_2 _ _ H2) as [b Hb].
  rewrite Ha, Hb, (list_lookup_total_correct _ _ _ Ha), (list_lookup_total_correct _ _ _ Hb).
  by destruct e.
Qed.

Lemma build_legs_ok st it s details route :
  square (length (stops_to_route s)) (c_mx s) ->
  square (length (stops_to_route s)) (t_mx s) ->
  Forall (fun i => (i < length (stops_to_route s))%nat) route ->
  build_legs st it s details route = Ok (leg_of st it s details <$> route_edges route).
Proof.
  intros Hc Ht Hroute. unfold build_legs. apply res_mapM_ok.
  intros e He. rewrite Forall_forall in Hroute.
  destruct (edge_ends_in_route route e He) as [H1 H2].
  apply build_leg_ok; auto.
Qed.

(** ** Steps 1 to 5, every outcome *)

Lemma length_stop_heap_apply_disruption st itin event :
  length (stop_heap (apply_disruption st itin event)) = length (stop_heap st).
Proof.
  destruct (apply_disruption_heaps st itin event) as (-> & _). apply length_imap.
Qed.

Lemma loop_inv_start W st1 itin event :
  Forall (fun r => (r < length (stop_heap st1))%nat) (stops (get_itin st1 itin)) ->
  let sta := apply_disruption st1 itin event in
  let active := pending_stops sta itin in
  let out := fetch_alternatives W (get_stop sta <$> active)
                                (preferredModes (user (get_itin sta itin))) in
  (forall r, r ∈ active -> stop_status (get_stop sta r) = PENDING)
  /\ loop_inv sta active (already_dropped sta itin) out.1.1 out.1.2
              (mkLoop active out.1.1 out.1.2 (already_dropped sta itin) None)
              (log_call (CallFetchAlternatives (length active)) sta).
Proof.
  intros Hvalid sta active out.
  assert (forall r, r ∈ active -> stop_status (get_stop sta r) = PENDING) as Hpending.
  { intros r Hr. unfold active, pending_stops in Hr. by apply list_elem_of_filter in Hr as [? _]. }
  split; [done|].
  destruct (fetch_alternatives_square W (get_stop sta <$> active)
              (preferredModes (user (get_itin sta itin)))) as [Hc Ht].
  rewrite length_fmap in Hc, Ht. fold out in Hc, Ht.
  unfold loop_inv. cbn [stops_to_route c_mx t_mx dropped_stops].
  split; [done|]. split; [done|].
  split; [|split; [done|split; [|split; [|do 3 (split; [done|]); split; [by left|]]]]].
  4:{ split; [done|]. split; [done|]. exists []. by rewrite app_nil_r. }
  - apply Forall_forall. intros r Hr. split; [done|].
    unfold active, pending_stops in Hr. apply list_elem_of_filter in Hr as [_ Hr].
    unfold sta in Hr. rewrite get_itin_apply_disruption in Hr.
    rewrite Forall_forall in Hvalid. cbn [log_call stop_heap].
    unfold sta. rewrite length_stop_heap_apply_disruption. by apply Hvalid.
  - apply Forall_forall. intros r Hr. unfold already_dropped in Hr.
    by apply list_elem_of_filter in Hr as [? _].
  - intros r. by left.
Qed.

(** The deadline is read, or the read raises [TypeError]. *)
Lemma deadline_seconds_of_cases W dl :
  (seconds_until W dl = NoOffset /\ deadline_seconds_of W dl = Raise TypeError)
  \/ (exists d, deadline_seconds_of W dl = Ok d /\ 1 <= d
                /\ match seconds_until W dl with
                   | SecondsLeft secs => d = Z.max 1 secs
                   | NotIso => d = 3600
                   | NoOffset => False
                   end).
Proof.
  unfold deadline_seconds_of. destruct (seconds_until W dl) as [secs| |].
  - right. exists (Z.max 1 secs). split; [done|]. split; [lia|done].
  - right. exists 3600. split; [done|]. split; [lia|done].
  - by left.
Qed.

Lemma solve_stage_run W itin event st1 :
  cp_sound (cp_solve W) ->
  Forall (fun r => (r < length (stop_heap st1))%nat) (stops (get_itin st1 itin)) ->
  let sta := apply_disruption st1 itin event in
  let active := pending_stops sta itin in
  let it := get_itin st1 itin in
  let b := budgetCents (user it) in
  let fetched := fetch_alternatives W (get_stop sta <$> active) (preferredModes (user it)) in
  let cm := fetched.1.1 in
  let tm := fetched.1.2 in
  let details := fetched.2 in
  let already := already_dropped sta itin in
  let out := solve_stage W itin event st1 in
  ((length active < 2)%nat /\ out = (sta, Raise (HTTPException 422 NEED_TWO_STOPS)))
  \/ ((2 <= length active)%nat
      /\ seconds_until W (returnDeadline (user it)) = NoOffset
      /\ out.2 = Raise TypeError)
  \/ ((2 <= length active)%nat
      /\ exists d,
          deadline_seconds_of W (returnDeadline (user it)) = Ok d
          /\ ((ints_fit (length active) cm tm b d = false /\ out.2 = Raise TypeError)
              \/ exists st2 s,
                  loop_inv sta active already cm tm s st2
                  /\ ((truthy_route (route_indices s) = false
                       /\ out = (st2, Raise (HTTPException 422 NO_FEASIBLE_ROUTE)))
                      \/ (out = (st2, Ok (details, s))
                          /\ exists route s1 st0,
                              route_indices s = Some route
                              /\ loop_inv sta active already cm tm s1 st0
                              /\ (2 <= length (stops_to_route s1))%nat
                              /\ solve_step W b d s1 st0 = (st2, Ok (Some route))
                              /\ s = mkLoop (stops_to_route s1) (c_mx s1) (t_mx s1)
                                            (dropped_stops s1) (Some route))))).
Proof.
  intros Hsound Hvalid sta active it b fetched cm tm details already out.
  destruct (loop_inv_start W st1 itin event Hvalid) as [Hpending Hinv0].
  fold sta active in Hpending, Hinv0. cbv zeta in Hinv0. fold already in Hinv0.
  subst out. unfold solve_stage, bind, modify, get_store, raise, ret, lift. cbn [fst snd].
  fold sta. fold active.
  destruct (length active <? 2)%nat eqn:Hlen.
  { left. apply Nat.ltb_lt in Hlen. done. }
  apply Nat.ltb_ge in Hlen. right.
  assert (get_itin sta itin = it) as Hit by apply get_itin_apply_disruption.
  rewrite Hit in *. fold b. fold fetched in Hinv0 |- *. fold already.
  subst cm tm details. clearbody fetched. destruct fetched as [[cm tm] details].
  cbn [fst snd] in *.
  destruct (deadline_seconds_of_cases W (returnDeadline (user it)))
    as [[Hnaive ->]|(d & -> & _)]; [by left|].
  right. split; [done|]. exists d. split; [done|].
  destruct (drop_loop_returns sta active already cm tm W b d Hsound Hpending
              (length active) _ _ Hinv0)
    as [(st2 & s & Hrun & Hinv & Hfound)|(Hfit & st2 & Hrun)]; [done| |].
  2:{ left. split; [done|]. by rewrite Hrun. }
  right. rewrite Hrun. exists st2, s. split; [done|].
  destruct (truthy_route (route_indices s)) eqn:Htruthy; [right|left; done].
  split; [done|].
  destruct (Hfound eq_refl) as [Hold|(s1 & st0 & Hinv1 & Hn1 & Hstep & Hs)]; [done|].
  destruct (route_indices s) as [route|] eqn:Hroute; [|done].
  exists route, s1, st0. done.
Qed.

(** ** The pipeline, every outcome *)

Lemma copy_stops_valid st r :
  let w := model_copy_deep st r in
  Forall (fun x => (x < length (stop_heap w.1))%nat) (stops (get_itin w.1 w.2)).
Proof.
  intros w. subst w. rewrite get_itin_copy. rewrite model_copy_deep_eq.
  cbn [fst snd stops stop_heap]. apply Forall_forall. intros x Hx%elem_of_seq.
  rewrite length_app, length_fmap. lia.
Qed.

(** Steps 1 to 5 run on the working copy: what the request refers to is
    read back unchanged. *)
Lemma request_untouched st r event st2 :
  wf_itin st r ->
  let w := model_copy_deep st r in
  let sta := apply_disruption w.1 w.2 event in
  leg_heap st2 = leg_heap sta ->
  itin_heap st2 = itin_heap sta ->
  get_itin st2 r = get_itin st r
  /\ get_leg st2 <$> legs (get_itin st r) = get_leg st <$> legs (get_itin st r)
  /\ Forall (fun x => (x < length (leg_heap st2))%nat) (legs (get_itin st r)).
Proof.
  intros (Hr & _ & Hlegs) w sta Hl Hi.
  destruct (apply_disruption_heaps w.1 w.2 event) as (_ & Hla & Hia & _).
  fold sta in Hla, Hia. cbv zeta in Hla.
  pose proof (get_itin_copy st r) as Hcopy. fold w in Hcopy.
  rewrite Hcopy in Hla. cbn [legs] in Hla.
  assert (leg_heap w.1 = leg_heap st ++ (get_leg st <$> legs (get_itin st r))) as Hw1.
  { subst w. by rewrite model_copy_deep_eq. }
  assert (itin_heap w.1 = itin_heap st ++ [get_itin w.1 w.2]) as Hw2.
  { rewrite Hcopy. subst w. by rewrite model_copy_deep_eq. }
  assert (forall x, (x < length (leg_heap st))%nat -> get_leg st2 x = get_leg st x) as Hsame.
  { intros x Hx. unfold get_leg. rewrite Hl, Hla, lookup_total_imap_if.
    rewrite bool_decide_eq_false_2 by (rewrite elem_of_seq; lia). cbn [andb].
    rewrite Hw1. by apply lookup_total_app_l. }
  split; [|split].
  - unfold get_itin. rewrite Hi, Hia, Hw2. by apply lookup_total_app_l.
  - apply Forall_fmap_ext_1. eapply Forall_impl; [exact Hlegs|]. intros x Hx. by apply Hsame.
  - eapply Forall_impl; [exact Hlegs|]. intros x Hx. simpl in Hx.
    rewrite Hl, Hla, length_imap, Hw1, length_app. lia.
Qed.

Lemma dropped_valid st r :
  stop_status (get_stop st r) = DROPPED -> (r < length (stop_heap st))%nat.
Proof.
  intros Hst. destruct (decide (r < length (stop_heap st))%nat) as [?|Hge]; [done|].
  unfold get_stop in Hst. rewrite list_lookup_total_alt, lookup_ge_None_2 in Hst by lia.
  discriminate Hst.
Qed.

Lemma replan_run W req st :
  cp_sound (cp_solve W) ->
  wf_itin st (itinerary req) ->
  let it := get_itin st (itinerary req) in
  let event := disruption req in
  let w := model_copy_deep st (itinerary req) in
  let sta := apply_disruption w.1 w.2 event in
  let active := pending_stops sta w.2 in
  let b := budgetCents (user it) in
  let fetched := fetch_alternatives W (get_stop sta <$> active) (preferredModes (user it)) in
  let cm := fetched.1.1 in
  let tm := fetched.1.2 in
  let details := fetched.2 in
  let already := already_dropped sta w.2 in
  let out := (replan_itinerary W req st).2 in
  is_demo_bypass W it event = false ->
  ((length active < 2)%nat /\ out = Raise (HTTPException 422 NEED_TWO_STOPS))
  \/ ((2 <= length active)%nat
      /\ seconds_until W (returnDeadline (user it)) = NoOffset
      /\ out = Raise TypeError)
  \/ ((2 <= length active)%nat
      /\ exists d,
          deadline_seconds_of W (returnDeadline (user it)) = Ok d
          /\ ((ints_fit (length active) cm tm b d = false /\ out = Raise TypeError)
              \/ exists st2 s,
                  loop_inv sta active already cm tm s st2
                  /\ ((truthy_route (route_indices s) = false
                       /\ out = Raise (HTTPException 422 NO_FEASIBLE_ROUTE))
                      \/ exists route s1 st0,
                          route_indices s = Some route
                          /\ loop_inv sta active already cm tm s1 st0
                          /\ (2 <= length (stops_to_route s1))%nat
                          /\ solve_step W b d s1 st0 = (st2, Ok (Some route))
                          /\ s = mkLoop (stops_to_route s1) (c_mx s1) (t_mx s1)
                                        (dropped_stops s1) (Some route)
                          /\ head route = Some 0%nat
                          /\ NoDup route
                          /\ Forall (fun i => (i < length (stops_to_route s))%nat) route
                          /\ path_cost (t_mx s) route <= d
                          /\ (2 <= length route)%nat
                          /\ let vs := leg_of st2 (get_itin w.1 w.2) s details
                                          <$> route_edges route in
                             out
                             = match eta_after W (sumZ (durationSec <$> vs)),
                                     eta_delta W (sumZ (durationSec <$> vs))
                                               (projectedETA it) with
                               | Some eta, Some delta =>
                                   Ok (pipeline_answer W it (get_leg st <$> legs it)
                                         (get_stop st2 <$> stops (get_itin w.1 w.2))
                                         (get_stop st2 <$> dropped_stops s)
                                         vs eta delta)
                               | Some _, None => Raise TypeError
                               | None, _ => Raise OverflowError
                               end))).
Proof.
  intros Hsound Hwf it event w sta active b fetched cm tm details already out Hdemo.
  pose proof (is_demo_bypass_copy W st (itinerary req) event) as Hdemo'.
  pose proof (get_itin_copy st (itinerary req)) as Hcopy.
  pose proof (solve_stage_keeps_itin W st (itinerary req) event) as Hkeep.
  pose proof (copy_stops_valid st (itinerary req)) as Hvalid.
  fold w it in Hdemo', Hcopy, Hkeep, Hvalid. cbv zeta in Hkeep, Hvalid.
  rewrite Hdemo in Hdemo'.
  assert (user (get_itin w.1 w.2) = user it) as Huser by (by rewrite Hcopy).
  pose proof (solve_stage_run W w.2 event w.1 Hsound Hvalid) as Hstage.
  cbv zeta in Hstage. fold sta active in Hstage. rewrite Huser in Hstage.
  fold b fetched in Hstage. fold cm tm details already in Hstage.
  assert (out = (bind (solve_stage W w.2 event)
                      (fun r => assemble W (itinerary req) w.2 r.1 r.2) w.1).2) as Hout.
  { subst out. unfold replan_itinerary, bind at 1, run_alloc, get_store. cbv beta.
    fold w.
    change (let '(st', a) := w in (st', Ok a)) with ((w.1, Ok w.2) : Store * Res ref).
    cbv iota beta. unfold bind at 1. cbv iota beta. fold event. by rewrite Hdemo'. }
  rewrite Hout. unfold bind.
  destruct Hstage as [[Hlen Hrun]|[(Hlen & Hnaive & Hrun)|(Hlen & d & Hd & Hstage)]].
  { left. split; [done|]. by rewrite Hrun. }
  { right; left. split; [done|]. split; [done|].
    destruct (solve_stage W w.2 event w.1) as [st2 res]. cbn [fst snd] in *.
    by rewrite Hrun. }
  right; right. split; [done|]. exists d. split; [done|].
  destruct Hstage as [[Hfit Hrun]|(st2 & s & Hinv & Hcase)].
  { left. split; [done|].
    destruct (solve_stage W w.2 event w.1) as [st2 res]. cbn [fst snd] in *.
    by rewrite Hrun. }
  right. exists st2, s. split; [done|].
  destruct Hcase as [[Hfalsy Hrun]|(Hrun & route & s1 & st0 & Hroute & Hinv1 & Hn1 & Hstep & Hs)].
  { left. split; [done|]. by rewrite Hrun. }
  right. exists route, s1, st0.
  pose proof Hinv1 as (Hc1 & Ht1 & _).
  destruct (solve_step_route W b d s1 st0 st2 route Hsound Hc1 Ht1 Hn1 Hstep)
    as (Hhead & Hnd & Hrange & Htime & Hlen2).
  assert (stops_to_route s = stops_to_route s1) as Hst by (by rewrite Hs).
  assert (t_mx s = t_mx s1) as Htm by (by rewrite Hs).
  rewrite Hst, Htm.
  do 10 (split; [done|]).
  rewrite Hrun. cbn [fst snd].
  pose proof Hinv as (Hc & Ht & _ & _ & Hdropped & _ & _ & Hlegs & Hitin & _).
  destruct (request_untouched st (itinerary req) event st2 Hwf Hlegs Hitin)
    as (Hold & Hold_legs & Hold_valid).
  fold it in Hold, Hold_legs, Hold_valid.
  assert (get_itin st2 w.2 = get_itin w.1 w.2) as Hwork.
  { rewrite <- Hkeep. by rewrite Hrun. }
  cbv zeta.
  set (vs := leg_of st2 (get_itin w.1 w.2) s details <$> route_edges route).
  rewrite (assemble_result W (itinerary req) w.2 details s st2 vs).
  - rewrite Hold, Hold_legs, Hwork, Hroute. unfold pipeline_answer.
    rewrite Hcopy. cbn [itin_id version user].
    rewrite length_fmap.
    assert (truthy_route (Some route) = true) as -> by (by destruct route).
    done.
  - eapply Forall_impl; [exact Hdropped|]. intros r [Hr _]. by apply dropped_valid.
  - by rewrite Hold.
  - rewrite Hwork, Hroute. cbn [default]. apply build_legs_ok; [done|done|].
    by rewrite Hst.
Qed.

(** ** The answer of the demo bypass *)

Lemma filter_fmap {A B} (f : A -> B) (P : B -> Prop) (Q : A -> Prop)
      `{forall x, Decision (P x)} `{forall x, Decision (Q x)} (l : list A) :
  (forall x, Q x <-> P (f x)) -> filter P (f <$> l) = f <$> filter Q l.
Proof.
  intros Hiff. induction l as [|a l IH]; [done|].
  rewrite fmap_cons, !filter_cons.
  destruct (decide (P (f a))) as [HP|HP], (decide (Q a)) as [HQ|HQ].
  - by rewrite fmap_cons, IH.
  - by apply Hiff in HP.
  - by apply Hiff in HQ.
  - done.
Qed.

Lemma hardcoded_maya_replan_result itin st :
  let it := get_itin st itin in
  (hardcoded_maya_replan itin st).2
  = Ok (demo_answer it (get_stop st <$> stops it) (maya_legs st it))
  /\ call_log (hardcoded_maya_replan itin st).1 = call_log st.
Proof.
  intros it. unfold hardcoded_maya_replan, bind, get_store, run_alloc, ret.
  unfold alloc_stops, alloc_legs, alloc_itin. cbn [fst snd stop_heap leg_heap itin_heap call_log].
  fold it.
  set (vals := maya_stop <$> (get_stop st <$> stops it)).
  set (st1 := mkStore (stop_heap st ++ vals) (leg_heap st) (itin_heap st) (call_log st)).
  change (maya_legs st1 it) with (maya_legs st it).
  split; [|done]. unfold model_dump. rewrite !get_itin_mk.
  cbn [itin_id version user stops legs totalCost projectedETA itin_status].
  unfold demo_answer. fold vals.
  assert ((fun r => (stop_heap st ++ vals) !!! r) <$> seq (length (stop_heap st)) (length vals)
          = vals) as Hblock.
  { pose proof (lookup_total_block (stop_heap st) vals []) as Hb.
    by rewrite app_nil_r in Hb. }
  assert ((fun r => (leg_heap st ++ maya_legs st it) !!! r)
            <$> seq (length (leg_heap st)) (length (maya_legs st it))
          = maya_legs st it) as Hlblock.
  { pose proof (lookup_total_block (leg_heap st) (maya_legs st it) []) as Hb.
    by rewrite app_nil_r in Hb. }
  unfold get_stop, get_leg. cbn [stop_heap leg_heap].
  rewrite Hblock, Hlblock. do 3 f_equal.
  transitivity (filter (fun s => String.eqb (stop_id s) "rooftop-bar" = true)
                       ((fun r => (stop_heap st ++ vals) !!! r)
                          <$> seq (length (stop_heap st)) (length vals)));
    [|by rewrite Hblock].
  symmetry. by apply filter_fmap.
Qed.

Lemma replan_demo_run W req st :
  let it := get_itin st (itinerary req) in
  is_demo_bypass W it (disruption req) = true ->
  (replan_itinerary W req st).2
  = Ok (demo_answer it (get_stop st <$> stops it) (maya_legs st it))
  /\ call_log (replan_itinerary W req st).1 = call_log st.
Proof.
  intros it Hdemo.
  pose proof (is_demo_bypass_copy W st (itinerary req) (disruption req)) as Hdemo'.
  pose proof (get_itin_copy st (itinerary req)) as Hcopy.
  pose proof (get_stop_copy st (itinerary req)) as Hstops.
  pose proof (get_leg_copy st (itinerary req)) as Hlegs.
  set (w := model_copy_deep st (itinerary req)) in *. fold it in Hdemo', Hcopy, Hstops, Hlegs.
  rewrite Hdemo in Hdemo'.
  assert (replan_itinerary W req st = hardcoded_maya_replan w.2 w.1) as ->.
  { unfold replan_itinerary, bind at 1, run_alloc, get_store. cbv beta. fold w.
    change (let '(st', a) := w in (st', Ok a)) with ((w.1, Ok w.2) : Store * Res ref).
    cbv iota beta. unfold bind at 1. cbv iota beta. by rewrite Hdemo'. }
  destruct (hardcoded_maya_replan_result w.2 w.1) as (Hrun & Hlog).
  split.
  - rewrite Hrun. f_equal. rewrite Hcopy. cbn [stops]. rewrite Hstops.
    unfold maya_legs. cbn [legs]. rewrite Hlegs.
    unfold demo_answer. cbn [itin_id version user totalCost]. done.
  - rewrite Hlog. subst w. by rewrite model_copy_deep_eq.
Qed.

(** ** The answer of the pipeline *)

Lemma score_legs_fmap W vs :
  score_legs vs (predict_friction W vs)
  = (fun v => set_friction (round3 (friction_raw W v))
                           (classify_friction_level (friction_raw W v)) v) <$> vs.
Proof.
  unfold score_legs, predict_friction. induction vs as [|v vs IH]; [done|].
  rewrite !fmap_cons. cbn [zip_with fst snd]. f_equal. exact IH.
Qed.

Lemma durationSec_score_legs W vs :
  durationSec <$> score_legs vs (predict_friction W vs) = durationSec <$> vs.
Proof. rewrite score_legs_fmap, <- list_fmap_compose. by apply list_fmap_ext. Qed.

Lemma durations_leg_of st it s details route :
  sumZ (durationSec <$> (leg_of st it s details <$> route_edges route))
  = path_cost (t_mx s) route.
Proof. unfold path_cost. by rewrite <- list_fmap_compose. Qed.

(** A successful run outside the demo bypass, in terms of the request:
    the deadline was read as [d], the clock gave the new ETA [eta] and
    its distance [delta] to the old one. *)
Lemma replan_ok_run W req st st' r :
  cp_sound (cp_solve W) ->
  wf_itin st (itinerary req) ->
  replan_itinerary W req st = (st', Ok r) ->
  let it := get_itin st (itinerary req) in
  let event := disruption req in
  let w := model_copy_deep st (itinerary req) in
  let sta := apply_disruption w.1 w.2 event in
  let active := pending_stops sta w.2 in
  let b := budgetCents (user it) in
  let fetched := fetch_alternatives W (get_stop sta <$> active) (preferredModes (user it)) in
  let cm := fetched.1.1 in
  let tm := fetched.1.2 in
  let details := fetched.2 in
  let already := already_dropped sta w.2 in
  let total := sumZ (durationSec <$> d_legs (res_itinerary r)) in
  is_demo_bypass W it event = false ->
  exists d eta delta,
    deadline_seconds_of W (returnDeadline (user it)) = Ok d
    /\ eta_after W total = Some eta
    /\ eta_delta W total (projectedETA it) = Some delta
    /\ (2 <= length active)%nat
    /\ exists st2 s route s1 st0,
      loop_inv sta active already cm tm s st2
      /\ route_indices s = Some route
      /\ loop_inv sta active already cm tm s1 st0
      /\ (2 <= length (stops_to_route s1))%nat
      /\ solve_step W b d s1 st0 = (st2, Ok (Some route))
      /\ s = mkLoop (stops_to_route s1) (c_mx s1) (t_mx s1) (dropped_stops s1) (Some route)
      /\ head route = Some 0%nat
      /\ NoDup route
      /\ Forall (fun i => (i < length (stops_to_route s))%nat) route
      /\ path_cost (t_mx s) route <= d
      /\ (2 <= length route)%nat
      /\ r = pipeline_answer W it (get_leg st <$> legs it)
                             (get_stop st2 <$> stops (get_itin w.1 w.2))
                             (get_stop st2 <$> dropped_stops s)
                             (leg_of st2 (get_itin w.1 w.2) s details <$> route_edges route)
                             eta delta.
Proof.
  intros Hsound Hwf Hrun it event w sta active b fetched cm tm details already total Hdemo.
  pose proof (replan_run W req st Hsound Hwf Hdemo) as Hall. cbv zeta in Hall.
  fold it event w sta active b fetched in Hall. fold cm tm details already in Hall.
  rewrite Hrun in Hall. cbn [snd] in Hall.
  destruct Hall as [[_ Hbad]|[(_ & _ & Hbad)|(Hlen & d & Hd & Hcase)]];
    [discriminate Hbad..|].
  destruct Hcase as [[_ Hbad]|(st2 & s & Hinv & Hcase)]; [discriminate Hbad|].
  destruct Hcase as [[_ Hbad]|(route & s1 & st0 & H)]; [discriminate Hbad|].
  destruct H as (? & ? & ? & ? & ? & ? & ? & ? & ? & ? & Hr).
  set (vs := leg_of st2 (get_itin w.1 w.2) s details <$> route_edges route) in *.
  destruct (eta_after W (sumZ (durationSec <$> vs))) as [eta|] eqn:Heta;
    [|discriminate Hr].
  destruct (eta_delta W (sumZ (durationSec <$> vs)) (projectedETA it)) as [delta|] eqn:Hdelta;
    [|discriminate Hr].
  injection Hr as Hr.
  assert (total = sumZ (durationSec <$> vs)) as Htotal.
  { subst total. rewrite Hr. unfold pipeline_answer. cbn [res_itinerary d_legs].
    by rewrite durationSec_score_legs. }
  exists d, eta, delta. rewrite Htotal.
  do 4 (split; [done|]). exists st2, s, route, s1, st0. done.
Qed.




(** X15.  When the pipeline answers (no demo bypass), the return
    deadline was read, and the durations of the returned legs sum to no
    more than the deadline the solvers were given: the whole seconds
    left until [returnDeadline], but at least one second, or 3600
    seconds when [returnDeadline] is no ISO date. *)
Theorem replan_within_deadline (W : World) (req : ReplanRequest) (st st' : Store)
        (r : ReplanResult) :
  cp_sound (cp_solve W) ->
  wf_itin st (itinerary req) ->
  replan_itinerary W req st = (st', Ok r) ->
  is_demo_bypass W (get_itin st (itinerary req)) (disruption req) = false ->
  let total := sumZ (durationSec <$> d_legs (res_itinerary r)) in
  match seconds_until W (returnDeadline (user (get_itin st (itinerary req)))) with
  | SecondsLeft secs => total <= Z.max 1 secs
  | NotIso => total <= 3600
  | NoOffset => False
  end.
Proof.
  intros Hsound Hwf Hrun Hdemo total.
  destruct (replan_ok_run W req st st' r Hsound Hwf Hrun Hdemo)
    as (d & eta & delta & Hd & _ & _ & _ & st2 & s & route & s1 & st0
        & _ & _ & _ & _ & _ & _ & _ & _ & _ & Htime & _ & Hr).
  assert (total <= d) as Hle.
  { subst total. rewrite Hr. unfold pipeline_answer. cbn [res_itinerary d_legs].
    by rewrite durationSec_score_legs, durations_leg_of. }
  unfold deadline_seconds_of in Hd.
  destruct (seconds_until W _) as [secs| |]; [| |discriminate Hd];
    injection Hd as <-; done.
Qed.

Lemma replan_within_deadline_witness :
  exists st' r,
    replan_itinerary Ex.world (mkReq 0%nat Ex.ev_weather) Ex.st_two = (st', Ok r)
    /\ sumZ (durationSec <$> d_legs (res_itinerary r)) <= Z.max 1 100.
Proof.
  destruct (replan_itinerary Ex.world (mkReq 0%nat Ex.ev_weather) Ex.st_two)
    as [st' res] eqn:E.
  assert (exists r, res = Ok r) as [r ->].
  { replace res with (replan_itinerary Ex.world (mkReq 0%nat Ex.ev_weather) Ex.st_two).2
      by (by rewrite E).
    vm_compute. eauto. }
  exists st', r. split; [reflexivity|].
  assert (cp_sound (cp_solve Ex.world)) as Hsound by (intros m a Hm; discriminate Hm).
  assert (wf_itin Ex.st_two 0%nat) as Hwf.
  { split; [simpl; lia|]. split; vm_compute; repeat constructor. }
  exact (replan_within_deadline Ex.world (mkReq 0%nat Ex.ev_weather) Ex.st_two st' r
           Hsound Hwf E eq_refl).
Defined.

(** ** The stops of the answer *)

Lemma stop_kept_refl s : stop_kept s s.
Proof. unfold stop_kept. by repeat split; try left. Qed.

Lemma stop_kept_trans a b c : stop_kept a b -> stop_kept b c -> stop_kept a c.
Proof.
  intros (H1 & H2 & H3 & H4 & H5 & H6) (K1 & K2 & K3 & K4 & K5 & K6).
  unfold stop_kept. rewrite K1, K2, K3, K4, K5.
  do 5 (split; [done|]).
  destruct K6 as [->|?]; [done|by right].
Qed.

Lemma stop_only_dropped_kept a b : stop_only_dropped a b -> stop_kept a b.
Proof.
  intros [->|(_ & reason & Hne & ->)]; [apply stop_kept_refl|].
  unfold stop_kept. simpl. do 5 (split; [done|]). right. split; [done|].
  by apply negb_true_iff, String.eqb_neq.
Qed.

Lemma reflect_drop_kept ds s :
  Forall (fun d => truthy_str (dropReason d) = true) ds -> stop_kept s (reflect_drop ds s).
Proof.
  intros Hds. unfold reflect_drop.
  destruct (find _ ds) as [m|] eqn:Hfind; [|apply stop_kept_refl].
  apply find_some in Hfind as [Hin%list_elem_of_In _].
  rewrite Forall_forall in Hds. specialize (Hds m Hin).
  unfold stop_kept. simpl. do 5 (split; [done|]). by right.
Qed.

Lemma maya_stop_kept s : stop_kept s (maya_stop s).
Proof.
  unfold maya_stop. destruct (String.eqb _ _); [|apply stop_kept_refl].
  unfold stop_kept. simpl. do 5 (split; [done|]). by right.
Qed.

(** X16.  In every successful answer, demo bypass included, the stops
    are those of the request, in order: each keeps its id, name,
    coordinates and priority, and is either exactly as in the request or
    [DROPPED] with a reason that is not empty.  No stop is added, lost or
    reordered. *)
Theorem replan_keeps_every_stop (W : World) (req : ReplanRequest) (st st' : Store)
        (r : ReplanResult) :
  cp_sound (cp_solve W) ->
  wf_itin st (itinerary req) ->
  replan_itinerary W req st = (st', Ok r) ->
  Forall2 stop_kept (request_stops st req) (d_stops (res_itinerary r)).
Proof.
  intros Hsound Hwf Hrun. unfold request_stops.
  set (it := get_itin st (itinerary req)).
  set (vals := get_stop st <$> stops it).
  destruct (is_demo_bypass W it (disruption req)) eqn:Hdemo.
  { destruct (replan_demo_run W req st Hdemo) as (Hdemo_run & _).
    rewrite Hrun in Hdemo_run. injection Hdemo_run as ->.
    unfold demo_answer. cbn [res_itinerary d_stops]. fold it vals.
    apply Forall2_fmap_r, Forall_Forall2_diag, Forall_forall.
    intros s _. apply maya_stop_kept. }
  destruct (replan_ok_run W req st st' r Hsound Hwf Hrun Hdemo)
    as (d & eta & delta & _ & _ & _ & _ & st2 & s & route & s1 & st0
        & Hinv & _ & _ & _ & _ & _ & _ & _ & _ & _ & _ & ->).
  unfold pipeline_answer. cbn [res_itinerary d_stops].
  set (w := model_copy_deep st (itinerary req)) in *.
  set (sta := apply_disruption w.1 w.2 (disruption req)) in *.
  destruct Hinv as (_ & _ & _ & _ & Hdropped & Hrel & Hlen & _).
  pose proof (stop_heap_step1 st (itinerary req) (disruption req)) as Hstep1.
  cbv zeta in Hstep1. fold w sta it vals in Hstep1.
  pose proof (get_itin_copy st (itinerary req)) as Hcopy. fold w it in Hcopy.
  rewrite Hcopy. cbn [stops].
  assert (Forall (fun d => truthy_str (dropReason d) = true)
                 (get_stop st2 <$> dropped_stops s)) as Hds.
  { apply Forall_fmap. eapply Forall_impl; [exact Hdropped|]. by intros x [_ ?]. }
  apply Forall2_same_length_lookup_2.
  { unfold vals. by rewrite !length_fmap, length_seq. }
  intros k s_in s_out Hin Hout.
  rewrite !list_lookup_fmap in Hout.
  assert (k < length (stops it))%nat as Hk.
  { apply lookup_lt_Some in Hin. unfold vals in Hin. by rewrite length_fmap in Hin. }
  rewrite lookup_seq_lt in Hout by done. simpl in Hout.
  injection Hout as <-.
  eapply stop_kept_trans; [|by apply reflect_drop_kept].
  eapply stop_kept_trans; [|apply stop_only_dropped_kept, Hrel].
  assert (get_stop sta (length (stop_heap st) + k) = step1_stop (disruption req) s_in) as ->.
  { unfold get_stop. rewrite Hstep1. rewrite lookup_total_app_r by lia.
    replace (length (stop_heap st) + k - length (stop_heap st))%nat with k by lia.
    apply list_lookup_total_correct. by rewrite list_lookup_fmap, Hin. }
  apply stop_only_dropped_kept, step1_stop_only_drops.
Qed.

Lemma replan_keeps_every_stop_witness :
  exists st' r,
    replan_itinerary Ex.world (mkReq 0%nat Ex.ev_weather) Ex.st_four = (st', Ok r)
    /\ Forall2 stop_kept (request_stops Ex.st_four (mkReq 0%nat Ex.ev_weather))
               (d_stops (res_itinerary r)).
Proof.
  destruct (replan_itinerary Ex.world (mkReq 0%nat Ex.ev_weather) Ex.st_four)
    as [st' res] eqn:E.
  assert (exists r, res = Ok r) as [r ->].
  { replace res with (replan_itinerary Ex.world (mkReq 0%nat Ex.ev_weather) Ex.st_four).2
      by (by rewrite E).
    vm_compute. eauto. }
  exists st', r. split; [reflexivity|].
  assert (cp_sound (cp_solve Ex.world)) as Hsound by (intros m a Hm; discriminate Hm).
  assert (wf_itin Ex.st_four 0%nat) as Hwf.
  { split; [simpl; lia|]. split; vm_compute; repeat constructor. }
  exact (replan_keeps_every_stop Ex.world (mkReq 0%nat Ex.ev_weather) Ex.st_four st' r
           Hsound Hwf E).
Defined.

(** ** The legs of the answer *)

Lemma lookup_route_edges route k e :
  route_edges route !! k = Some e -> route !! k = Some e.1 /\ route !! S k = Some e.2.
Proof.
  unfold route_edges. intros (x & y & -> & Hx & Hy)%lookup_zip_with_Some.
  by rewrite lookup_tail in Hy.
Qed.

Lemma route_edges_chain route k e1 e2 :
  route_edges route !! k = Some e1 ->
  route_edges route !! S k = Some e2 ->
  e1.2 = e2.1.
Proof.
  intros [_ H1]%lookup_route_edges [H2 _]%lookup_route_edges. congruence.
Qed.

Lemma length_route_edges route : length (route_edges route) = (length route - 1)%nat.
Proof.
  unfold route_edges. destruct route as [|a rest]; [done|]. simpl tail.
  replace (length (a :: rest) - 1)%nat with (length rest) by (simpl; lia).
  revert a. induction rest as [|b rest IH]; intros a; [done|].
  simpl. f_equal. apply IH.
Qed.

Lemma head_route_edges route e : head (route_edges route) = Some e -> head route = Some e.1.
Proof. destruct route as [|a [|b rest]]; try done. by intros [= <-]. Qed.

Lemma fetch_alternatives_mode W active modes e d m :
  (fetch_alternatives W active modes).2 !! e = Some (d, m) -> m = hd WALKING modes.
Proof.
  unfold fetch_alternatives. cbn [snd]. intros H%elem_of_list_to_map_2.
  apply list_elem_of_fmap in H as (e' & Heq & _). by injection Heq as _ _ ->.
Qed.

(** The stops step 2 routes are those of the request that step 1 leaves
    pending, in the order of the request. *)
Lemma pending_stops_values st r event :
  let w := model_copy_deep st r in
  let sta := apply_disruption w.1 w.2 event in
  get_stop sta <$> pending_stops sta w.2
  = step1_stop event
      <$> filter (fun s => routable event s = true) (get_stop st <$> stops (get_itin st r)).
Proof.
  intros w sta. unfold pending_stops.
  replace (get_itin sta w.2) with (get_itin w.1 w.2)
    by (symmetry; apply get_itin_apply_disruption).
  pose proof (get_itin_copy st r) as Hcopy. fold w in Hcopy. rewrite Hcopy. cbn [stops].
  pose proof (stop_heap_step1 st r event) as Hstep1. cbv zeta in Hstep1. fold w sta in Hstep1.
  set (vals := get_stop st <$> stops (get_itin st r)) in *.
  assert (get_stop sta <$> seq (length (stop_heap st)) (length (stops (get_itin st r)))
          = step1_stop event <$> vals) as Hblock.
  { unfold get_stop. rewrite Hstep1.
    pose proof (lookup_total_block (stop_heap st) (step1_stop event <$> vals) []) as Hb.
    rewrite app_nil_r in Hb. unfold vals in Hb at 2. by rewrite !length_fmap in Hb. }
  transitivity (filter (fun s => stop_status s = PENDING)
                       (get_stop sta
                          <$> seq (length (stop_heap st)) (length (stops (get_itin st r))))).
  { symmetry. by apply filter_fmap. }
  rewrite Hblock. apply filter_fmap. intros s. unfold routable.
  by rewrite bool_decide_eq_true.
Qed.

Lemma stop_only_dropped_id a b : stop_only_dropped a b -> stop_id b = stop_id a.
Proof. by intros (? & _)%stop_only_dropped_kept. Qed.

(** X17.  When the pipeline answers (no demo bypass) there is at least
    one leg; every leg is available, uses the user's first preferred
    mode ([WALKING] when there is none) and carries a friction score and
    level; each leg starts at the stop where the one before it ends; and
    the first leg starts at the first stop of the request that step 1
    leaves pending. *)
Theorem replan_legs_form_a_path (W : World) (req : ReplanRequest) (st st' : Store)
        (r : ReplanResult) :
  cp_sound (cp_solve W) ->
  wf_itin st (itinerary req) ->
  replan_itinerary W req st = (st', Ok r) ->
  is_demo_bypass W (get_itin st (itinerary req)) (disruption req) = false ->
  let it := get_itin st (itinerary req) in
  let legs := d_legs (res_itinerary r) in
  (1 <= length legs)%nat
  /\ Forall (fun leg => available leg = true
                        /\ mode leg = hd WALKING (preferredModes (user it))
                        /\ is_Some (frictionScore leg)
                        /\ is_Some (frictionLevel leg)) legs
  /\ (forall k l1 l2,
        legs !! k = Some l1 -> legs !! S k = Some l2 -> toStopId l1 = fromStopId l2)
  /\ (forall l a,
        head legs = Some l ->
        head (filter (fun s => routable (disruption req) s = true) (request_stops st req))
        = Some a ->
        fromStopId l = stop_id a).
Proof.
  intros Hsound Hwf Hrun Hdemo it legs.
  destruct (replan_ok_run W req st st' r Hsound Hwf Hrun Hdemo)
    as (dl & eta & delta & Hdl & Heta & Hdelta & _ & st2 & s & route & s1 & st0 & Hinv & _ & Hinv1 & Hn1 & _ & Hs & Hhead & _ & _
        & _ & Hlen2 & Hr).
  subst legs. rewrite Hr. unfold pipeline_answer. cbn [res_itinerary d_legs].
  set (w := model_copy_deep st (itinerary req)) in *.
  set (sta := apply_disruption w.1 w.2 (disruption req)) in *.
  set (active := pending_stops sta w.2) in *.
  set (details := (fetch_alternatives W (get_stop sta <$> active)
                                      (preferredModes (user (get_itin st (itinerary req))))).2)
    in *.
  fold it in details.
  set (mk := leg_of st2 (get_itin w.1 w.2) s details).
  rewrite score_legs_fmap, <- list_fmap_compose.
  set (f := (fun v => set_friction (round3 (friction_raw W v))
                                   (classify_friction_level (friction_raw W v)) v) ∘ mk).
  pose proof (get_itin_copy st (itinerary req)) as Hcopy. fold w it in Hcopy.
  split; [|split; [|split]].
  - rewrite length_fmap, length_route_edges. lia.
  - apply Forall_fmap, Forall_forall. intros e _. unfold f, mk, leg_of, set_friction, compose;
      cbn [available mode frictionScore frictionLevel fromStopId toStopId fst snd].
    split; [done|]. split; [|by split; eexists].
    destruct (details !! e) as [[dd m]|] eqn:Hd.
    + by apply fetch_alternatives_mode in Hd.
    + by rewrite Hcopy.
  - intros k l1 l2 H1 H2. rewrite list_lookup_fmap in H1, H2.
    destruct (route_edges route !! k) as [e1|] eqn:He1; [|done].
    destruct (route_edges route !! S k) as [e2|] eqn:He2; [|done].
    cbn [fmap option_fmap option_map] in H1, H2. injection H1 as <-. injection H2 as <-.
    unfold f, mk, leg_of, set_friction, compose;
      cbn [available mode frictionScore frictionLevel fromStopId toStopId fst snd].
    by rewrite (route_edges_chain _ _ _ _ He1 He2).
  - intros l a Hl Ha.
    destruct (route_edges route) as [|e es] eqn:Hedges; [done|].
    rewrite fmap_cons in Hl. cbn [head] in Hl. injection Hl as <-.
    assert (e.1 = 0%nat) as He.
    { pose proof (head_route_edges route e) as Hh. rewrite Hedges in Hh.
      specialize (Hh eq_refl). congruence. }
    unfold f, mk, leg_of, set_friction, compose;
      cbn [available mode frictionScore frictionLevel fromStopId toStopId fst snd].
    rewrite He.
    destruct Hinv as (_ & _ & _ & Hhd & _ & Hrel & _).
    destruct (stops_to_route s) as [|r0 rest] eqn:Hstops.
    { rewrite Hs in Hstops. cbn [stops_to_route] in Hstops. rewrite Hstops in Hn1.
      simpl in Hn1. lia. }
    cbn [head] in Hhd. change ((r0 :: rest) !!! 0%nat) with r0.
    rewrite (stop_only_dropped_id _ _ (Hrel r0)).
    pose proof (pending_stops_values st (itinerary req) (disruption req)) as Hvals.
    cbv zeta in Hvals. fold w sta active in Hvals.
    assert (head (get_stop sta <$> active) = Some (get_stop sta r0)) as Hhv.
    { destruct active as [|x xs]; [done|]. cbn [head] in Hhd. injection Hhd as ->. done. }
    rewrite Hvals in Hhv. unfold request_stops in Ha. fold it in Ha.
    destruct (filter _ _) as [|a' rest']; [done|].
    rewrite fmap_cons in Hhv. cbn [head] in Ha, Hhv. injection Ha as ->. injection Hhv as <-.
    apply stop_only_dropped_id, step1_stop_only_drops.
Qed.

Lemma replan_legs_form_a_path_witness :
  exists st' r,
    replan_itinerary Ex.world (mkReq 0%nat Ex.ev_weather) Ex.st_two = (st', Ok r)
    /\ (1 <= length (d_legs (res_itinerary r)))%nat
    /\ Forall (fun leg => available leg = true
                          /\ mode leg = TRANSIT
                          /\ is_Some (frictionScore leg)
                          /\ is_Some (frictionLevel leg)) (d_legs (res_itinerary r)).
Proof.
  destruct (replan_itinerary Ex.world (mkReq 0%nat Ex.ev_weather) Ex.st_two)
    as [st' res] eqn:E.
  assert (exists r, res = Ok r) as [r ->].
  { replace res with (replan_itinerary Ex.world (mkReq 0%nat Ex.ev_weather) Ex.st_two).2
      by (by rewrite E).
    vm_compute. eauto. }
  exists st', r. split; [reflexivity|].
  assert (cp_sound (cp_solve Ex.world)) as Hsound by (intros m a Hm; discriminate Hm).
  assert (wf_itin Ex.st_two 0%nat) as Hwf.
  { split; [simpl; lia|]. split; vm_compute; repeat constructor. }
  destruct (replan_legs_form_a_path Ex.world (mkReq 0%nat Ex.ev_weather) Ex.st_two st' r
              Hsound Hwf E eq_refl) as (Hlen & Hall & _).
  split; [exact Hlen|exact Hall].
Defined.

(** ** The diff of the answer *)

(** The dict of lines 709-711 keeps, for a pair of endpoints, the last
    old leg with these endpoints. *)
Lemma old_leg_map_lookup old_legs k :
  old_leg_map old_legs !! k
  = last (filter (fun o => (fromStopId o, toStopId o) = k) old_legs).
Proof.
  unfold old_leg_map. induction old_legs as [|l ls IH] using rev_ind; [done|].
  rewrite foldl_app. simpl. rewrite filter_app, filter_cons, filter_nil.
  destruct (decide ((fromStopId l, toStopId l) = k)) as [<-|Hne].
  - by rewrite lookup_insert_eq, last_snoc.
  - by rewrite lookup_insert_ne, app_nil_r.
Qed.

Lemma is_new_spec old_legs l :
  is_new old_legs l = true
  <-> forall o, o ∈ old_legs -> (fromStopId o, toStopId o) <> (fromStopId l, toStopId l).
Proof.
  unfold is_new. rewrite old_leg_map_lookup.
  set (same := filter _ old_legs).
  assert (forall o, o ∈ same <-> o ∈ old_legs
                                 /\ (fromStopId o, toStopId o) = (fromStopId l, toStopId l))
    as Hsame by (intros o; unfold same; rewrite list_elem_of_filter; tauto).
  destruct (last same) as [o|] eqn:Hlast.
  - split; [done|]. intros Hall. apply last_Some_elem_of, Hsame in Hlast as [Hin Hkey].
    by destruct (Hall o Hin).
  - split; [|done]. intros _ o Hin Hkey. apply last_None in Hlast.
    assert (o ∈ same) as Ho by (by apply Hsame). rewrite Hlast in Ho.
    by apply elem_of_nil in Ho.
Qed.

Lemma leg_changed_spec o l :
  leg_changed o l = true
  <-> costCents o <> costCents l \/ durationSec o <> durationSec l \/ mode o <> mode l.
Proof.
  unfold leg_changed. rewrite !orb_true_iff, !negb_true_iff, !Z.eqb_neq.
  rewrite bool_decide_eq_false. tauto.
Qed.

Lemma is_changed_spec old_legs l :
  is_changed old_legs l = true
  <-> exists o,
      last (filter (fun o => (fromStopId o, toStopId o) = (fromStopId l, toStopId l)) old_legs)
      = Some o
      /\ (costCents o <> costCents l \/ durationSec o <> durationSec l \/ mode o <> mode l).
Proof.
  unfold is_changed. rewrite old_leg_map_lookup.
  destruct (last _) as [o|].
  - rewrite leg_changed_spec. split; [by exists o|]. by intros (o' & [= <-] & ?).
  - split; [done|]. by intros (o' & ? & _).
Qed.

(** X18.  When the pipeline answers (no demo bypass), the diff is as
    follows.  [costDelta] is the new total cost minus the old one and
    [etaDelta] what the clock gives for the new total duration;
    [stopsDropped] counts [droppedStops], all of which are [DROPPED] with
    a reason; [newLegs] are the returned legs whose pair of endpoints no
    leg of the request has; [changedLegs] are the returned legs that
    differ in cost, duration or mode from the last leg of the request
    with the same endpoints. *)
Theorem replan_diff_accounts_for_the_answer
        (W : World) (req : ReplanRequest) (st st' : Store) (r : ReplanResult) :
  cp_sound (cp_solve W) ->
  wf_itin st (itinerary req) ->
  replan_itinerary W req st = (st', Ok r) ->
  is_demo_bypass W (get_itin st (itinerary req)) (disruption req) = false ->
  let old := get_itin st (itinerary req) in
  let old_legs := get_leg st <$> legs old in
  let legs := d_legs (res_itinerary r) in
  let diff := res_diff r in
  costDelta diff = d_totalCost (res_itinerary r) - totalCost old
  /\ eta_delta W (sumZ (durationSec <$> legs)) (projectedETA old) = Some (etaDelta diff)
  /\ stopsDropped (res_meta r) = Z.of_nat (length (droppedStops diff))
  /\ Forall (fun s => stop_status s = DROPPED /\ truthy_str (dropReason s) = true)
            (droppedStops diff)
  /\ (forall l, l ∈ newLegs diff
                <-> l ∈ legs
                    /\ forall o, o ∈ old_legs ->
                         (fromStopId o, toStopId o) <> (fromStopId l, toStopId l))
  /\ (forall l, l ∈ changedLegs diff
                <-> l ∈ legs
                    /\ exists o,
                        last (filter (fun o => (fromStopId o, toStopId o)
                                               = (fromStopId l, toStopId l)) old_legs)
                        = Some o
                        /\ (costCents o <> costCents l
                            \/ durationSec o <> durationSec l
                            \/ mode o <> mode l)).
Proof.
  intros Hsound Hwf Hrun Hdemo old old_legs legs diff.
  destruct (replan_ok_run W req st st' r Hsound Hwf Hrun Hdemo)
    as (dl & eta & delta & Hdl & Heta & Hdelta & _ & st2 & s & route & s1 & st0 & Hinv & _ & _ & _ & _ & _ & _ & _ & _ & _ & _ & Hr).
  subst legs diff. rewrite Hr. unfold pipeline_answer.
  cbn [res_itinerary res_diff res_meta d_legs d_totalCost costDelta etaDelta stopsDropped
       droppedStops newLegs changedLegs].
  fold old. fold old_legs.
  split; [done|]. split; [by rewrite Hr in Hdelta|]. split; [done|].
  split; [|split].
  - destruct Hinv as (_ & _ & _ & _ & Hdropped & _).
    by apply Forall_fmap.
  - intros l. unfold truly_new_legs. rewrite list_elem_of_filter, is_new_spec. tauto.
  - intros l. unfold changed_legs. rewrite list_elem_of_filter, is_changed_spec. tauto.
Qed.

Lemma replan_diff_accounts_for_the_answer_witness :
  exists st' r,
    replan_itinerary Ex.world (mkReq 0%nat Ex.ev_weather) Ex.st_four = (st', Ok r)
    /\ costDelta (res_diff r) = d_totalCost (res_itinerary r) - 300
    /\ stopsDropped (res_meta r) = Z.of_nat (length (droppedStops (res_diff r))).
Proof.
  destruct (replan_itinerary Ex.world (mkReq 0%nat Ex.ev_weather) Ex.st_four)
    as [st' res] eqn:E.
  assert (exists r, res = Ok r) as [r ->].
  { replace res with (replan_itinerary Ex.world (mkReq 0%nat Ex.ev_weather) Ex.st_four).2
      by (by rewrite E).
    vm_compute. eauto. }
  exists st', r. split; [reflexivity|].
  assert (cp_sound (cp_solve Ex.world)) as Hsound by (intros m a Hm; discriminate Hm).
  assert (wf_itin Ex.st_four 0%nat) as Hwf.
  { split; [simpl; lia|]. split; vm_compute; repeat constructor. }
  destruct (replan_diff_accounts_for_the_answer
              Ex.world (mkReq 0%nat Ex.ev_weather) Ex.st_four st' r Hsound Hwf E eq_refl)
    as (Hcost & _ & Hcount & _).
  split; [exact Hcost|exact Hcount].
Defined.

(** ** A closed venue and the route *)

Lemma close_stop_pending event sid a :
  stop_status (close_stop event sid a) = PENDING -> stop_id (close_stop event sid a) <> sid.
Proof.
  unfold close_stop.
  destruct (String.eqb (stop_id a) sid) eqn:Hid; simpl.
  - destruct (bool_decide (stop_status a = PENDING)) eqn:Hp; [done|].
    by apply bool_decide_eq_false in Hp.
  - intros _. by apply String.eqb_neq.
Qed.

Lemma leg_endpoints_routed st it s details route e :
  Forall (fun i => (i < length (stops_to_route s))%nat) route ->
  e ∈ route_edges route ->
  exists a b,
    a ∈ stops_to_route s /\ b ∈ stops_to_route s
    /\ fromStopId (leg_of st it s details e) = stop_id (get_stop st a)
    /\ toStopId (leg_of st it s details e) = stop_id (get_stop st b).
Proof.
  intros Hrange He. rewrite Forall_forall in Hrange.
  destruct (edge_ends_in_route route e He) as [H1 H2].
  exists (stops_to_route s !!! e.1), (stops_to_route s !!! e.2).
  split; [apply list_elem_of_lookup_total_2; auto|].
  split; [apply list_elem_of_lookup_total_2; auto|done].
Qed.

(** X19.  When the pipeline answers a [VENUE_CLOSED] event that names a
    stop, no returned leg starts or ends at that stop id, and every stop
    of the request that carried the id and was pending comes out
    [DROPPED] and is listed in [droppedStops] with the reason
    "Venue closed (disruption <event id>)". *)
Theorem closed_venue_is_off_the_route
        (W : World) (req : ReplanRequest) (st st' : Store) (r : ReplanResult) sid :
  cp_sound (cp_solve W) ->
  wf_itin st (itinerary req) ->
  replan_itinerary W req st = (st', Ok r) ->
  is_demo_bypass W (get_itin st (itinerary req)) (disruption req) = false ->
  event_type (disruption req) = VENUE_CLOSED ->
  affectedStopId (disruption req) = Some sid ->
  sid <> ""%string ->
  (forall leg, leg ∈ d_legs (res_itinerary r) ->
               fromStopId leg <> sid /\ toStopId leg <> sid)
  /\ (forall k s_in,
        request_stops st req !! k = Some s_in ->
        stop_id s_in = sid ->
        stop_status s_in = PENDING ->
        set_dropped (Some ("Venue closed (disruption " ++ event_id (disruption req) ++ ")")%string)
                    s_in ∈ droppedStops (res_diff r)
        /\ exists s_out,
            d_stops (res_itinerary r) !! k = Some s_out /\ stop_status s_out = DROPPED).
Proof.
  intros Hsound Hwf Hrun Hdemo Hty Hsid Hne.
  destruct (replan_ok_run W req st st' r Hsound Hwf Hrun Hdemo)
    as (dl & eta & delta & Hdl & Heta & Hdelta & _ & st2 & s & route & s1 & st0 & Hinv & _ & _ & _ & _ & _ & _ & _ & Hrange
        & _ & _ & Hr).
  set (event := disruption req) in *.
  set (it := get_itin st (itinerary req)) in *.
  set (w := model_copy_deep st (itinerary req)) in *.
  set (sta := apply_disruption w.1 w.2 event) in *.
  set (active := pending_stops sta w.2) in *.
  assert (truthy_str (affectedStopId event) = true) as Htruthy.
  { rewrite Hsid. simpl. by apply negb_true_iff, String.eqb_neq. }
  assert (forall a, step1_stop event a = close_stop event sid a) as Hstep1.
  { intros a. unfold step1_stop. by rewrite Hty, Htruthy, Hsid. }
  destruct Hinv as (_ & _ & Hstops & _ & _ & Hrel & _ & _ & _ & _ & _ & _ & Halready).
  pose proof (pending_stops_values st (itinerary req) event) as Hvals.
  cbv zeta in Hvals. fold w sta active it in Hvals.
  pose proof (stop_heap_step1 st (itinerary req) event) as Hheap.
  cbv zeta in Hheap. fold w sta it in Hheap.
  pose proof (get_itin_copy st (itinerary req)) as Hcopy. fold w it in Hcopy.
  assert (forall a, a ∈ stops_to_route s -> stop_id (get_stop st2 a) <> sid) as Hrouted.
  { intros a Ha. rewrite Forall_forall in Hstops. destruct (Hstops a Ha) as [Hact _].
    rewrite (stop_only_dropped_id _ _ (Hrel a)).
    assert (get_stop sta a ∈ get_stop sta <$> active) as Hin
        by (apply list_elem_of_fmap; by exists a).
    rewrite Hvals in Hin. apply list_elem_of_fmap in Hin as (x & -> & Hx).
    apply list_elem_of_filter in Hx as [Hroutable _].
    unfold routable in Hroutable. apply bool_decide_eq_true in Hroutable.
    rewrite Hstep1 in Hroutable |- *. by apply close_stop_pending. }
  rewrite Hr. unfold pipeline_answer.
  cbn [res_itinerary res_diff d_legs d_stops droppedStops].
  split.
  - intros leg Hleg. rewrite score_legs_fmap, <- list_fmap_compose in Hleg.
    apply list_elem_of_fmap in Hleg as (e & -> & He).
    destruct (leg_endpoints_routed st2 (get_itin w.1 w.2) s
                (fetch_alternatives W (get_stop sta <$> active) (preferredModes (user it))).2
                route e Hrange He) as (a & b & Ha & Hb & Hfrom & Hto).
    unfold compose, set_friction. cbn [fromStopId toStopId].
    rewrite Hfrom, Hto. split; by apply Hrouted.
  - intros k s_in Hk Hid Hpending. unfold request_stops in Hk. fold it in Hk.
    assert (k < length (stops it))%nat as Hlt.
    { apply lookup_lt_Some in Hk. by rewrite length_fmap in Hk. }
    set (x := (length (stop_heap st) + k)%nat).
    set (reason := ("Venue closed (disruption " ++ event_id event ++ ")")%string).
    assert (get_stop sta x = set_dropped (Some reason) s_in) as Hx.
    { unfold get_stop. rewrite Hheap. rewrite lookup_total_app_r by (unfold x; lia).
      replace (x - length (stop_heap st))%nat with k by (unfold x; lia).
      apply list_lookup_total_correct. rewrite list_lookup_fmap, Hk. simpl. f_equal.
      rewrite Hstep1. unfold close_stop.
      by rewrite Hid, String.eqb_refl, bool_decide_eq_true_2. }
    assert (get_stop st2 x = set_dropped (Some reason) s_in) as Hx2.
    { destruct (Hrel x) as [->|(Hp & _)]; [done|]. by rewrite Hx in Hp. }
    split.
    + apply list_elem_of_fmap. exists x. split; [done|].
      destruct Halready as [dropped ->]. apply elem_of_app. left.
      unfold already_dropped. apply list_elem_of_filter. rewrite Hx. split; [done|].
      replace (get_itin sta w.2) with (get_itin w.1 w.2)
        by (symmetry; apply get_itin_apply_disruption).
      rewrite Hcopy. cbn [stops]. apply elem_of_seq. unfold x. lia.
    + rewrite Hcopy. cbn [stops]. rewrite !list_lookup_fmap, lookup_seq_lt by done.
      cbn [fmap option_fmap option_map]. fold x. eexists. split; [done|].
      apply reflect_drop_dropped. by rewrite Hx2.
Qed.

Lemma closed_venue_is_off_the_route_witness :
  exists st' r,
    replan_itinerary Ex.world (mkReq 0%nat Ex2.ev_venue) Ex2.st_trip = (st', Ok r)
    /\ forall leg, leg ∈ d_legs (res_itinerary r) ->
                   fromStopId leg <> "cafe"%string /\ toStopId leg <> "cafe"%string.
Proof.
  destruct (replan_itinerary Ex.world (mkReq 0%nat Ex2.ev_venue) Ex2.st_trip)
    as [st' res] eqn:E.
  assert (exists r, res = Ok r) as [r ->].
  { replace res with (replan_itinerary Ex.world (mkReq 0%nat Ex2.ev_venue) Ex2.st_trip).2
      by (by rewrite E).
    vm_compute. eauto. }
  exists st', r. split; [reflexivity|].
  assert (cp_sound (cp_solve Ex.world)) as Hsound by (intros m a Hm; discriminate Hm).
  assert (wf_itin Ex2.st_trip 0%nat) as Hwf.
  { split; [simpl; lia|]. split; vm_compute; repeat constructor. }
  destruct (closed_venue_is_off_the_route Ex.world (mkReq 0%nat Ex2.ev_venue) Ex2.st_trip
              st' r "cafe" Hsound Hwf E eq_refl eq_refl eq_refl) as [Hlegs _];
    [discriminate|exact Hlegs].
Defined.

(** ** A budget that cannot be met *)




(** ** Routes when every trip takes time *)

Lemma fetch_alternatives_returns_positive W active modes :
  durations_positive W ->
  returns_positive (length active) (fetch_alternatives W active modes).1.2.
Proof.
  intros Hw i Hi. unfold fetch_alternatives. cbn [fst snd].
  rewrite (entry_fmap_seq
             (fun i j => if (i =? j)%nat then 0
                         else ld_durationSec
                                (fetch_directions W i j (active !!! i) (active !!! j)
                                                  (hd WALKING modes)))) by lia.
  destruct (i =? 0)%nat eqn:Hi0; [apply Nat.eqb_eq in Hi0; lia|]. apply Hw.
Qed.

Lemma edge_touching route i :
  i ∈ route -> (2 <= length route)%nat ->
  exists e, e ∈ route_edges route /\ (e.1 = i \/ e.2 = i).
Proof.
  intros Hi Hlen. destruct (decide (head route = Some i)) as [Hhead|Hhead].
  - destruct route as [|a [|b rest]]; simpl in Hlen; try lia.
    injection Hhead as ->. exists (i, b). split; [|by left].
    rewrite route_edges_cons. left.
  - destruct (edge_into route i Hi Hhead) as [p Hp]. exists (p, i). split; [done|by right].
Qed.

Lemma reflect_drop_pending ds y :
  stop_status (reflect_drop ds y) = PENDING -> reflect_drop ds y = y.
Proof. unfold reflect_drop. by destruct (find _ ds). Qed.

(** X21.  When every directions answer takes some time, the exact
    solver finds nothing and the route is the greedy one, which visits
    every stop still routed: in an answer of the pipeline every stop
    that is still [PENDING] is an endpoint of a returned leg. *)
Theorem pending_stops_are_on_the_route
        (W : World) (req : ReplanRequest) (st st' : Store) (r : ReplanResult) :
  cp_sound (cp_solve W) ->
  durations_positive W ->
  wf_itin st (itinerary req) ->
  replan_itinerary W req st = (st', Ok r) ->
  is_demo_bypass W (get_itin st (itinerary req)) (disruption req) = false ->
  forall s_out,
    s_out ∈ d_stops (res_itinerary r) ->
    stop_status s_out = PENDING ->
    exists leg,
      leg ∈ d_legs (res_itinerary r)
      /\ (fromStopId leg = stop_id s_out \/ toStopId leg = stop_id s_out).
Proof.
  intros Hsound Hdur Hwf Hrun Hdemo s_out Hin Hpending.
  destruct (replan_ok_run W req st st' r Hsound Hwf Hrun Hdemo)
    as (dl & eta & delta & Hdl & Heta & Hdelta & _ & st2 & s & route & s1 & st0 & Hinv & _ & Hinv1 & Hn1 & Hstep & Hs & _ & _ & _
        & _ & Hlen2 & Hr).
  set (event := disruption req) in *.
  set (it := get_itin st (itinerary req)) in *.
  set (w := model_copy_deep st (itinerary req)) in *.
  set (sta := apply_disruption w.1 w.2 event) in *.
  set (active := pending_stops sta w.2) in *.
  set (fetched := fetch_alternatives W (get_stop sta <$> active) (preferredModes (user it)))
    in *.
  (* the route is the greedy one, a permutation of the routed indices *)
  assert (route ≡ₚ seq 0 (length (stops_to_route s))) as Hperm.
  { destruct Hinv1 as (Hc & Ht & _ & _ & _ & _ & _ & _ & _ & _ & _ & Hpos & _).
    assert (returns_positive (length active) fetched.1.2) as Hpos0.
    { pose proof (fetch_alternatives_returns_positive W (get_stop sta <$> active)
                    (preferredModes (user it)) Hdur) as H.
      by rewrite length_fmap in H. }
    specialize (Hpos Hpos0).
    pose proof (solve_step_is_greedy W _ _ s1 st0 st2 (Some route) Hsound Hc Ht Hpos Hn1 Hstep)
      as Hgreedy.
    assert (stops_to_route s = stops_to_route s1) as -> by (by rewrite Hs).
    set (dumps := get_stop st0 <$> stops_to_route s1) in *.
    assert (length dumps = length (stops_to_route s1)) as Hlen
        by (subst dumps; by rewrite length_fmap).
    rewrite <- Hlen in Hc, Ht |- *.
    destruct (greedy_fallback_tour _ _ _ _ dumps 0 route Hc Ht ltac:(lia) Hgreedy)
      as (Hp & _). done. }
  destruct Hinv as (_ & _ & _ & _ & _ & Hrel & _ & _ & _ & Hkept & _).
  pose proof (get_itin_copy st (itinerary req)) as Hcopy. fold w it in Hcopy.
  rewrite Hr in Hin |- *. unfold pipeline_answer in *.
  cbn [res_itinerary d_legs d_stops] in *.
  apply list_elem_of_fmap in Hin as (y & -> & Hy).
  apply list_elem_of_fmap in Hy as (x & -> & Hx).
  rewrite (reflect_drop_pending _ _ Hpending) in Hpending |- *.
  assert (stop_status (get_stop sta x) = PENDING) as Hsta.
  { destruct (Hrel x) as [<-|(_ & reason & _ & Heq)]; [done|]. by rewrite Heq in Hpending. }
  assert (x ∈ active) as Hact.
  { unfold active, pending_stops. apply list_elem_of_filter. split; [done|].
    by replace (get_itin sta w.2) with (get_itin w.1 w.2)
      by (symmetry; apply get_itin_apply_disruption). }
  destruct (Hkept x Hact) as [Hrouted|Hdropped]; [|by rewrite Hdropped in Hpending].
  apply list_elem_of_lookup in Hrouted as [i Hi].
  assert (i ∈ route) as Hir.
  { rewrite Hperm. apply elem_of_seq. apply lookup_lt_Some in Hi. lia. }
  destruct (edge_touching route i Hir Hlen2) as (e & He & Hend).
  exists (set_friction
            (round3 (friction_raw W (leg_of st2 (get_itin w.1 w.2) s fetched.2 e)))
            (classify_friction_level
               (friction_raw W (leg_of st2 (get_itin w.1 w.2) s fetched.2 e)))
            (leg_of st2 (get_itin w.1 w.2) s fetched.2 e)).
  split.
  - rewrite score_legs_fmap, <- list_fmap_compose. apply list_elem_of_fmap.
    by exists e.
  - unfold set_friction, leg_of. cbn [fromStopId toStopId].
    destruct Hend as [->| ->]; [left|right];
      by rewrite (list_lookup_total_correct _ _ _ Hi).
Qed.

Lemma pending_stops_are_on_the_route_witness :
  exists st' r,
    replan_itinerary Ex.world (mkReq 0%nat Ex.ev_weather) Ex.st_four = (st', Ok r)
    /\ forall s_out,
        s_out ∈ d_stops (res_itinerary r) ->
        stop_status s_out = PENDING ->
        exists leg,
          leg ∈ d_legs (res_itinerary r)
          /\ (fromStopId leg = stop_id s_out \/ toStopId leg = stop_id s_out).
Proof.
  destruct (replan_itinerary Ex.world (mkReq 0%nat Ex.ev_weather) Ex.st_four)
    as [st' res] eqn:E.
  assert (exists r, res = Ok r) as [r ->].
  { replace res with (replan_itinerary Ex.world (mkReq 0%nat Ex.ev_weather) Ex.st_four).2
      by (by rewrite E).
    vm_compute. eauto. }
  exists st', r. split; [reflexivity|].
  assert (cp_sound (cp_solve Ex.world)) as Hsound by (intros m a Hm; discriminate Hm).
  assert (durations_positive Ex.world) as Hdur by (intros i j o d m; simpl; lia).
  assert (wf_itin Ex.st_four 0%nat) as Hwf.
  { split; [simpl; lia|]. split; vm_compute; repeat constructor. }
  exact (pending_stops_are_on_the_route Ex.world (mkReq 0%nat Ex.ev_weather) Ex.st_four
           st' r Hsound Hdur Hwf E eq_refl).
Defined.

(** ** The demo bypass *)





(** ** The mock friction scorer, level by level *)

(** A property of the hundred hash buckets is checked bucket by bucket. *)
Lemma range100 (f : Z -> bool) :
  forallb f (Z.of_nat <$> seq 0 100) = true ->
  forall k, 0 <= k < 100 -> f k = true.
Proof.
  intros Hall k Hk. rewrite forallb_forall in Hall. apply Hall.
  apply list_elem_of_In, list_elem_of_fmap. exists (Z.to_nat k). split; [lia|].
  apply list_elem_of_In, in_seq. lia.
Qed.

Lemma mock_peak_high k :
  0 <= k < 100 ->
  classify_friction_level (Qmax 0 (Qmin 1 (0.55 + inject_Z (k - 50) * 0.004)))%Q = HIGH
  <-> 88 <= k.
Proof.
  intros Hk.
  pose (f := fun k => Bool.eqb
       (bool_decide (classify_friction_level
                       (Qmax 0 (Qmin 1 (0.55 + inject_Z (k - 50) * 0.004)))%Q = HIGH))
       (88 <=? k)).
  assert (f k = true) as H by (apply (range100 f); [vm_compute; reflexivity|done]).
  unfold f in H.
  apply Bool.eqb_prop in H. rewrite <- Z.leb_le, <- H. symmetry. apply bool_decide_eq_true.
Qed.

Lemma mock_offpeak_not_high b k :
  b ∈ [0.15; 0.25; 0.35]%Q -> 0 <= k < 100 ->
  classify_friction_level (Qmax 0 (Qmin 1 (b + inject_Z (k - 50) * 0.004)))%Q <> HIGH.
Proof.
  intros Hb Hk.
  pose (f := fun b k => negb (bool_decide (classify_friction_level
            (Qmax 0 (Qmin 1 (b + inject_Z (k - 50) * 0.004)))%Q = HIGH))).
  assert (f b k = true) as H.
  { apply (range100 (f b)); [|done].
    repeat (apply elem_of_cons in Hb as [->|Hb]; [vm_compute; reflexivity|]).
    by apply elem_of_nil in Hb. }
  unfold f in H.
  apply negb_true_iff, bool_decide_eq_false in H. done.
Qed.

Lemma mock_value_facts b k :
  b ∈ [0.15; 0.25; 0.35; 0.55]%Q -> 0 <= k < 100 ->
  let s := (Qmax 0 (Qmin 1 (b + inject_Z (k - 50) * 0.004)))%Q in
  (0 <= s)%Q /\ (s <= 0.746)%Q
  /\ classify_friction_level (round3 s) = classify_friction_level s
  /\ ((s <= 0.298)%Q \/ (0.302 <= s)%Q)
  /\ ((s <= 0.698)%Q \/ (0.702 <= s)%Q).
Proof.
  intros Hb Hk s.
  pose (f := fun b k =>
    let s := (Qmax 0 (Qmin 1 (b + inject_Z (k - 50) * 0.004)))%Q in
    Qle_bool 0 s && Qle_bool s 0.746
    && bool_decide (classify_friction_level (round3 s) = classify_friction_level s)
    && (Qle_bool s 0.298 || Qle_bool 0.302 s)
    && (Qle_bool s 0.698 || Qle_bool 0.702 s)).
  assert (f b k = true) as H.
  { apply (range100 (f b)); [|done].
    repeat (apply elem_of_cons in Hb as [->|Hb]; [vm_compute; reflexivity|]).
    by apply elem_of_nil in Hb. }
  unfold f in H. fold s in H.
  apply andb_true_iff in H as [H H5]. apply andb_true_iff in H as [H H4].
  apply andb_true_iff in H as [H H3]. apply andb_true_iff in H as [H1 H2].
  split; [by apply Qle_bool_iff|]. split; [by apply Qle_bool_iff|].
  split; [by apply bool_decide_eq_true in H3|].
  split.
  - apply orb_true_iff in H4 as [H4|H4]; [left|right]; by apply Qle_bool_iff.
  - apply orb_true_iff in H5 as [H5|H5]; [left|right]; by apply Qle_bool_iff.
Qed.

(** The base and the hash bucket behind a mock score. *)
Lemma mock_score_shape py_hash hour leg :
  exists b k,
    0 <= k < 100
    /\ k = py_hash (fromStopId leg ++ toStopId leg)%string mod 100
    /\ b ∈ [0.15; 0.25; 0.35; 0.55]%Q
    /\ _mock_friction_score py_hash hour leg
       = (Qmax 0 (Qmin 1 (b + inject_Z (k - 50) * 0.004)))%Q
    /\ (b = 0.55%Q <-> mode leg = TRANSIT /\ (7 <= hour <= 9 \/ 17 <= hour <= 19)).
Proof.
  unfold _mock_friction_score.
  set (k := py_hash _ mod 100).
  assert (0 <= k < 100) as Hk by (apply Z.mod_pos_bound; lia).
  destruct (mode leg) eqn:Hmode; cbn [mode_str].
  - exists 0.15%Q, k. split; [exact Hk|]. split; [reflexivity|]. split; [rewrite !elem_of_cons; auto 10|].
    split; [reflexivity|]. split; [done|by intros [? _]].
  - change (String.eqb "TRANSIT" "TRANSIT") with true. cbn [andb].
    destruct ((7 <=? hour) && (hour <=? 9) || (17 <=? hour) && (hour <=? 19)) eqn:Hpeak.
    + exists 0.55%Q, k. split; [exact Hk|]. split; [reflexivity|]. split; [rewrite !elem_of_cons; auto 10|].
      split; [reflexivity|].
      rewrite orb_true_iff, !andb_true_iff, !Z.leb_le in Hpeak.
      split; [intros _; split; [done|lia]|done].
    + exists 0.15%Q, k. split; [exact Hk|]. split; [reflexivity|]. split; [rewrite !elem_of_cons; auto 10|].
      split; [reflexivity|].
      rewrite orb_false_iff, !andb_false_iff, !Z.leb_gt in Hpeak.
      split; [done|]. intros [_ ?]. lia.
  - exists 0.25%Q, k. split; [exact Hk|]. split; [reflexivity|]. split; [rewrite !elem_of_cons; auto 10|].
    split; [reflexivity|]. split; [done|by intros [? _]].
  - exists 0.35%Q, k. split; [exact Hk|]. split; [reflexivity|]. split; [rewrite !elem_of_cons; auto 10|].
    split; [reflexivity|]. split; [done|by intros [? _]].
Qed.

(** X23.  The mock scorer rates a leg [HIGH] exactly when it is a
    transit leg scored at a peak hour (7 to 9, or 17 to 19) whose stop
    ids hash into the buckets 88 to 99; walking, e-bike and rideshare
    legs are never [HIGH].  Its scores lie between 0 and 0.746. *)
Theorem mock_friction_high_only_for_peak_transit
    (py_hash : string -> Z) (hour : Z) (leg : Leg) :
  let s := _mock_friction_score py_hash hour leg in
  (classify_friction_level s = HIGH
   <-> mode leg = TRANSIT
       /\ (7 <= hour <= 9 \/ 17 <= hour <= 19)
       /\ 88 <= py_hash (fromStopId leg ++ toStopId leg)%string mod 100)
  /\ (0 <= s)%Q /\ (s <= 0.746)%Q.
Proof.
  intros s. subst s.
  destruct (mock_score_shape py_hash hour leg) as (b & k & Hk & Hkeq & Hb & -> & Hpeak).
  destruct (mock_value_facts b k Hb Hk) as (H0 & H1 & _).
  split; [|done]. rewrite <- Hkeq.
  assert (b = 0.55%Q \/ (b <> 0.55%Q /\ b ∈ [0.15; 0.25; 0.35]%Q)) as [->|[Hne Hb']].
  { rewrite !elem_of_cons, elem_of_nil in Hb. rewrite !elem_of_cons.
    destruct Hb as [->|[->|[->|[->|[]]]]]; auto 10. }
  - rewrite mock_peak_high by done. destruct Hpeak as [Hpeak _]. specialize (Hpeak eq_refl).
    split; [by intros ?; destruct Hpeak|]. by intros (_ & _ & ?).
  - split.
    + intros Hhigh. exfalso. revert Hhigh. by apply mock_offpeak_not_high.
    + intros (Hm & Hh & _). exfalso. apply Hne, Hpeak. done.
Qed.

(** X24.  Every mock score is more than a thousandth away from the
    thresholds 0.3 and 0.7 of [classify_friction_level], so rounding it
    to three decimals does not move it across a threshold: the level
    [predict_friction] reports for a mock score is the level of the
    rounded score it reports beside it.  (On exact rationals the distance
    is two thousandths; the margin stated leaves room for the rounding
    of the double arithmetic of the code.) *)
Theorem mock_friction_level_survives_rounding
    (py_hash : string -> Z) (hour : Z) (leg : Leg) :
  let s := _mock_friction_score py_hash hour leg in
  classify_friction_level (round3 s) = classify_friction_level s
  /\ ((s < 0.299)%Q \/ (0.301 < s)%Q)
  /\ ((s < 0.699)%Q \/ (0.701 < s)%Q).
Proof.
  intros s. subst s.
  destruct (mock_score_shape py_hash hour leg) as (b & k & Hk & _ & Hb & -> & _).
  destruct (mock_value_facts b k Hb Hk) as (_ & _ & Hlevel & H3 & H7).
  split; [done|]. split.
  - destruct H3 as [H|H]; [left|right].
    + eapply Qle_lt_trans; [exact H|reflexivity].
    + eapply Qlt_le_trans; [|exact H]. reflexivity.
  - destruct H7 as [H|H]; [left|right].
    + eapply Qle_lt_trans; [exact H|reflexivity].
    + eapply Qlt_le_trans; [|exact H]. reflexivity.
Qed.
